(** * onchain-loader: a shallow embedding of the discovery-and-retrieval engine

    The repository ships three implementations of the same engine:

    - [Lib]: [OnChainLoaderV2] of [dist/onchain_loader.js] (viem based
      library: [_collectLeaves], [_loadChunks], [_fetchChunkData],
      [_assembleChunks], [_decodeContent]);
    - [Seq]: the sequential loader page ([fetchChunkData],
      [collectLeafAddresses], [loadChunksSequentially], [retryFailedChunks],
      [fetchTreeSequential]);
    - [Par]: the overlapped loader page ([fetchWithRetry], [loadWorker],
      [collectLeafChunks], [fetchTree]).

    Asynchronous code is embedded in a state-and-exception monad.  The remote
    endpoint is an oracle [rpc] indexed by the number of reads issued so far,
    so that any pattern of transient or permanent failures can be expressed;
    every read, timer wait and log line is recorded in a trace. *)

From Stdlib Require Import ZArith Lia List String Ascii Permutation Sorted.
From Stdlib.Strings Require Import Byte.
From Stdlib Require Import DecimalString.
From stdpp Require Import base gmap strings list sorting.

Local Open Scope string_scope.
Local Open Scope list_scope.
Local Open Scope nat_scope.

(** ** Bytes and addresses *)

Abbreviation bytes := (list byte).

(** Node addresses are the hexadecimal strings the transport hands around
    (["0x"] followed by two digits per byte). *)
Abbreviation Address := string.

Definition hex_digit (n : N) : ascii :=
  match n with
  | 0%N => "0" | 1%N => "1" | 2%N => "2" | 3%N => "3"
  | 4%N => "4" | 5%N => "5" | 6%N => "6" | 7%N => "7"
  | 8%N => "8" | 9%N => "9" | 10%N => "a" | 11%N => "b"
  | 12%N => "c" | 13%N => "d" | 14%N => "e" | _ => "f"
  end%char.

Definition hex_of_byte (b : byte) : string :=
  String (hex_digit (Byte.to_N b / 16)) (String (hex_digit (Byte.to_N b mod 16)) "").

Fixpoint hex_of_bytes (bs : bytes) : string :=
  match bs with
  | [] => ""
  | b :: bs' => hex_of_byte b +:+ hex_of_bytes bs'
  end.

(** [toHex] of viem, [hexlify] of ethers. *)
Definition toHex (bs : bytes) : Address := "0x" +:+ hex_of_bytes bs.

(** [data.slice(a, b)] on a [Uint8Array], for [a <= b]; both ends are clamped
    to the length of the array. *)
Definition slice (data : bytes) (a b : nat) : bytes := take (b - a) (drop a data).

(** The child-address loop shared by the three scanners:
[[
    for (let i = 0; i < data.length; i += 20)
        childAddrs.push(toHex(data.slice(i, i + 20)));
]]
    [n] bounds the number of iterations; [length data] always suffices since
    [i] grows by 20 each time. *)
Fixpoint childAddrs_from (n i : nat) (data : bytes) : list Address :=
  match n with
  | 0 => []
  | S n' =>
      if i <? length data
      then toHex (slice data i (i + 20)) :: childAddrs_from n' (i + 20) data
      else []
  end.

Definition childAddrs (data : bytes) : list Address :=
  childAddrs_from (length data) 0 data.

(** Decimal rendering of a number inside a template string. *)
Definition dec (n : nat) : string := NilEmpty.string_of_uint (Nat.to_uint n).

(** ** The world: remote endpoint, timers, log *)

(** [rpc t a] is the outcome of the [t]-th read issued to the endpoint when it
    targets address [a]: the payload, or [None] when the call rejects.  The
    hexadecimal transport encoding of payloads ([hexToBytes], [getBytes]) is
    not modelled: the oracle delivers the decoded bytes.  [siteInfo] answers
    [getCurrentSiteInfo] on the master contract in the same way,
    [rpc_message t] is the [message] of the error the [t]-th call rejects
    with, and [jitter n] drives the [n]-th call of [Math.random]. *)
Record SiteInfo := { rootChunk : Address; depth : nat; totalSize : nat }.

Record Env := {
  rpc : nat -> Address -> option bytes;
  siteInfo : nat -> Address -> option SiteInfo;
  rpc_message : nat -> string;
  jitter : nat -> nat
}.

Inductive Event :=
| EvRead (a : Address) (ok : bool)
| EvSleep (ms : Z)
| EvLog (msg : string)
| EvProgress (phase : string) (current : nat) (total : option nat).

(** [trace] is kept newest first. *)
Record World := {
  tick : nat;
  draws : nat;
  trace : list Event
}.

Definition world0 : World := {| tick := 0; draws := 0; trace := [] |}.

(** Exceptions: the rejection of a read (the transport's error for the call
    on that address), a [TypeError] raised by dereferencing [undefined], the
    [RangeError] of an out-of-bounds typed-array write, and [new Error(msg)]. *)
Inductive Exn :=
| RpcError (a : Address) (t : nat)
| TypeError
| RangeError
| Error (msg : string).

Inductive Outcome (A : Type) :=
| Return (a : A)
| Throw (e : Exn).
Arguments Return {A} a.
Arguments Throw {A} e.

Definition M (S A : Type) : Type := S -> Outcome A * S.

Definition ret {S A} (a : A) : M S A := fun s => (Return a, s).
Definition throw {S A} (e : Exn) : M S A := fun s => (Throw e, s).
Definition bind {S A B} (m : M S A) (k : A -> M S B) : M S B :=
  fun s => match m s with
           | (Return a, s') => k a s'
           | (Throw e, s') => (Throw e, s')
           end.
Definition try_catch {S A} (m : M S A) (h : Exn -> M S A) : M S A :=
  fun s => match m s with
           | (Return a, s') => (Return a, s')
           | (Throw e, s') => h e s'
           end.

Notation "'let*' x ':=' m 'in' k" := (bind m (fun x => k))
  (at level 10, x pattern, m at level 100, k at level 200).
Notation "m ';;' k" := (bind m (fun _ => k))
  (at level 100, k at level 200, right associativity).

(** [for (const x of xs) acc = body(acc, x)], with early exit on a throw. *)
Fixpoint for_of {S A B} (body : B -> A -> M S B) (xs : list A) (acc : B) : M S B :=
  match xs with
  | [] => ret acc
  | x :: xs' => let* acc' := body acc x in for_of body xs' acc'
  end.

(** Sum of the timer waits recorded in a trace. *)
Fixpoint waited (tr : list Event) : Z :=
  match tr with
  | [] => 0
  | EvSleep ms :: tr' => ms + waited tr'
  | _ :: tr' => waited tr'
  end.

(** Number of reads recorded in a trace. *)
Fixpoint reads (tr : list Event) : nat :=
  match tr with
  | [] => 0
  | EvRead _ _ :: tr' => S (reads tr')
  | _ :: tr' => reads tr'
  end.

Section Primitives.
Context (env : Env).

Definition emit (e : Event) : M World unit :=
  fun w => (Return tt, {| tick := tick w; draws := draws w; trace := e :: trace w |}).

(** [await client.readContract({address, functionName: 'read'})] followed by
    the byte decoding of the answer. *)
Definition readContract (a : Address) : M World bytes :=
  fun w =>
    let w' ok := {| tick := S (tick w); draws := draws w;
                    trace := EvRead a ok :: trace w |} in
    match rpc env (tick w) a with
    | Some b => (Return b, w' true)
    | None => (Throw (RpcError a (tick w)), w' false)
    end.

Definition getCurrentSiteInfo (master : Address) : M World SiteInfo :=
  fun w =>
    let w' ok := {| tick := S (tick w); draws := draws w;
                    trace := EvRead master ok :: trace w |} in
    match siteInfo env (tick w) master with
    | Some i => (Return i, w' true)
    | None => (Throw (RpcError master (tick w)), w' false)
    end.

(** [await new Promise(r => setTimeout(r, ms))]. *)
Definition sleep (ms : Z) : M World unit := emit (EvSleep ms).

Definition log (msg : string) : M World unit := emit (EvLog msg).

(** [Math.random() * 500], at the millisecond resolution of the timer. *)
Definition random500 : M World Z :=
  fun w => (Return (Z.of_nat (jitter env (draws w) mod 500)),
            {| tick := tick w; draws := S (draws w); trace := trace w |}).

End Primitives.

(** [err.message]. *)
Definition message (env : Env) (e : Exn) : string :=
  match e with
  | RpcError _ t => rpc_message env t
  | TypeError => "Cannot read properties of undefined (reading 'length')"
  | RangeError => "offset is out of bounds"
  | Error msg => msg
  end.

(** [data.length] and friends: dereferencing [undefined] raises. *)
Definition defined {S A} (v : option A) : M S A :=
  match v with
  | Some a => ret a
  | None => throw TypeError
  end.

(** ** Chunks and assembly (shared by [Lib] and [Seq]) *)

(** [{ index, data }]; [data] is whatever the fetch returned, which is
    [undefined] ([None]) when the retry loop never ran. *)
Record Chunk := { index : nat; data : option bytes }.

(** [chunks.sort((a, b) => a.index - b.index)]: a stable sort on [index]. *)
Fixpoint insert_by_index (c : Chunk) (cs : list Chunk) : list Chunk :=
  match cs with
  | [] => [c]
  | c' :: cs' =>
      if index c <=? index c' then c :: c' :: cs'
      else c' :: insert_by_index c cs'
  end.

Fixpoint sort_by_index (cs : list Chunk) : list Chunk :=
  match cs with
  | [] => []
  | c :: cs' => insert_by_index c (sort_by_index cs')
  end.

(** [finalData.set(src, offset)]. *)
Definition array_set {S} (dst src : bytes) (offset : nat) : M S bytes :=
  if offset + length src <=? length dst
  then ret (take offset dst ++ src ++ drop (offset + length src) dst)
  else throw RangeError.

(** [new Uint8Array(n)]. *)
Definition zeros (n : nat) : bytes := replicate n x00.

Definition assemble_sorted {S} (chunks : list Chunk) : M S bytes :=
  let* totalBytes :=
    for_of (fun sum c => let* d := defined (data c) in ret (sum + length d)) chunks 0 in
  let* r :=
    for_of (fun '(finalData, offset) c =>
              let* d := defined (data c) in
              let* finalData' := array_set finalData d offset in
              ret (finalData', offset + length d))
           chunks (zeros totalBytes, 0) in
  ret (fst r).

(** ** Text decoders of the platform

    [TextDecoder] is the platform's.  The three decoders the loader
    instantiates are embedded as the Encoding Standard defines them, on code
    points.  The EUC-KR index table is a parameter. *)

Abbreviation Text := (list N).

Definition bN (b : byte) : N := Byte.to_N b.
Definition is_ascii_byte (b : byte) : bool := (bN b <? 128)%N.

(** Label ['ascii'] selects windows-1252: one code unit per byte, ASCII bytes
    to themselves. *)
Definition win1252_high : list N :=
  [0x20AC; 0x81; 0x201A; 0x0192; 0x201E; 0x2026; 0x2020; 0x2021;
   0x02C6; 0x2030; 0x0160; 0x2039; 0x0152; 0x8D; 0x017D; 0x8F;
   0x90; 0x2018; 0x2019; 0x201C; 0x201D; 0x2022; 0x2013; 0x2014;
   0x02DC; 0x2122; 0x0161; 0x203A; 0x0153; 0x9D; 0x017E; 0x0178]%N.

Definition win1252 (b : byte) : N :=
  if ((128 <=? bN b) && (bN b <? 160))%N
  then nth (N.to_nat (bN b - 128)) win1252_high 0xFFFD%N
  else bN b.

Definition decode_ascii (bs : bytes) : Text := map win1252 bs.

Definition replacement : N := 0xFFFD%N.

Definition in_range (lo hi x : N) : bool := ((lo <=? x) && (x <=? hi))%N.

(** UTF-8 decoder state: code point, bytes seen, bytes needed, lower and
    upper boundary. *)
Record Utf8State := {
  u_cp : N; u_seen : N; u_needed : N; u_lower : N; u_upper : N
}.

Definition utf8_init : Utf8State :=
  {| u_cp := 0; u_seen := 0; u_needed := 0; u_lower := 0x80; u_upper := 0xBF |}%N.

(** A byte read while no continuation is pending. *)
Definition utf8_lead (x : N) : Utf8State * list N :=
  if in_range 0x00 0x7F x then (utf8_init, [x])
  else if in_range 0xC2 0xDF x then
    ({| u_cp := N.land x 0x1F; u_seen := 0; u_needed := 1;
        u_lower := 0x80; u_upper := 0xBF |}, [])
  else if in_range 0xE0 0xEF x then
    ({| u_cp := N.land x 0xF; u_seen := 0; u_needed := 2;
        u_lower := if (x =? 0xE0)%N then 0xA0 else 0x80;
        u_upper := if (x =? 0xED)%N then 0x9F else 0xBF |}, [])
  else if in_range 0xF0 0xF4 x then
    ({| u_cp := N.land x 0x7; u_seen := 0; u_needed := 3;
        u_lower := if (x =? 0xF0)%N then 0x90 else 0x80;
        u_upper := if (x =? 0xF4)%N then 0x8F else 0xBF |}, [])
  else (utf8_init, [replacement]).

Definition utf8_step (st : Utf8State) (x : N) : Utf8State * list N :=
  if (u_needed st =? 0)%N then utf8_lead x
  else if negb (in_range (u_lower st) (u_upper st) x) then
    (* error, and the byte is handed back to the stream *)
    let '(st', out) := utf8_lead x in (st', replacement :: out)
  else
    let cp := N.lor (N.shiftl (u_cp st) 6) (N.land x 0x3F) in
    if (u_seen st + 1 =? u_needed st)%N then (utf8_init, [cp])
    else ({| u_cp := cp; u_seen := u_seen st + 1; u_needed := u_needed st;
             u_lower := 0x80; u_upper := 0xBF |}, []).

Fixpoint utf8_run (st : Utf8State) (bs : bytes) : Text :=
  match bs with
  | [] => if (u_needed st =? 0)%N then [] else [replacement]
  | b :: bs' => let '(st', out) := utf8_step st (bN b) in out ++ utf8_run st' bs'
  end.

(** [new TextDecoder('utf-8').decode(data)]: a leading byte order mark is
    dropped. *)
Definition decode_utf8 (bs : bytes) : Text :=
  match bs with
  | xef :: xbb :: xbf :: bs' => utf8_run utf8_init bs'
  | _ => utf8_run utf8_init bs
  end.

Section EucKr.
(** Index EUC-KR of the Encoding Standard: pointer to code point. *)
Variable index_euc_kr : N -> option N.

(** [lead] is the pending lead byte, 0 when there is none. *)
Definition euckr_plain (x : N) : N * list N :=
  if in_range 0x00 0x7F x then (0%N, [x])
  else if in_range 0x81 0xFE x then (x, [])
  else (0%N, [replacement]).

Definition euckr_step (lead x : N) : N * list N :=
  if (lead =? 0)%N then euckr_plain x
  else
    let pointer :=
      if in_range 0x41 0xFE x then Some ((lead - 0x81) * 190 + (x - 0x41))%N
      else None in
    match pointer ≫= index_euc_kr with
    | Some cp => (0%N, [cp])
    | None =>
        (* error; an ASCII byte is handed back to the stream *)
        if in_range 0x00 0x7F x then (0%N, [replacement; x])
        else (0%N, [replacement])
    end.

Fixpoint euckr_run (lead : N) (bs : bytes) : Text :=
  match bs with
  | [] => if (lead =? 0)%N then [] else [replacement]
  | b :: bs' => let '(lead', out) := euckr_step lead (bN b) in out ++ euckr_run lead' bs'
  end.

(** [new TextDecoder('euc-kr').decode(data)]. *)
Definition decode_euc_kr (bs : bytes) : Text := euckr_run 0%N bs.
End EucKr.

(** ** The charset pattern

    The source's regular expression is [charset=], then an optional single or
    double quote, then one of [euc-kr], [cp949], [ks_c_5601-1987], all under
    the [i] flag; it is run on a decoded preview.
    Under the [i] flag a code unit matches a pattern character when both
    canonicalize to the same code unit; every pattern character is ASCII and
    a code unit above 127 never canonicalizes into ASCII, so only the ASCII
    upper-casing matters. *)

Definition canonicalize (x : N) : N :=
  if in_range 97 122 x then (x - 32)%N else x.

Definition code_units (s : string) : list N := map bN (list_byte_of_string s).

Fixpoint starts_with_ci (pat s : list N) : bool :=
  match pat, s with
  | [], _ => true
  | _ :: _, [] => false
  | p :: pat', x :: s' => (canonicalize p =? canonicalize x)%N && starts_with_ci pat' s'
  end.

Definition charset_aliases : list string := ["euc-kr"; "cp949"; "ks_c_5601-1987"].

(** The alternation, tried in order; the capture is the matched input. *)
Fixpoint alias_at (aliases : list string) (s : list N) : option (list N) :=
  match aliases with
  | [] => None
  | a :: rest =>
      if starts_with_ci (code_units a) s
      then Some (take (length (code_units a)) s)
      else alias_at rest s
  end.

Definition is_quote (x : N) : bool := ((x =? 34) || (x =? 39))%N.

(** A match starting exactly at the head of [s]: the optional quote is
    greedy, with backtracking. *)
Definition match_here (s : list N) : option (list N) :=
  if starts_with_ci (code_units "charset=") s then
    let r := drop 8 s in
    match r with
    | q :: r' =>
        if is_quote q then
          match alias_at charset_aliases r' with
          | Some cap => Some cap
          | None => alias_at charset_aliases r
          end
        else alias_at charset_aliases r
    | [] => None
    end
  else None.

(** [s.match(re)]: leftmost match; [Some capture] or [None] for [null]. *)
Fixpoint charset_match (s : list N) : option (list N) :=
  match match_here s with
  | Some cap => Some cap
  | None => match s with
            | [] => None
            | _ :: s' => charset_match s'
            end
  end.

(** What ends up on screen: the rendered document, or the error surface
    ([onError(err)] or the generic failure message). *)
Inductive Page :=
| Rendered (html : Text)
| ErrorShown (e : Exn).

(** [{ index, address }]: a leaf as the scan records it. *)
Record Leaf := { l_index : nat; l_address : Address }.

(** ** [OnChainLoaderV2] of [dist/onchain_loader.js] *)
Module Lib.
Section Lib.
Context (env : Env) (index_euc_kr : N -> option N).

(** [_fetchChunkData(client, address, hexToBytes, retries = 3)].  The
    [for (let i = 0; i < retries; i++)] loop is unrolled on the number of
    iterations its guard still admits; running off its end returns
    [undefined]. *)
Fixpoint _fetchChunkData_from (remaining : nat) (i retries : Z) (address : Address)
  : M World (option bytes) :=
  match remaining with
  | 0 => ret None
  | S k =>
      try_catch
        (let* data := readContract env address in ret (Some data))
        (fun err =>
           if (i =? retries - 1)%Z then throw err
           else
             let delay := (200 * 2 ^ i)%Z in
             sleep (Z.min delay 2000) ;;
             _fetchChunkData_from k (i + 1)%Z retries address)
  end.

Definition _fetchChunkData (address : Address) (retries : Z) : M World (option bytes) :=
  _fetchChunkData_from (Z.to_nat retries) 0 retries address.

(** [traverse] inside [_collectLeaves]; the closure variable [leaves] is
    threaded through. *)
Fixpoint traverse (onFound : nat -> M World unit) (nodeDepth : nat)
    (leaves : list Address) (address : Address) : M World (list Address) :=
  match nodeDepth with
  | 0 =>
      let leaves := leaves ++ [address] in
      onFound (length leaves) ;;
      ret leaves
  | S d =>
      let* data := _fetchChunkData address 3 in
      let* data := defined data in
      for_of (traverse onFound d) (childAddrs data) leaves
  end.

Definition _collectLeaves (rootChunk : Address) (depth : nat)
    (onFound : nat -> M World unit) : M World (list Address) :=
  traverse onFound depth [] rootChunk.

(** First loop of [_loadChunks]: every leaf, two attempts each. *)
Definition load_pass (onProgress : nat -> nat -> M World unit) (leaves : list Address)
  : M World (list Chunk * list Leaf) :=
  for_of (fun '(chunks, failed) '(i, leaf) =>
            onProgress (i + 1) (length leaves) ;;
            try_catch
              (let* data := _fetchChunkData leaf 2 in
               ret (chunks ++ [{| index := i; data := data |}], failed))
              (fun _ => ret (chunks, failed ++ [{| l_index := i; l_address := leaf |}])))
         (imap (fun i leaf => (i, leaf)) leaves) ([], []).

(** One retry round: every item still failing, three attempts each, 100 ms
    after each item. *)
Definition retry_round (toRetry : list Leaf) (chunks : list Chunk)
  : M World (list Chunk * list Leaf) :=
  for_of (fun '(chunks, stillFailed) item =>
            let* r :=
              try_catch
                (let* data := _fetchChunkData (l_address item) 3 in
                 ret (chunks ++ [{| index := l_index item; data := data |}], stillFailed))
                (fun _ => ret (chunks, stillFailed ++ [item])) in
            sleep 100 ;;
            ret r)
         toRetry (chunks, []).

(** [while (toRetry.length > 0 && retryRound < 5)]; [left] is
    [5 - retryRound]. *)
Fixpoint retry_rounds (left retryRound : nat) (toRetry : list Leaf) (chunks : list Chunk)
  : M World (list Chunk * list Leaf) :=
  match toRetry, left with
  | [], _ | _, 0 => ret (chunks, toRetry)
  | _ :: _, S left' =>
      let retryRound := S retryRound in
      sleep (500 * Z.of_nat retryRound) ;;
      let* r := retry_round toRetry chunks in
      retry_rounds left' retryRound (snd r) (fst r)
  end.

(** [_loadChunks] up to its [return]: the chunks, and what is left of
    [toRetry] when the loop ends. *)
Definition _loadChunks_run (leaves : list Address) (onProgress : nat -> nat -> M World unit)
  : M World (list Chunk * list Leaf) :=
  let* r := load_pass onProgress leaves in
  retry_rounds 5 0 (snd r) (fst r).

Definition _loadChunks (leaves : list Address) (onProgress : nat -> nat -> M World unit)
  : M World (list Chunk) :=
  let* r := _loadChunks_run leaves onProgress in
  ret (fst r).

Definition _assembleChunks {S} (chunks : list Chunk) : M S bytes :=
  assemble_sorted (sort_by_index chunks).

Definition _decodeContent (data : bytes) : Text :=
  let asciiPreview := decode_ascii (slice data 0 2000) in
  match charset_match asciiPreview with
  | Some _ => decode_euc_kr index_euc_kr data
  | None => decode_utf8 data
  end.

(** [getData(config)], for a configuration that carries [viem]. *)
Definition getData (masterAddress : Address) : M World bytes :=
  let* info := getCurrentSiteInfo env masterAddress in
  let* leaves := _collectLeaves (rootChunk info) (depth info) (fun _ => ret tt) in
  let* chunks := _loadChunks leaves (fun _ _ => ret tt) in
  _assembleChunks chunks.

(** [load(config)], for a configuration that carries [rpcUrl], [viem], an
    [onProgress] callback that only reports and an [onError], if any, that
    returns; the status widget is presentation. *)
Definition load (masterAddress : Address) : M World Page :=
  if String.eqb masterAddress "" then
    throw (Error "masterAddress and rpcUrl are required")
  else
    try_catch
      (let* info := getCurrentSiteInfo env masterAddress in
       let* leaves :=
         _collectLeaves (rootChunk info) (depth info)
           (fun count => emit (EvProgress "scan" count None)) in
       let* chunks :=
         _loadChunks leaves
           (fun current total => emit (EvProgress "load" current (Some total))) in
       let* data := _assembleChunks chunks in
       ret (Rendered (_decodeContent data)))
      (fun err => ret (ErrorShown err)).
End Lib.
End Lib.

(** ** The sequential loader page *)
Module Seq.
Section Seq.
Context (env : Env) (index_euc_kr : N -> option N).
(** [formatBytes] is a presentation helper; only its result is logged. *)
Context (formatBytes : nat -> string).

(** [fetchChunkData(address, retries = 3)]. *)
Fixpoint fetchChunkData_from (remaining : nat) (i retries : Z) (address : Address)
  : M World (option bytes) :=
  match remaining with
  | 0 => ret None
  | S k =>
      try_catch
        (let* data := readContract env address in ret (Some data))
        (fun err =>
           if (i =? retries - 1)%Z then throw err
           else
             let delay := (200 * 2 ^ i)%Z in
             sleep (Z.min delay 2000) ;;
             fetchChunkData_from k (i + 1)%Z retries address)
  end.

Definition fetchChunkData (address : Address) (retries : Z) : M World (option bytes) :=
  fetchChunkData_from (Z.to_nat retries) 0 retries address.

(** [traverseNode] inside [collectLeafAddresses]; the closure variables
    [leaves] and [currentIndex] are threaded through. *)
Fixpoint traverseNode (nodeDepth : nat) (st : list Leaf * nat) (address : Address)
  : M World (list Leaf * nat) :=
  match nodeDepth with
  | 0 =>
      let '(leaves, currentIndex) := st in
      ret (leaves ++ [{| l_index := currentIndex; l_address := address |}],
           S currentIndex)
  | S d =>
      try_catch
        (let* data := fetchChunkData address 3 in
         let* data := defined data in
         for_of (traverseNode d) (childAddrs data) st)
        (fun err =>
           log ("Failed to traverse node: " +:+ substring 0 10 address +:+ "...") ;;
           throw err)
  end.

Definition collectLeafAddresses (rootChunk : Address) (depth : nat) : M World (list Leaf) :=
  let* r := traverseNode depth ([], 0) rootChunk in
  ret (fst r).

(** [loadChunksSequentially].  Inside the [try], [chunks.push] comes before
    [bytesLoaded += data.length]: on an [undefined] payload the chunk has
    been pushed when the [TypeError] reaches the handler. *)
Definition loadChunksSequentially (leaves : list Leaf) : M World (list Chunk * list Leaf) :=
  for_of (fun '(chunks, failed) '(i, leaf) =>
            let failure err :=
              log ("Failed chunk " +:+ dec (i + 1) +:+ ": " +:+ message env err) in
            let* r := try_catch
                        (let* data := fetchChunkData (l_address leaf) 2 in ret (inl data))
                        (fun err => ret (inr err)) in
            match r with
            | inl data =>
                let chunks := chunks ++ [{| index := l_index leaf; data := data |}] in
                match data with
                | Some _ => ret (chunks, failed)
                | None => failure TypeError ;; ret (chunks, failed ++ [leaf])
                end
            | inr err => failure err ;; ret (chunks, failed ++ [leaf])
            end)
         (imap (fun i leaf => (i, leaf)) leaves) ([], []).

Definition retry_round (toRetry : list Leaf) (chunks : list Chunk)
  : M World (list Chunk * list Leaf) :=
  for_of (fun '(chunks, stillFailed) leaf =>
            let* r :=
              try_catch
                (let* data := fetchChunkData (l_address leaf) 3 in
                 let chunks := chunks ++ [{| index := l_index leaf; data := data |}] in
                 match data with
                 | Some _ => ret (chunks, stillFailed)
                 | None => ret (chunks, stillFailed ++ [leaf])
                 end)
                (fun _ => ret (chunks, stillFailed ++ [leaf])) in
            sleep 100 ;;
            ret r)
         toRetry (chunks, []).

Fixpoint retry_rounds (left retryRound : nat) (toRetry : list Leaf) (chunks : list Chunk)
  : M World (list Chunk * list Leaf) :=
  match toRetry, left with
  | [], _ | _, 0 => ret (chunks, toRetry)
  | _ :: _, S left' =>
      let retryRound := S retryRound in
      log ("Retry round " +:+ dec retryRound +:+ ": " +:+ dec (length toRetry) +:+ " chunks") ;;
      sleep (500 * Z.of_nat retryRound) ;;
      let* r := retry_round toRetry chunks in
      retry_rounds left' retryRound (snd r) (fst r)
  end.

(** [retryFailedChunks(failed, chunks)]: [chunks] is updated in place, so
    the updated array is handed back, together with the final [toRetry]. *)
Definition retryFailedChunks (failed : list Leaf) (chunks : list Chunk)
  : M World (list Chunk * list Leaf) :=
  match failed with
  | [] => ret (chunks, [])
  | _ :: _ =>
      let* r := retry_rounds 5 0 failed chunks in
      match snd r with
      | [] => ret r
      | _ :: _ =>
          log (dec (length (snd r)) +:+ " chunks permanently failed") ;;
          ret r
      end
  end.

(** [fetchTreeSequential] up to the sort: chunks and permanently failed
    leaves. *)
Definition fetchTreeSequential_load (rootChunk : Address) (depth : nat)
  : M World (list Chunk * list Leaf) :=
  log "Starting sequential fast load..." ;;
  log "Phase 1: Collecting chunk addresses..." ;;
  let* leaves := collectLeafAddresses rootChunk depth in
  log ("Found " +:+ dec (length leaves) +:+ " leaf chunks") ;;
  log "Phase 2: Sequential loading..." ;;
  let* r := loadChunksSequentially leaves in
  log ("Loaded: " +:+ dec (length (fst r)) +:+ ", Failed: " +:+ dec (length (snd r))) ;;
  match snd r with
  | [] => ret r
  | _ :: _ =>
      log "Phase 3: Retrying failed chunks..." ;;
      retryFailedChunks (snd r) (fst r)
  end.

Definition fetchTreeSequential (rootChunk : Address) (depth totalSize : nat) : M World bytes :=
  let* r := fetchTreeSequential_load rootChunk depth in
  let chunks := sort_by_index (fst r) in
  let* finalData := assemble_sorted chunks in
  log ("Complete! " +:+ dec (length chunks) +:+ " chunks, "
         +:+ formatBytes (length finalData)) ;;
  ret finalData.

Definition string_of_units (u : list N) : string :=
  string_of_list_ascii (map ascii_of_N u).

(** [init()], for a URL that carries [master]. *)
Definition init (masterAddress : Address) : M World Page :=
  try_catch
    (let* info := getCurrentSiteInfo env masterAddress in
     log ("Root: " +:+ substring 0 10 (rootChunk info) +:+ "..., Depth: " +:+ dec (depth info)) ;;
     let* htmlData := fetchTreeSequential (rootChunk info) (depth info) (totalSize info) in
     let asciiPreview := decode_ascii (slice htmlData 0 2000) in
     match charset_match asciiPreview with
     | Some cap =>
         log ("Encoding detected: " +:+ string_of_units cap) ;;
         ret (Rendered (decode_euc_kr index_euc_kr htmlData))
     | None => ret (Rendered (decode_utf8 htmlData))
     end)
    (fun err =>
       log ("Error: " +:+ message env err) ;;
       ret (ErrorShown err)).
End Seq.
End Seq.

(** ** The overlapped loader page

    Two tasks share the page's variables: the main task ([fetchTree], which
    scans and then polls) and the background [loadWorker].  The main task is
    embedded in the monad; the worker is a machine that advances by one
    resumption (from one [await] to the next) at a time.  Script execution is
    single-threaded, so the worker only runs while the main task is suspended
    on a read or a timer: at its [n]-th suspension the worker is resumed
    [steps n] times, and the clock advances by the wait plus [lag n].  Every
    interleaving and timing is some [Sched]. *)
Module Par.

Record QItem := { q_address : Address; q_offset : nat; q_size : nat; q_index : nat }.
Record LeafChunk := { c_address : Address; c_offset : nat; c_size : nat }.

(** Where the worker is suspended. *)
Inductive Worker :=
| Idle                               (* not started, or returned *)
| Pausing                            (* in the 100 ms idle wait or the 200 ms delay *)
| Reading (chunk : QItem) (i : Z)    (* attempt [i] of [fetchWithRetry] in flight *)
| BackingOff (chunk : QItem) (i : Z) (* in the backoff wait after attempt [i] *).

Record Sched := { steps : nat -> nat; lag : nat -> nat }.

Record State := {
world : World;
now : Z;
yields : nat;
loadQueue : list QItem;
loadResults : gmap Address bytes;
scanComplete : bool;
loaderRunning : bool;
scannedChunks : nat;
expectedTotal : nat;
worker : Worker
}.

Definition set_world (w : World) (s : State) : State :=
{| world := w; now := now s; yields := yields s; loadQueue := loadQueue s;
   loadResults := loadResults s; scanComplete := scanComplete s;
   loaderRunning := loaderRunning s; scannedChunks := scannedChunks s;
   expectedTotal := expectedTotal s; worker := worker s |}.
Definition set_clock (t : Z) (n : nat) (s : State) : State :=
{| world := world s; now := t; yields := n; loadQueue := loadQueue s;
   loadResults := loadResults s; scanComplete := scanComplete s;
   loaderRunning := loaderRunning s; scannedChunks := scannedChunks s;
   expectedTotal := expectedTotal s; worker := worker s |}.
Definition set_loadQueue (q : list QItem) (s : State) : State :=
{| world := world s; now := now s; yields := yields s; loadQueue := q;
   loadResults := loadResults s; scanComplete := scanComplete s;
   loaderRunning := loaderRunning s; scannedChunks := scannedChunks s;
   expectedTotal := expectedTotal s; worker := worker s |}.
Definition set_loadResults (m : gmap Address bytes) (s : State) : State :=
{| world := world s; now := now s; yields := yields s; loadQueue := loadQueue s;
   loadResults := m; scanComplete := scanComplete s;
   loaderRunning := loaderRunning s; scannedChunks := scannedChunks s;
   expectedTotal := expectedTotal s; worker := worker s |}.
Definition set_scanComplete (b : bool) (s : State) : State :=
{| world := world s; now := now s; yields := yields s; loadQueue := loadQueue s;
   loadResults := loadResults s; scanComplete := b;
   loaderRunning := loaderRunning s; scannedChunks := scannedChunks s;
   expectedTotal := expectedTotal s; worker := worker s |}.
Definition set_loaderRunning (b : bool) (s : State) : State :=
{| world := world s; now := now s; yields := yields s; loadQueue := loadQueue s;
   loadResults := loadResults s; scanComplete := scanComplete s;
   loaderRunning := b; scannedChunks := scannedChunks s;
   expectedTotal := expectedTotal s; worker := worker s |}.
Definition set_scannedChunks (n : nat) (s : State) : State :=
{| world := world s; now := now s; yields := yields s; loadQueue := loadQueue s;
   loadResults := loadResults s; scanComplete := scanComplete s;
   loaderRunning := loaderRunning s; scannedChunks := n;
   expectedTotal := expectedTotal s; worker := worker s |}.
Definition set_expectedTotal (n : nat) (s : State) : State :=
{| world := world s; now := now s; yields := yields s; loadQueue := loadQueue s;
   loadResults := loadResults s; scanComplete := scanComplete s;
   loaderRunning := loaderRunning s; scannedChunks := scannedChunks s;
   expectedTotal := n; worker := worker s |}.
Definition set_worker (k : Worker) (s : State) : State :=
{| world := world s; now := now s; yields := yields s; loadQueue := loadQueue s;
   loadResults := loadResults s; scanComplete := scanComplete s;
   loaderRunning := loaderRunning s; scannedChunks := scannedChunks s;
   expectedTotal := expectedTotal s; worker := k |}.

(** The page as the script leaves it before [init()] runs, at time [t0]. *)
Definition state0 (t0 : Z) : State :=
{| world := world0; now := t0; yields := 0; loadQueue := [];
   loadResults := ∅; scanComplete := false; loaderRunning := false;
   scannedChunks := 0; expectedTotal := 0; worker := Idle |}.

Definition liftW {A} (m : M World A) : M State A :=
fun s => let '(r, w) := m (world s) in (r, set_world w s).

Definition modify (f : State -> State) : M State unit := fun s => (Return tt, f s).
Definition gets {A} (f : State -> A) : M State A := fun s => (Return (f s), s).

(** The pictographs of the log lines, as UTF-8. *)
Definition sign_warning : string := string_of_list_byte [xe2; x9a; xa0; xef; xb8; x8f].
Definition sign_cross : string := string_of_list_byte [xe2; x9d; x8c].
Definition sign_check : string := string_of_list_byte [xe2; x9c; x85].
Definition sign_clipboard : string := string_of_list_byte [xf0; x9f; x93; x8b].

(** [fetchWithRetry(fn, retries = 10, baseDelay = 1000)].  The timer and
  [Math.random] are the caller's; the loop is unrolled as in
  [Lib._fetchChunkData_from]. *)
Fixpoint fetchWithRetry_from {S A} (wait : Z -> M S unit) (random : M S Z) (fn : M S A)
  (remaining : nat) (i retries baseDelay : Z) : M S (option A) :=
match remaining with
| 0 => ret None
| S k =>
    try_catch
      (let* r := fn in ret (Some r))
      (fun err =>
         if (i =? retries - 1)%Z then throw err
         else
           let* r := random in
           let delay := (baseDelay * 2 ^ i + r)%Z in
           wait (Z.min delay 10000) ;;
           fetchWithRetry_from wait random fn k (i + 1)%Z retries baseDelay)
end.

Definition fetchWithRetry {S A} (wait : Z -> M S unit) (random : M S Z) (fn : M S A)
  (retries baseDelay : Z) : M S (option A) :=
fetchWithRetry_from wait random fn (Z.to_nat retries) 0 retries baseDelay.

Section Par.
Context (env : Env) (sched : Sched).
(** Whether the page has the [chunkGrid] element. *)
Context (chunkGrid : bool).

Definition logS (msg : string) : M State unit := liftW (log msg).

(** *** The worker *)

(** Head of [while (loadQueue.length > 0 || !scanComplete)], up to the next
    [await]. *)
Definition loop_head (s : State) : State :=
  match loadQueue s with
  | [] =>
      if scanComplete s
      then set_worker Idle (set_loaderRunning false s)
      else set_worker Pausing (snd (liftW (sleep 100) s))
  | chunk :: rest =>
      (* [loadQueue.shift()], then attempt 0 of the fetch is issued *)
      set_worker (Reading chunk 0) (set_loadQueue rest s)
  end.

(** The call [loadWorker()], up to its first [await]. *)
Definition loadWorker (s : State) : State :=
  if loaderRunning s then s else loop_head (set_loaderRunning true s).

(** The worker resumes from the [await] it is suspended on and runs to the
    next one.  It fetches with [fetchWithRetry(..., 10, 1000)]. *)
Definition worker_resume (s : State) : State :=
  match worker s with
  | Idle => s
  | Pausing => loop_head s
  | Reading chunk i =>
      match liftW (readContract env (q_address chunk)) s with
      | (Return data, s1) =>
          let s2 := set_loadResults (<[q_address chunk := data]> (loadResults s1)) s1 in
          set_worker Pausing (snd (liftW (sleep 200) s2))
      | (Throw err, s1) =>
          if (i =? 10 - 1)%Z then
            (* [fetchWithRetry] rethrows; the handler of [loadWorker] runs *)
            let s2 := snd (logS (sign_warning +:+ " Retry failed: "
                                   +:+ substring 0 10 (q_address chunk) +:+ "...") s1) in
            let s3 := set_loadQueue (loadQueue s2 ++ [chunk]) s2 in
            set_worker Pausing (snd (liftW (sleep 200) s3))
          else
            match liftW (random500 env) s1 with
            | (Return r, s2) =>
                let delay := (1000 * 2 ^ i + r)%Z in
                set_worker (BackingOff chunk i) (snd (liftW (sleep (Z.min delay 10000)) s2))
            | (Throw _, s2) => s2
            end
      end
  | BackingOff chunk i => set_worker (Reading chunk (i + 1)) s
  end.

(** *** The main task *)

(** The main task suspends: the worker takes its turns, time passes. *)
Definition suspend : M State unit :=
  fun s =>
    let n := yields s in
    let s1 := Nat.iter (steps sched n) worker_resume s in
    (Return tt, set_clock (now s1 + Z.of_nat (lag sched n)) (S n) s1).

(** [await contract.read()] on the main task. *)
Definition awaitRead (a : Address) : M State bytes :=
  suspend ;; liftW (readContract env a).

(** [await new Promise(r => setTimeout(r, ms))] on the main task. *)
Definition awaitSleep (ms : Z) : M State unit :=
  liftW (sleep ms) ;;
  modify (fun s => set_clock (now s + ms) (yields s) s) ;;
  suspend.

Definition addChunkToGrid : M State unit :=
  if chunkGrid then modify (fun s => set_scannedChunks (S (scannedChunks s)) s)
  else ret tt.

(** The closing [results.map] of [collectLeafChunks]. *)
Fixpoint fix_offsets (currentOffset : nat) (results : list LeafChunk) : list LeafChunk :=
  match results with
  | [] => []
  | chunk :: rest =>
      {| c_address := c_address chunk; c_offset := currentOffset; c_size := c_size chunk |}
        :: fix_offsets (currentOffset + c_size chunk) rest
  end.

Fixpoint collectLeafChunks (depth : nat) (address : Address) (offset : nat)
  : M State (list LeafChunk) :=
  let* dataHex :=
    try_catch
      (fetchWithRetry awaitSleep (liftW (random500 env)) (awaitRead address) 10 1000)
      (fun e =>
         logS (sign_cross +:+ " Scan failed: " +:+ substring 0 10 address +:+ "...") ;;
         throw e) in
  let* data := defined dataHex in
  match depth with
  | 0 =>
      let* index := gets scannedChunks in
      addChunkToGrid ;;
      modify (fun s =>
                set_loadQueue
                  (loadQueue s ++ [{| q_address := address; q_offset := offset;
                                      q_size := length data; q_index := index |}]) s) ;;
      modify loadWorker ;;
      ret [{| c_address := address; c_offset := offset; c_size := length data |}]
  | S d =>
      let children := childAddrs data in
      let* results :=
        for_of (fun results '(i, child) =>
                  let* childResults :=
                    try_catch
                      (collectLeafChunks d child 0)
                      (fun e =>
                         logS (sign_warning +:+ " Retrying child " +:+ dec (i + 1)
                                 +:+ "/" +:+ dec (length children) +:+ "...") ;;
                         awaitSleep 2000 ;;
                         collectLeafChunks d child 0) in
                  awaitSleep 300 ;;
                  ret (results ++ childResults))
               (imap (fun i child => (i, child)) children) [] in
      ret (fix_offsets offset results)
  end.

(** The completion poll of [fetchTree]:
[[
    while (loadResults.size < leafChunks.length) {
        if (Date.now() - start > maxWait) throw new Error(...);
        await new Promise(r => setTimeout(r, 500));
    }
]]
    [None] stands for a loop still running after [fuel] rounds. *)
Fixpoint poll (fuel : nat) (start maxWait : Z) (total : nat) : M State (option unit) :=
  let* size := gets (fun s => size (loadResults s)) in
  if size <? total then
    let* t := gets now in
    if (t - start >? maxWait)%Z then
      throw (Error ("Timeout: " +:+ dec size +:+ "/" +:+ dec total))
    else
      match fuel with
      | 0 => ret None
      | S fuel' => awaitSleep 500 ;; poll fuel' start maxWait total
      end
  else ret (Some tt).

(** Offsets are recomputed from the sizes of the loaded payloads, and the
    payloads are written at their offsets. *)
Definition assemble (leafChunks : list LeafChunk) : M State bytes :=
  let* placed :=
    for_of (fun '(acc, currentOffset) chunk =>
              let* tbl := gets loadResults in
              let* data := defined (tbl !! c_address chunk) in
              ret (acc ++ [{| c_address := c_address chunk; c_offset := currentOffset;
                              c_size := length data |}],
                   currentOffset + length data))
           leafChunks ([], 0) in
  let leafChunks := fst placed in
  let totalSize := foldl (fun sum c => sum + c_size c) 0 leafChunks in
  for_of (fun finalData chunk =>
            let* tbl := gets loadResults in
            let* data := defined (tbl !! c_address chunk) in
            array_set finalData data (c_offset chunk))
         leafChunks (zeros totalSize).

(** [fetchTree(provider, rootChunk, depth)]; [fuel] bounds the poll. *)
Definition fetchTree (fuel : nat) (rootChunk : Address) (depth : nat)
  : M State (option bytes) :=
  modify (set_scanComplete false) ;;
  logS (sign_clipboard +:+ " Starting scan + load...") ;;
  let* leafChunks := collectLeafChunks depth rootChunk 0 in
  modify (set_scanComplete true) ;;
  modify (set_expectedTotal (length leafChunks)) ;;
  logS (sign_check +:+ " Scan complete: " +:+ dec (length leafChunks) +:+ " chunks") ;;
  let maxWait := 120000%Z in
  let* start := gets now in
  let* done := poll fuel start maxWait (length leafChunks) in
  match done with
  | None => ret None
  | Some _ =>
      logS (sign_check +:+ " All " +:+ dec (length leafChunks) +:+ " chunks loaded!") ;;
      let* finalData := assemble leafChunks in
      ret (Some finalData)
  end.
End Par.
End Par.

(** ** The entry point of the overlapped loader page *)
Module ParPage.
Section ParPage.
Context (env : Env) (sched : Par.Sched) (chunkGrid : bool).

(** What [init()] leaves on screen: the phase line [ERROR: NO ADDRESS], or a
    page. *)
Inductive Screen :=
| NoAddress
| Shows (p : Page).

(** [await master.getCurrentSiteInfo()] on the main task. *)
Definition awaitSiteInfo (master : Address) : M Par.State SiteInfo :=
  Par.suspend env sched ;; Par.liftW (getCurrentSiteInfo env master).

(** [init()]; [masterAddress] is [params.get('master')], [None] for [null].
    [Math.ceil(Number(totalSize) / 3000)] is exact on the integers a
    [Number] holds.  [None] stands for a poll still running after [fuel]
    rounds. *)
Definition init (fuel : nat) (masterAddress : option Address) : M Par.State (option Screen) :=
  match masterAddress with
  | None | Some EmptyString => ret (Some NoAddress)
  | Some masterAddress =>
      try_catch
        (let* info := awaitSiteInfo masterAddress in
         Par.logS ("Root: " +:+ substring 0 10 (rootChunk info) +:+ "..., Depth: "
                     +:+ dec (depth info)) ;;
         Par.modify (Par.set_expectedTotal ((totalSize info + 2999) / 3000)) ;;
         let* htmlData := Par.fetchTree env sched chunkGrid fuel (rootChunk info) (depth info) in
         match htmlData with
         | None => ret None
         | Some htmlData => ret (Some (Shows (Rendered (decode_utf8 htmlData))))
         end)
        (fun err =>
           Par.logS (Par.sign_cross +:+ " Error: " +:+ message env err) ;;
           ret (Some (Shows (ErrorShown err))))
  end.
End ParPage.
End ParPage.

(** ** [OnChainLoader], the flat loader of [dist/onchain_loader.js]

    The master contract answers [getCurrentChunkCount] and
    [resolveCurrentChunk(i)], a page contract answers [read] with a string;
    [t] numbers the reads as in [Env].  The contracts are built from the
    default ABIs. *)
Module Flat.

Record Chain := {
  chunkCount : nat -> Address -> option nat;
  resolveChunk : nat -> Address -> nat -> option Address;
  pageText : nat -> Address -> option string;
  reject_message : nat -> string
}.

(** What [load] does to the page, as far as it is followed here: the text
    last assigned to the status element once [load] has created it (the
    element object keeps that text when [document.open()] takes it off the
    page), what [document.write] received, what [load] assigned to
    [document.body.innerHTML], and what went to [console.error].  The rest
    of the body, the status element appended to it included, is not
    followed. *)
Record Dom := {
  world : World;
  statusText : option string;
  written : option string;
  bodyHTML : option string;
  console : list Exn
}.

Definition dom0 : Dom :=
  {| world := world0; statusText := None; written := None; bodyHTML := None; console := [] |}.

Record Config := {
  masterAddress : option string;
  rpcUrl : option string;
  onProgress : option (nat -> nat -> M Dom unit);
  onError : option (Exn -> M Dom unit);
  showStatus : bool
}.

(** [!x] is false for a non-empty string only. *)
Definition truthy (x : option string) : bool :=
  match x with
  | Some (String _ _) => true
  | _ => false
  end.

Definition call {A} (answer : nat -> option A) (a : Address) : M Dom A :=
  fun d =>
    let w := world d in
    let d' ok := {| world := {| tick := S (tick w); draws := draws w;
                                 trace := EvRead a ok :: trace w |};
                    statusText := statusText d; written := written d;
                    bodyHTML := bodyHTML d; console := console d |} in
    match answer (tick w) with
    | Some r => (Return r, d' true)
    | None => (Throw (RpcError a (tick w)), d' false)
    end.

Section Flat.
Context (chain : Chain).

Definition getCurrentChunkCount (master : Address) : M Dom nat :=
  call (fun t => chunkCount chain t master) master.

Definition resolveCurrentChunk (master : Address) (i : nat) : M Dom Address :=
  call (fun t => resolveChunk chain t master i) master.

Definition read (page : Address) : M Dom string :=
  call (fun t => pageText chain t page) page.

Definition message (e : Exn) : string :=
  match e with
  | RpcError _ t => reject_message chain t
  | TypeError => "Cannot read properties of undefined"
  | RangeError => "offset is out of bounds"
  | Error msg => msg
  end.

(** [_createStatusElement()]. *)
Definition _createStatusElement : M Dom unit :=
  fun d => (Return tt,
            {| world := world d; statusText := Some "Initializing..."; written := written d;
               bodyHTML := bodyHTML d; console := console d |}).

(** [if (statusElement) statusElement.textContent = text]. *)
Definition setStatus (statusElement : bool) (text : string) : M Dom unit :=
  fun d => (Return tt,
            if statusElement
            then {| world := world d; statusText := Some text; written := written d;
                    bodyHTML := bodyHTML d; console := console d |}
            else d).

(** [document.open(); document.write(fullSource); document.close()]. *)
Definition write (fullSource : string) : M Dom unit :=
  fun d => (Return tt,
            {| world := world d; statusText := statusText d; written := Some fullSource;
               bodyHTML := bodyHTML d; console := console d |}).

Definition console_error (err : Exn) : M Dom unit :=
  fun d => (Return tt,
            {| world := world d; statusText := statusText d; written := written d;
               bodyHTML := bodyHTML d; console := console d ++ [err] |}).

Definition double_quote : string := String (ascii_of_nat 34) EmptyString.

Definition error_box (msg : string) : string :=
  "<div style=" +:+ double_quote +:+ "color:#ff003c;font-family:monospace;padding:20px"
    +:+ double_quote +:+ ">Error: " +:+ msg +:+ "</div>".

Definition set_body (html : string) : M Dom unit :=
  fun d => (Return tt,
            {| world := world d; statusText := statusText d; written := written d;
               bodyHTML := Some html; console := console d |}).

(** [load(config)]. *)
Definition load (config : Config) : M Dom unit :=
  if negb (truthy (masterAddress config)) || negb (truthy (rpcUrl config)) then
    throw (Error "masterAddress and rpcUrl are required")
  else
    let master := default EmptyString (masterAddress config) in
    let statusElement := showStatus config in
    (if showStatus config then _createStatusElement else ret tt) ;;
    try_catch
      (let* count := getCurrentChunkCount master in
       if count =? 0 then throw (Error "No data found on chain")
       else
         let* fullSource :=
           for_of (fun fullSource i =>
                     setStatus statusElement
                       ("Loading " +:+ dec (i + 1) +:+ "/" +:+ dec count +:+ "...") ;;
                     match onProgress config with
                     | Some f => f (i + 1) count
                     | None => ret tt
                     end ;;
                     let* chunkAddr := resolveCurrentChunk master i in
                     let* text := read chunkAddr in
                     ret (fullSource +:+ text))
                  (seq 0 count) EmptyString in
         write fullSource)
      (fun err =>
         console_error err ;;
         match onError config with
         | Some f => f err
         | None => set_body (error_box (message err))
         end).
End Flat.
End Flat.

(** ** The sequential loader page with its display

    The page's functions once more, this time with the grid of chunk cells,
    the counters and the phase line they update.  [updateDonutChart] only
    renders the counters, in floating point, and is left out. *)
Module SeqUi.

Record Ui := {
  chunkCells : list string;
  gridColumns : nat;
  scannedChunks : nat;
  loadedChunks : nat;
  bytesLoaded : nat;
  expectedTotal : nat;
  isRetrying : bool;
  phaseText : string;
  bytesTotalText : string
}.

(** The script's variables as declared; the two texts come from the page's
    markup, empty here. *)
Definition ui0 : Ui :=
  {| chunkCells := []; gridColumns := 0; scannedChunks := 0; loadedChunks := 0;
     bytesLoaded := 0; expectedTotal := 0; isRetrying := false;
     phaseText := EmptyString; bytesTotalText := EmptyString |}.

Definition set_chunkCells (v : list string) (u : Ui) : Ui :=
  {| chunkCells := v; gridColumns := gridColumns u; scannedChunks := scannedChunks u;
     loadedChunks := loadedChunks u; bytesLoaded := bytesLoaded u;
     expectedTotal := expectedTotal u; isRetrying := isRetrying u;
     phaseText := phaseText u; bytesTotalText := bytesTotalText u |}.
Definition set_gridColumns (v : nat) (u : Ui) : Ui :=
  {| chunkCells := chunkCells u; gridColumns := v; scannedChunks := scannedChunks u;
     loadedChunks := loadedChunks u; bytesLoaded := bytesLoaded u;
     expectedTotal := expectedTotal u; isRetrying := isRetrying u;
     phaseText := phaseText u; bytesTotalText := bytesTotalText u |}.
Definition set_scannedChunks (v : nat) (u : Ui) : Ui :=
  {| chunkCells := chunkCells u; gridColumns := gridColumns u; scannedChunks := v;
     loadedChunks := loadedChunks u; bytesLoaded := bytesLoaded u;
     expectedTotal := expectedTotal u; isRetrying := isRetrying u;
     phaseText := phaseText u; bytesTotalText := bytesTotalText u |}.
Definition set_loadedChunks (v : nat) (u : Ui) : Ui :=
  {| chunkCells := chunkCells u; gridColumns := gridColumns u;
     scannedChunks := scannedChunks u; loadedChunks := v; bytesLoaded := bytesLoaded u;
     expectedTotal := expectedTotal u; isRetrying := isRetrying u;
     phaseText := phaseText u; bytesTotalText := bytesTotalText u |}.
Definition set_bytesLoaded (v : nat) (u : Ui) : Ui :=
  {| chunkCells := chunkCells u; gridColumns := gridColumns u;
     scannedChunks := scannedChunks u; loadedChunks := loadedChunks u; bytesLoaded := v;
     expectedTotal := expectedTotal u; isRetrying := isRetrying u;
     phaseText := phaseText u; bytesTotalText := bytesTotalText u |}.
Definition set_expectedTotal (v : nat) (u : Ui) : Ui :=
  {| chunkCells := chunkCells u; gridColumns := gridColumns u;
     scannedChunks := scannedChunks u; loadedChunks := loadedChunks u;
     bytesLoaded := bytesLoaded u; expectedTotal := v; isRetrying := isRetrying u;
     phaseText := phaseText u; bytesTotalText := bytesTotalText u |}.
Definition set_isRetrying (v : bool) (u : Ui) : Ui :=
  {| chunkCells := chunkCells u; gridColumns := gridColumns u;
     scannedChunks := scannedChunks u; loadedChunks := loadedChunks u;
     bytesLoaded := bytesLoaded u; expectedTotal := expectedTotal u; isRetrying := v;
     phaseText := phaseText u; bytesTotalText := bytesTotalText u |}.
Definition set_phaseText (v : string) (u : Ui) : Ui :=
  {| chunkCells := chunkCells u; gridColumns := gridColumns u;
     scannedChunks := scannedChunks u; loadedChunks := loadedChunks u;
     bytesLoaded := bytesLoaded u; expectedTotal := expectedTotal u;
     isRetrying := isRetrying u; phaseText := v; bytesTotalText := bytesTotalText u |}.
Definition set_bytesTotalText (v : string) (u : Ui) : Ui :=
  {| chunkCells := chunkCells u; gridColumns := gridColumns u;
     scannedChunks := scannedChunks u; loadedChunks := loadedChunks u;
     bytesLoaded := bytesLoaded u; expectedTotal := expectedTotal u;
     isRetrying := isRetrying u; phaseText := phaseText u; bytesTotalText := v |}.

(** A cell of the grid is held by its [className]. *)
Record St := { world : World; ui : Ui }.

Definition liftW {A} (m : M World A) : M St A :=
  fun s => let '(r, w) := m (world s) in (r, {| world := w; ui := ui s |}).

Definition modifyUi (f : Ui -> Ui) : M St unit :=
  fun s => (Return tt, {| world := world s; ui := f (ui s) |}).

Definition getsUi {A} (f : Ui -> A) : M St A := fun s => (Return (f (ui s)), s).

(** [Math.ceil(Math.sqrt(total))]: the square root of a [Number] is correctly
    rounded, so this is exact below 2^52; [initChunkGrid] caps it at 10, which
    is reached from 82 cells on. *)
Definition ceil_sqrt (n : nat) : nat :=
  if Nat.sqrt n * Nat.sqrt n =? n then Nat.sqrt n else S (Nat.sqrt n).

(** The most elements an array holds. *)
Definition array_limit : N := 4294967295%N.

(** [if (index >= 0 && index < chunkCells.length) chunkCells[index].className = c]. *)
Definition set_class (index : nat) (c : string) (cells : list string) : list string :=
  if index <? length cells then <[index := c]> cells else cells.

Section SeqUi.
Context (env : Env) (index_euc_kr : N -> option N) (formatBytes : nat -> string).
(** Whether the page has the elements [chunkGrid], [phaseText] and
    [bytesTotal]. *)
Context (chunkGrid phaseTextDisplay bytesTotalDisplay : bool).

Definition logU (msg : string) : M St unit := liftW (log msg).

Definition setPhase (phase : string) : M St unit :=
  if phaseTextDisplay then modifyUi (set_phaseText phase) else ret tt.

Definition setBytesTotal (n : nat) : M St unit :=
  if bytesTotalDisplay then modifyUi (set_bytesTotalText (formatBytes n)) else ret tt.

(** [initChunkGrid(total)].  An array holds at most 2^32 - 1 elements: the
    [chunkCells.push(cell)] that would make it longer raises the engine's
    [RangeError] for an invalid array length, with the cells pushed so far in
    place and the rest of the loop not run.  The page reads no more of an
    error than its message, which [Error] carries.  (An engine short of
    memory gives up earlier.) *)
Definition initChunkGrid (total : nat) : M St unit :=
  if chunkGrid then
    let cols := Nat.min 10 (ceil_sqrt total) in
    if (N.of_nat total <=? array_limit)%N then
      modifyUi (fun u =>
                  set_gridColumns cols
                    (set_chunkCells (replicate total "chunk chunk-pending") u))
    else
      modifyUi (fun u =>
                  set_gridColumns cols
                    (set_chunkCells
                       (replicate (N.to_nat array_limit) "chunk chunk-pending") u)) ;;
      throw (Error "Invalid array length")
  else ret tt.

Definition updateChunkScanned (index : nat) : M St unit :=
  modifyUi (fun u =>
              set_scannedChunks (S (scannedChunks u))
                (set_chunkCells (set_class index "chunk chunk-scanned" (chunkCells u)) u)).

Definition updateChunkLoading (index : nat) : M St unit :=
  modifyUi (fun u => set_chunkCells (set_class index "chunk chunk-loading" (chunkCells u)) u).

Definition updateChunkLoaded (index : nat) : M St unit :=
  modifyUi (fun u =>
              set_loadedChunks (S (loadedChunks u))
                (set_chunkCells (set_class index "chunk chunk-loaded" (chunkCells u)) u)).

Definition updateChunkFailed (index : nat) : M St unit :=
  modifyUi (fun u => set_chunkCells (set_class index "chunk chunk-failed" (chunkCells u)) u).

Definition updateChunkRetrying (index : nat) : M St unit :=
  modifyUi (fun u => set_chunkCells (set_class index "chunk chunk-loading" (chunkCells u)) u).

Definition fetchChunkData (address : Address) (retries : Z) : M St (option bytes) :=
  liftW (Seq.fetchChunkData env address retries).

Fixpoint traverseNode (nodeDepth : nat) (st : list Leaf * nat) (address : Address)
  : M St (list Leaf * nat) :=
  match nodeDepth with
  | 0 =>
      let '(leaves, currentIndex) := st in
      let leaves := leaves ++ [{| l_index := currentIndex; l_address := address |}] in
      updateChunkScanned (length leaves - 1) ;;
      ret (leaves, S currentIndex)
  | S d =>
      try_catch
        (let* data := fetchChunkData address 3 in
         let* data := defined data in
         let childAddrs := childAddrs data in
         setPhase ("SCAN DEPTH " +:+ dec nodeDepth +:+ ": "
                     +:+ dec (length childAddrs) +:+ " nodes") ;;
         for_of (traverseNode d) childAddrs st)
        (fun err =>
           logU ("Failed to traverse node: " +:+ substring 0 10 address +:+ "...") ;;
           throw err)
  end.

Definition collectLeafAddresses (rootChunk : Address) (depth : nat) : M St (list Leaf) :=
  let* r := traverseNode depth ([], 0) rootChunk in
  ret (fst r).

(** What follows a fetch inside the [try] of both load loops:
    [chunks.push], [bytesLoaded += data.length], [updateChunkLoaded]. *)
Definition loaded (leaf : Leaf) (data : option bytes) (chunks : list Chunk)
  : M St (list Chunk) :=
  match data with
  | Some d =>
      modifyUi (fun u => set_bytesLoaded (bytesLoaded u + length d) u) ;;
      updateChunkLoaded (l_index leaf) ;;
      ret (chunks ++ [{| index := l_index leaf; data := data |}])
  | None => throw TypeError
  end.

Definition loadChunksSequentially (leaves : list Leaf) : M St (list Chunk * list Leaf) :=
  for_of (fun '(chunks, failed) '(i, leaf) =>
            setPhase ("LOADING " +:+ dec (i + 1) +:+ " / " +:+ dec (length leaves)) ;;
            updateChunkLoading (l_index leaf) ;;
            let failure chunks err :=
              updateChunkFailed (l_index leaf) ;;
              logU ("Failed chunk " +:+ dec (i + 1) +:+ ": " +:+ message env err) ;;
              ret (chunks, failed ++ [leaf]) in
            let* r := try_catch
                        (let* data := fetchChunkData (l_address leaf) 2 in ret (inl data))
                        (fun err => ret (inr err)) in
            match r with
            | inl data =>
                try_catch
                  (let* chunks := loaded leaf data chunks in ret (chunks, failed))
                  (failure (chunks ++ [{| index := l_index leaf; data := data |}]))
            | inr err => failure chunks err
            end)
         (imap (fun i leaf => (i, leaf)) leaves) ([], []).

Definition retry_round (toRetry : list Leaf) (chunks : list Chunk)
  : M St (list Chunk * list Leaf) :=
  for_of (fun '(chunks, stillFailed) leaf =>
            updateChunkRetrying (l_index leaf) ;;
            let failure chunks :=
              updateChunkFailed (l_index leaf) ;;
              ret (chunks, stillFailed ++ [leaf]) in
            let* r := try_catch
                        (let* data := fetchChunkData (l_address leaf) 3 in ret (inl data))
                        (fun err => ret (inr err)) in
            let* r :=
              match r with
              | inl data =>
                  try_catch
                    (let* chunks := loaded leaf data chunks in ret (chunks, stillFailed))
                    (fun _ => failure (chunks ++ [{| index := l_index leaf; data := data |}]))
              | inr _ => failure chunks
              end in
            liftW (sleep 100) ;;
            ret r)
         toRetry (chunks, []).

Fixpoint retry_rounds (left retryRound : nat) (toRetry : list Leaf) (chunks : list Chunk)
  : M St (list Chunk * list Leaf) :=
  match toRetry, left with
  | [], _ | _, 0 => ret (chunks, toRetry)
  | _ :: _, S left' =>
      let retryRound := S retryRound in
      setPhase ("RETRY " +:+ dec retryRound +:+ ": " +:+ dec (length toRetry) +:+ " chunks") ;;
      logU ("Retry round " +:+ dec retryRound +:+ ": " +:+ dec (length toRetry) +:+ " chunks") ;;
      liftW (sleep (500 * Z.of_nat retryRound)) ;;
      let* r := retry_round toRetry chunks in
      retry_rounds left' retryRound (snd r) (fst r)
  end.

Definition retryFailedChunks (failed : list Leaf) (chunks : list Chunk)
  : M St (list Chunk * list Leaf) :=
  match failed with
  | [] => ret (chunks, [])
  | _ :: _ =>
      modifyUi (set_isRetrying true) ;;
      let* r := retry_rounds 5 0 failed chunks in
      modifyUi (set_isRetrying false) ;;
      match snd r with
      | [] => ret r
      | _ :: _ =>
          logU (dec (length (snd r)) +:+ " chunks permanently failed") ;;
          ret r
      end
  end.

Definition fetchTreeSequential_load (rootChunk : Address) (depth : nat)
  : M St (list Chunk * list Leaf) :=
  let* total := getsUi expectedTotal in
  initChunkGrid total ;;
  logU "Starting sequential fast load..." ;;
  setPhase "PHASE 1: SCANNING" ;;
  logU "Phase 1: Collecting chunk addresses..." ;;
  let* leaves := collectLeafAddresses rootChunk depth in
  logU ("Found " +:+ dec (length leaves) +:+ " leaf chunks") ;;
  setPhase "PHASE 2: LOADING" ;;
  logU "Phase 2: Sequential loading..." ;;
  let* r := loadChunksSequentially leaves in
  logU ("Loaded: " +:+ dec (length (fst r)) +:+ ", Failed: " +:+ dec (length (snd r))) ;;
  match snd r with
  | [] => ret r
  | _ :: _ =>
      setPhase "PHASE 3: RETRY" ;;
      logU "Phase 3: Retrying failed chunks..." ;;
      retryFailedChunks (snd r) (fst r)
  end.

Definition fetchTreeSequential (rootChunk : Address) (depth totalSize : nat) : M St bytes :=
  let* r := fetchTreeSequential_load rootChunk depth in
  let chunks := sort_by_index (fst r) in
  setPhase "ASSEMBLING" ;;
  let* finalData := assemble_sorted chunks in
  setBytesTotal (length finalData) ;;
  logU ("Complete! " +:+ dec (length chunks) +:+ " chunks, "
          +:+ formatBytes (length finalData)) ;;
  ret finalData.

(** What [init()] leaves on screen. *)
Inductive Screen :=
| NoAddress
| Shows (p : Page).

(** [init()]; [masterAddress] is [params.get('master')], [None] for [null].
    [Math.ceil(Number(totalSize) / CHUNK_SIZE)] is exact on the integers a
    [Number] holds. *)
Definition init (masterAddress : option Address) : M St Screen :=
  match masterAddress with
  | None | Some EmptyString => setPhase "ERROR: NO ADDRESS" ;; ret NoAddress
  | Some masterAddress =>
      try_catch
        (setPhase "CONNECTING" ;;
         setPhase "READING CONTRACT" ;;
         let* info := liftW (getCurrentSiteInfo env masterAddress) in
         logU ("Root: " +:+ substring 0 10 (rootChunk info) +:+ "..., Depth: "
                 +:+ dec (depth info)) ;;
         modifyUi (set_expectedTotal ((totalSize info + 2999) / 3000)) ;;
         setBytesTotal (totalSize info) ;;
         let* htmlData := fetchTreeSequential (rootChunk info) (depth info) (totalSize info) in
         setPhase "RENDERING" ;;
         let asciiPreview := decode_ascii (slice htmlData 0 2000) in
         match charset_match asciiPreview with
         | Some cap =>
             logU ("Encoding detected: " +:+ Seq.string_of_units cap) ;;
             ret (Shows (Rendered (decode_euc_kr index_euc_kr htmlData)))
         | None => ret (Shows (Rendered (decode_utf8 htmlData)))
         end)
        (fun err =>
           logU ("Error: " +:+ message env err) ;;
           setPhase "ERROR" ;;
           ret (Shows (ErrorShown err)))
  end.
End SeqUi.
End SeqUi.

(** * Vocabulary of the properties, and sample endpoints *)

(** ** Retry traces *)

(** The events, oldest first, of [k] failed attempts on [a], attempt [j]
    being followed by a wait of [delay j]. *)
Fixpoint failed_attempts (a : Address) (delay : nat -> Z) (k : nat) : list Event :=
  match k with
  | 0 => []
  | S k' => EvRead a false :: EvSleep (delay 0) :: failed_attempts a (fun j => delay (S j)) k'
  end.

Fixpoint sum_delays (delay : nat -> Z) (k : nat) : Z :=
  match k with
  | 0 => 0
  | S k' => delay 0 + sum_delays (fun j => delay (S j)) k'
  end.

(** Backoff of [_fetchChunkData] and [fetchChunkData] after attempt [j]. *)
Definition short_backoff (j : nat) : Z := Z.min (200 * 2 ^ Z.of_nat j) 2000.

(** Backoff of [fetchWithRetry] after attempt [j], when [d] numbers were
    drawn before the call. *)
Definition jitter_backoff (env : Env) (baseDelay : Z) (d j : nat) : Z :=
  Z.min (baseDelay * 2 ^ Z.of_nat j + Z.of_nat (jitter env (d + j) mod 500)) 10000.

Definition jitter_backoff_at (env : Env) (baseDelay : Z) (d i : nat) : Z :=
  Z.min (baseDelay * 2 ^ Z.of_nat i + Z.of_nat (jitter env d mod 500)) 10000.

Section RetryAlone.
Context (env : Env).

(** [fetchWithRetry] run on its own: the timer is [sleep], the thunk a read
    of [a]. *)
Definition fetchWithRetry_read (a : Address) (retries baseDelay : Z) : M World (option bytes) :=
  Par.fetchWithRetry sleep (random500 env) (readContract env a) retries baseDelay.

End RetryAlone.

(** Concrete endpoints used to exercise the statements. *)
Module Examples.
(** An endpoint that rejects the first two reads and then serves one byte
    at every address. *)
Definition flaky : Env :=
  {| rpc := fun t _ => if t <? 2 then None else Some [x41];
     siteInfo := fun _ _ => None;
     rpc_message := fun _ => "execution reverted";
     jitter := fun n => 7 * n + 3 |}.

End Examples.

(** ** Assembly *)

Definition chunk_of (p : nat * bytes) : Chunk := {| index := p.1; data := Some p.2 |}.

Definition index_lt (c c' : Chunk) : Prop := index c < index c'.

(** ** Trees of chunks *)

#[local] Set Warnings "-register-all".
Inductive Tree :=
| TLeaf (a : Address)
| TNode (a : Address) (children : list Tree).

Definition root (t : Tree) : Address :=
  match t with TLeaf a | TNode a _ => a end.

(** Leaf addresses, depth first and left to right. *)
Fixpoint leaves_of (t : Tree) : list Address :=
  match t with
  | TLeaf a => [a]
  | TNode _ children => concat (map leaves_of children)
  end.

(** [serves payload d t]: [t] has all its leaves at depth [d], and the payload
    of each internal node is the concatenation of its children's addresses. *)
Fixpoint serves (payload : Address -> option bytes) (d : nat) (t : Tree) : Prop :=
  match d, t with
  | 0, TLeaf _ => True
  | S d', TNode a children =>
      (exists data, payload a = Some data /\ childAddrs data = root <$> children)
      /\ Forall (serves payload d') children
  | _, _ => False
  end.

(** Every read either rejects or delivers the payload of the address. *)
Definition consistent (env : Env) (payload : Address -> option bytes) : Prop :=
  forall t a, rpc env t a = None \/ rpc env t a = payload a.

(** Every read delivers the payload of the address, and rejects where there
    is none. *)
Definition steady (env : Env) (payload : Address -> option bytes) : Prop :=
  forall t a, rpc env t a = payload a.

(** The leaves as [collectLeafAddresses] records them, numbered from [i0]. *)
Definition numbered (i0 : nat) (addrs : list Address) : list Leaf :=
  imap (fun i a => {| l_index := i0 + i; l_address := a |}) addrs.

(** A site of depth 2 with three leaves, two under the first child of the
    root and one under the second. *)
Module SampleTree.
Definition addr (b : byte) : Address := toHex (replicate 20 b).

Definition tree : Tree :=
  TNode "0xRoot"
    [TNode (addr x01) [TLeaf (addr x11); TLeaf (addr x12)];
     TNode (addr x02) [TLeaf (addr x21)]].

Definition payload (a : Address) : option bytes :=
  if String.eqb a "0xRoot" then Some (replicate 20 x01 ++ replicate 20 x02)
  else if String.eqb a (addr x01) then Some (replicate 20 x11 ++ replicate 20 x12)
  else if String.eqb a (addr x02) then Some (replicate 20 x21)
  else if String.eqb a (addr x11) then Some [x41; x42]
  else if String.eqb a (addr x12) then Some [x43; x44]
  else if String.eqb a (addr x21) then Some [x45; x46]
  else None.

Definition env : Env :=
  {| rpc := fun _ a => payload a;
     siteInfo := fun _ _ => Some {| rootChunk := "0xRoot"; depth := 2; totalSize := 6 |};
     rpc_message := fun _ => "execution reverted";
     jitter := fun _ => 0 |}.

End SampleTree.

(** A root whose payload is 25 bytes long, at depth 1. *)
Module Malformed.
Definition payload25 : bytes := replicate 20 x01 ++ replicate 5 x02.

Definition payload (a : Address) : option bytes :=
  if String.eqb a "0xRoot" then Some payload25 else None.

Definition env : Env :=
  {| rpc := fun _ a => payload a;
     siteInfo := fun _ _ => Some {| rootChunk := "0xRoot"; depth := 1; totalSize := 25 |};
     rpc_message := fun _ => "execution reverted";
     jitter := fun _ => 0 |}.

Definition tree : Tree :=
  TNode "0xRoot" [TLeaf (toHex (replicate 20 x01)); TLeaf (toHex (replicate 5 x02))].

End Malformed.

Section ScanPath.
Context (env : Env) {Acc : Type}.
Context (trav : nat -> Acc -> Address -> M World Acc).

(** [visits d acc a w d' a' w']: the traversal of node [a] at depth [d],
    started in world [w], gets to node [a'] at depth [d'] in world [w']. *)
Inductive visits : nat -> Acc -> Address -> World -> nat -> Address -> World -> Prop :=
| visits_here d acc a w : visits d acc a w d a w
| visits_child d acc a w data w1 pre c post acc2 w2 d' a' w' :
    Lib._fetchChunkData env a 3 w = (Return (Some data), w1) ->
    childAddrs data = pre ++ c :: post ->
    for_of (trav d) pre acc w1 = (Return acc2, w2) ->
    visits d acc2 c w2 d' a' w' ->
    visits (S d) acc a w d' a' w'.

End ScanPath.

(** The sample site with its second internal node unreadable. *)
Module DeadNode.
Definition env : Env :=
  {| rpc := fun _ a => if String.eqb a (SampleTree.addr x02) then None
                       else SampleTree.payload a;
     siteInfo := fun _ _ => Some {| rootChunk := "0xRoot"; depth := 2; totalSize := 6 |};
     rpc_message := fun _ => "execution reverted";
     jitter := fun _ => 0 |}.

End DeadNode.

(** ** Charset declarations *)

(** Two runs of code units that the [i] flag does not tell apart. *)
Definition ci_eq (m pat : list N) : Prop := canonicalize <$> m = canonicalize <$> pat.

(** The text declares a regional charset: somewhere it holds [charset=], an
    optional quote and one of the aliases, in any letter case. *)
Definition declares_charset (text : list N) : Prop :=
  exists pre mid post quote alias,
    text = pre ++ mid ++ post /\
    quote ∈ [[]; [34%N]; [39%N]] /\
    alias ∈ charset_aliases /\
    ci_eq mid (code_units "charset=" ++ quote ++ code_units alias).

(** The same ASCII letter in either case; a function of its own, apart from
    the matcher's: it folds to lower case. *)
Definition fold_case (x : N) : N :=
  if ((65 <=? x) && (x <=? 90))%N then (x + 32)%N else x.

(** Two bytes that read as the same character when letter case is ignored. *)
Definition same_letter (b c : byte) : Prop :=
  fold_case (Byte.to_N b) = fold_case (Byte.to_N c).

(** The buffer declares a regional charset: its first 2000 bytes hold, as
    ASCII and in any letter case, [charset=], then nothing, a double quote or
    a single quote, then [euc-kr], [cp949] or [ks_c_5601-1987]. *)
Definition declares_regional_charset (data : bytes) : Prop :=
  exists pre mid post quote alias,
    take 2000 data = pre ++ mid ++ post /\
    quote ∈ [[]; [x22]; [x27]] /\
    alias ∈ ["euc-kr"; "cp949"; "ks_c_5601-1987"] /\
    Forall2 same_letter mid
      (list_byte_of_string "charset=" ++ quote ++ list_byte_of_string alias).

(** ** Traces of the phased load *)

(** The world after [n] more reads and the events [evs], oldest first. *)
Definition advance (w : World) (n : nat) (evs : list Event) : World :=
  {| tick := tick w + n; draws := draws w; trace := rev evs ++ trace w |}.

(** A callback that only reports: [ev c t] are the events it leaves. *)
Definition reports (f : nat -> nat -> M World unit) (ev : nat -> nat -> list Event) : Prop :=
  forall c t w, f c t w = (Return tt, advance w 0 (ev c t)).

Section PhasedTrace.
Context (payload : Address -> option bytes) (ev : nat -> nat -> list Event).

(** One call of [_fetchChunkData] with budget [n] on a steady endpoint. *)
Definition attempt_events (a : Address) (n : nat) : list Event :=
  match payload a with
  | Some _ => [EvRead a true]
  | None => failed_attempts a short_backoff (n - 1) ++ [EvRead a false]
  end.

Definition attempt_reads (a : Address) (n : nat) : nat :=
  match payload a with Some _ => 1 | None => n end.

(** What the first pass makes of the indexed leaves. *)
Definition loaded_of (items : list (nat * Address)) : list Chunk :=
  flat_map (fun '(i, a) => match payload a with
                           | Some d => [{| index := i; data := Some d |}]
                           | None => []
                           end) items.

Definition dropped_of (items : list (nat * Address)) : list Leaf :=
  flat_map (fun '(i, a) => match payload a with
                           | Some _ => []
                           | None => [{| l_index := i; l_address := a |}]
                           end) items.

Definition pass_events (total : nat) (items : list (nat * Address)) : list Event :=
  flat_map (fun '(i, a) => ev (i + 1) total ++ attempt_events a 2) items.

Definition pass_reads (items : list (nat * Address)) : nat :=
  list_sum (map (fun '(i, a) => attempt_reads a 2) items).

(** One retry round over leaves that are all unreadable. *)
Definition round_events (r : nat) (toRetry : list Leaf) : list Event :=
  EvSleep (500 * Z.of_nat r)
    :: flat_map (fun leaf => attempt_events (l_address leaf) 3 ++ [EvSleep 100]) toRetry.

Definition rounds_events (first count : nat) (toRetry : list Leaf) : list Event :=
  flat_map (fun r => round_events r toRetry) (seq first count).

Definition unreadable (leaf : Leaf) : Prop := payload (l_address leaf) = None.

Definition pair_of (leaf : Leaf) : nat * Address := (l_index leaf, l_address leaf).

Definition alive_of (items : list (nat * Address)) : list (nat * bytes) :=
  flat_map (fun '(i, a) => match payload a with
                           | Some d => [(i, d)]
                           | None => []
                           end) items.

End PhasedTrace.

(** Indices accounted for: loaded, or still to retry. *)
Definition accounted (st : list Chunk * list Leaf) : list nat :=
  (index <$> st.1) ++ (l_index <$> st.2).

(** Ten leaves, of which the fourth and the eighth never answer. *)
Module TenLeaves.
Definition leaves : list Address :=
  ["0xL0"; "0xL1"; "0xL2"; "0xL3"; "0xL4"; "0xL5"; "0xL6"; "0xL7"; "0xL8"; "0xL9"].

Definition payload (a : Address) : option bytes :=
  if String.eqb a "0xL3" || String.eqb a "0xL7" then None
  else Some (list_byte_of_string a).

Definition env : Env :=
  {| rpc := fun _ a => payload a;
     siteInfo := fun _ _ => None;
     rpc_message := fun _ => "execution reverted";
     jitter := fun _ => 0 |}.

End TenLeaves.

(** ** State of the overlapped load *)

(** The address the worker is busy with, if any. *)
Definition in_flight (k : Par.Worker) : list Address :=
  match k with
  | Par.Reading c _ | Par.BackingOff c _ => [Par.q_address c]
  | Par.Idle | Par.Pausing => []
  end.

(** Everything the loader holds, queued, in flight or loaded, is among [A]. *)
Definition known (A : gset Address) (s : Par.State) : Prop :=
  dom (Par.loadResults s) ⊆ A /\
  Forall (fun q => Par.q_address q ∈ A) (Par.loadQueue s) /\
  Forall (fun a => a ∈ A) (in_flight (Par.worker s)).

Section Liveness.
Context (payload : Address -> option bytes).

(** Every address of the list is served; some address of the list never is. *)
Definition all_alive (addrs : list Address) : Prop :=
  Forall (fun a => is_Some (payload a)) addrs.

Definition some_dead (addrs : list Address) : Prop :=
  Exists (fun a => payload a = None) addrs.

End Liveness.

(** A root with twice the same leaf under it. *)
Module TwinLeaves.
Definition leaf : Address := SampleTree.addr x11.

Definition payload (a : Address) : option bytes :=
  if String.eqb a "0xRoot" then Some (replicate 20 x11 ++ replicate 20 x11)
  else if String.eqb a leaf then Some [x41; x42]
  else None.

Definition env : Env :=
  {| rpc := fun _ a => payload a;
     siteInfo := fun _ _ => Some {| rootChunk := "0xRoot"; depth := 1; totalSize := 4 |};
     rpc_message := fun _ => "execution reverted";
     jitter := fun _ => 0 |}.

Definition tree : Tree := TNode "0xRoot" [TLeaf leaf; TLeaf leaf].

(** The worker is resumed three times at each suspension of the main task,
    which is resumed without delay. *)
Definition sched : Par.Sched := {| Par.steps := fun _ => 3; Par.lag := fun _ => 0 |}.

End TwinLeaves.

(** A root with ten leaves under it, of which the fourth and the eighth never
    answer. *)
Module TenUnderRoot.
Definition names : list byte := [x10; x11; x12; x13; x14; x15; x16; x17; x18; x19].

Definition leaves : list Address := SampleTree.addr <$> names.

Definition payload (a : Address) : option bytes :=
  if String.eqb a "0xRoot" then Some (concat ((fun b => replicate 20 b) <$> names))
  else if String.eqb a (SampleTree.addr x13) || String.eqb a (SampleTree.addr x17) then None
  else if bool_decide (a ∈ leaves) then Some [x41; x42; x43]
  else None.

Definition env : Env :=
  {| rpc := fun _ a => payload a;
     siteInfo := fun _ _ => Some {| rootChunk := "0xRoot"; depth := 1; totalSize := 30 |};
     rpc_message := fun _ => "execution reverted";
     jitter := fun _ => 0 |}.

Definition tree : Tree := TNode "0xRoot" (TLeaf <$> leaves).

End TenUnderRoot.


Definition is_report (e : Event) : bool :=
  match e with
  | EvLog _ | EvProgress _ _ _ => true
  | EvRead _ _ | EvSleep _ => false
  end.

(** The payload a leaf chunk finds in the results map. *)
Definition loaded_payload (tbl : gmap Address bytes) (c : Par.LeafChunk) : bytes :=
  default [] (tbl !! Par.c_address c).

(** The leaf chunks with sizes and offsets recomputed from the results map. *)
Fixpoint placed_from (tbl : gmap Address bytes) (offset : nat) (cs : list Par.LeafChunk)
  : list Par.LeafChunk :=
  match cs with
  | [] => []
  | c :: cs' =>
      {| Par.c_address := Par.c_address c; Par.c_offset := offset;
         Par.c_size := length (loaded_payload tbl c) |}
        :: placed_from tbl (offset + length (loaded_payload tbl c)) cs'
  end.

(** ** The flat loader *)

Definition with_world (w : World) (d : Flat.Dom) : Flat.Dom :=
  {| Flat.world := w; Flat.statusText := Flat.statusText d; Flat.written := Flat.written d;
     Flat.bodyHTML := Flat.bodyHTML d; Flat.console := Flat.console d |}.

(** A progress callback that returns and at most records something: it
    issues no read and leaves the document alone. *)
Definition observer (f : nat -> nat -> M Flat.Dom unit) : Prop :=
  forall c t d, exists w',
    f c t d = (Return tt, with_world w' d) /\ tick w' = tick (Flat.world d).

Definition observing (config : Flat.Config) : Prop :=
  match Flat.onProgress config with
  | Some f => observer f
  | None => True
  end.


Definition valid (config : Flat.Config) : bool :=
  Flat.truthy (Flat.masterAddress config) && Flat.truthy (Flat.rpcUrl config).

(** The document parts of two states agree. *)
Definition same_document (d d' : Flat.Dom) : Prop :=
  Flat.written d' = Flat.written d /\ Flat.bodyHTML d' = Flat.bodyHTML d /\
  Flat.console d' = Flat.console d.

(** The texts joined in order. *)
Definition joined (texts : list string) : string := foldr String.append EmptyString texts.

(** A flat site of two pages, and a configuration without callbacks. *)
Module FlatSample.
Definition pages : list (Address * string) := [("0xP0", "<p>on"); ("0xP1", "chain</p>")].

Definition chain : Flat.Chain :=
  {| Flat.chunkCount := fun _ a => if String.eqb a "0xM" then Some 2 else None;
     Flat.resolveChunk := fun _ a i => if String.eqb a "0xM" then pages.*1 !! i else None;
     Flat.pageText := fun _ a => snd <$> find (fun p => String.eqb (fst p) a) pages;
     Flat.reject_message := fun _ => "execution reverted" |}.

Definition config : Flat.Config :=
  {| Flat.masterAddress := Some "0xM"; Flat.rpcUrl := Some "https://rpc";
     Flat.onProgress := None; Flat.onError := None; Flat.showStatus := true |}.


End FlatSample.

(** ** Two runs side by side *)

(** Two outcomes agree: both return, with related values, or both raise the
    same error. *)
Definition agree {A B} (Q : A -> B -> Prop) (o1 : Outcome A) (o2 : Outcome B) : Prop :=
  match o1, o2 with
  | Return a, Return b => Q a b
  | Throw e, Throw e' => e = e'
  | _, _ => False
  end.

(** Two runs are in step: their outcomes agree and they issued as many
    reads. *)
Definition in_step {A B} (Q : A -> B -> Prop)
    (r1 : Outcome A * World) (r2 : Outcome B * World) : Prop :=
  agree Q r1.1 r2.1 /\ tick r1.2 = tick r2.2.

(** A callback that returns without issuing a read. *)
Definition quiet {A} (f : A -> M World unit) : Prop :=
  forall x w, exists w', f x w = (Return tt, w') /\ tick w' = tick w.



(** The leaves the page has recorded when the library has recorded [acc]. *)
Definition recorded (acc : list Address) (st : list Leaf * nat) : Prop :=
  st = (numbered 0 acc, length acc).


(** ** What a load holds *)

(** Chunk [c] holds what the endpoint served for the leaf numbered
    [index c], at one of the reads [t0 .. t1 - 1]. *)
Definition served_between (env : Env) (leaves : list Address) (t0 t1 : nat) (c : Chunk)
  : Prop :=
  exists a d t,
    leaves !! index c = Some a /\ data c = Some d /\ rpc env t a = Some d /\ t0 <= t < t1.

(** A failed leaf is recorded under its own index and address. *)
Definition names_leaf (leaves : list Address) (l : Leaf) : Prop :=
  leaves !! l_index l = Some (l_address l).

(** The sample site with its second leaf never answering. *)
Module DeadLeaf.
Definition payload (a : Address) : option bytes :=
  if String.eqb a (SampleTree.addr x12) then None else SampleTree.payload a.

Definition env : Env :=
  {| rpc := fun _ a => payload a;
     siteInfo := fun _ _ => Some {| rootChunk := "0xRoot"; depth := 2; totalSize := 6 |};
     rpc_message := fun _ => "execution reverted";
     jitter := fun _ => 0 |}.
End DeadLeaf.

(** ** The log of a failed scan *)

(** The messages logged in a trace, newest first. *)
Definition logs_of (tr : list Event) : list string :=
  omap (fun e => match e with EvLog msg => Some msg | _ => None end) tr.

(** The line the sequential page logs when the traversal of a node fails. *)
Definition failure_line (a : Address) : string :=
  "Failed to traverse node: " +:+ substring 0 10 a +:+ "...".

(** [chain] runs down the tree the endpoint served at the reads
    [t0 .. t1 - 1]: each node after the first is among the children read off
    an answer of the node before it. *)
Fixpoint descends (env : Env) (t0 t1 : nat) (chain : list Address) : Prop :=
  match chain with
  | [] => True
  | a :: rest =>
      match rest with
      | [] => True
      | c :: _ =>
          (exists t data, t0 <= t < t1 /\ rpc env t a = Some data /\ c ∈ childAddrs data) /\
          descends env t0 t1 rest
      end
  end.

(** What a failed traversal that began at node [a] and at world [w] has
    logged when it ends at [w'] with the error [e]: one line per node of a
    path from [a] down to the node whose read was rejected. *)
Definition logged_path (env : Env) (d : nat) (a : Address) (w w' : World) (e : Exn) : Prop :=
  exists chain t,
    head chain = Some a /\ 1 <= length chain <= d /\
    descends env (tick w) (tick w') chain /\
    e = RpcError (default a (last chain)) t /\
    rpc env t (default a (last chain)) = None /\
    tick w <= t < tick w' /\
    logs_of (trace w') = (failure_line <$> chain) ++ logs_of (trace w).

(** What one traversal leaves in the log: nothing when it returns, and the
    path to the failure when it raises. *)
Definition scan_log (env : Env) (d : nat) (a : Address) (w : World)
    (r : Outcome (list Leaf * nat) * World) : Prop :=
  tick w <= tick r.2 /\
  match r.1 with
  | Return _ => logs_of (trace r.2) = logs_of (trace w)
  | Throw e => logged_path env d a w r.2 e
  end.

(** A site three levels deep whose node of the third level never answers. *)
Module DeadDeep.
Definition env : Env :=
  {| rpc := fun _ a =>
              if String.eqb a "0xRoot" then Some (replicate 20 x01)
              else if String.eqb a (SampleTree.addr x01) then Some (replicate 20 x02)
              else None;
     siteInfo := fun _ _ => Some {| rootChunk := "0xRoot"; depth := 3; totalSize := 6 |};
     rpc_message := fun _ => "execution reverted";
     jitter := fun _ => 0 |}.
End DeadDeep.

(** ** Invariants of the overlapped page *)

(** [m] keeps [I], however it ends. *)
Definition keeps {A} (I : Par.State -> Prop) (m : M Par.State A) : Prop :=
  forall s, I s -> I (m s).2.

(** The page once the scan has found leaf [a]: a cell is added to the grid,
    the leaf is queued under the number of cells there were, and the worker
    is started if it is not running. *)
Definition leaf_found (chunkGrid : bool) (a : Address) (offset size : nat) (s : Par.State)
  : Par.State :=
  let index := Par.scannedChunks s in
  let s1 := if chunkGrid then Par.set_scannedChunks (S (Par.scannedChunks s)) s else s in
  Par.loadWorker
    (Par.set_loadQueue
       (Par.loadQueue s1 ++ [{| Par.q_address := a; Par.q_offset := offset;
                                Par.q_size := size; Par.q_index := index |}]) s1).

(** [I] withstands every step of the worker and every assignment of the main
    task. *)
Record stable (env : Env) (chunkGrid : bool) (I : Par.State -> Prop) : Prop := {
  stable_worker : forall s, I s -> I (Par.worker_resume env s);
  stable_world : forall w s, I s -> I (Par.set_world w s);
  stable_clock : forall t n s, I s -> I (Par.set_clock t n s);
  stable_scanComplete : forall b s, I s -> I (Par.set_scanComplete b s);
  stable_expectedTotal : forall n s, I s -> I (Par.set_expectedTotal n s);
  stable_leaf : forall a offset size s, I s -> I (leaf_found chunkGrid a offset size s)
}.

(** Every entry of the results map is the payload of its address. *)
Definition entries_served (payload : Address -> option bytes) (s : Par.State) : Prop :=
  forall a d, Par.loadResults s !! a = Some d -> payload a = Some d.

(** The chunks lie end to end from [offset] on. *)
Fixpoint tiles (offset : nat) (cs : list Par.LeafChunk) : Prop :=
  match cs with
  | [] => True
  | c :: cs' => Par.c_offset c = offset /\ tiles (offset + Par.c_size c) cs'
  end.

(** An endpoint whose master contract rejects every read. *)
Module NoSite.
Definition env : Env :=
  {| rpc := fun _ a => SampleTree.payload a;
     siteInfo := fun _ _ => None;
     rpc_message := fun _ => "execution reverted";
     jitter := fun _ => 0 |}.
End NoSite.

(** The longest backoff of [fetchWithRetry] after attempt [j]:
    [Math.random() * 500] stays below 500. *)
Definition worst_backoff (baseDelay : Z) (j : nat) : Z :=
  Z.min (baseDelay * 2 ^ Z.of_nat j + 499) 10000.

(** ** The display of the sequential page *)

(** A computation of the page with its display erases to one of the bare
    engine at state [s]: run from [s] and from the endpoint state of [s], the
    outcomes agree and the endpoint state, log included, ends up the same. *)
Definition erases_at {A B} (Q : A -> B -> Prop) (m : M SeqUi.St A) (m0 : M World B)
    (s : SeqUi.St) : Prop :=
  agree Q (m s).1 (m0 (SeqUi.world s)).1 /\
  SeqUi.world (m s).2 = (m0 (SeqUi.world s)).2.

Definition erases {A B} (Q : A -> B -> Prop) (m : M SeqUi.St A) (m0 : M World B) : Prop :=
  forall s, erases_at Q m m0 s.

(** A grid of [total] cells fits an array, which holds 2^32 - 1 elements at
    most. *)
Definition grid_fits (total : nat) : Prop :=
  (N.of_nat total <=? 4294967295)%N = true.

(** An update of the display: returns, and leaves the endpoint state alone. *)
Definition hidden (u : M SeqUi.St unit) : Prop :=
  forall s, (u s).1 = Return tt /\ SeqUi.world (u s).2 = SeqUi.world s.

(** Cell [i] of the grid, if the grid has one, carries class [c]. *)
Definition painted (c : string) (u : SeqUi.Ui) (i : nat) : Prop :=
  i < length (SeqUi.chunkCells u) -> SeqUi.chunkCells u !! i = Some c.

(** The bytes a list of chunks holds. *)
Definition bytes_of (chunks : list Chunk) : nat :=
  sum_list_with (fun c => length (default [] (data c))) chunks.

(** The leaf numbers of the chunks loaded, of the leaves failed and of the
    leaves still to be tried. *)
Definition marks (chunks : list Chunk) (failed rest : list Leaf) : list nat :=
  (index <$> chunks) ++ (l_index <$> failed) ++ (l_index <$> rest).

(** The display [u] during the scan, [u0] being the display when the scan
    began: [n] leaves are recorded, numbered from 0. *)
Record scanning (u0 u : SeqUi.Ui) (st : list Leaf * nat) : Prop := {
  scanning_length : length st.1 = st.2;
  scanning_index : l_index <$> st.1 = seq 0 st.2;
  scanning_scanned : SeqUi.scannedChunks u = SeqUi.scannedChunks u0 + st.2;
  scanning_loaded : SeqUi.loadedChunks u = SeqUi.loadedChunks u0;
  scanning_bytes : SeqUi.bytesLoaded u = SeqUi.bytesLoaded u0;
  scanning_cells : length (SeqUi.chunkCells u) = length (SeqUi.chunkCells u0);
  scanning_beyond : forall i, st.2 <= i -> SeqUi.chunkCells u !! i = SeqUi.chunkCells u0 !! i
}.

(** The display [u] while the [L] leaves are loaded, [u0] being the display
    when the scan began. *)
Record loading (L : nat) (u0 u : SeqUi.Ui) (chunks : list Chunk) (failed rest : list Leaf)
  : Prop := {
  loading_scanned : SeqUi.scannedChunks u = SeqUi.scannedChunks u0 + L;
  loading_count : SeqUi.loadedChunks u = SeqUi.loadedChunks u0 + length chunks;
  loading_bytes : SeqUi.bytesLoaded u = SeqUi.bytesLoaded u0 + bytes_of chunks;
  loading_defined : Forall (fun c => is_Some (data c)) chunks;
  loading_cells : length (SeqUi.chunkCells u) = length (SeqUi.chunkCells u0);
  loading_loaded : forall c, c ∈ chunks -> painted "chunk chunk-loaded" u (index c);
  loading_failed : forall l, l ∈ failed -> painted "chunk chunk-failed" u (l_index l);
  loading_beyond : forall i, L <= i -> SeqUi.chunkCells u !! i = SeqUi.chunkCells u0 !! i;
  loading_marks : marks chunks failed rest ≡ₚ seq 0 L
}.

(** Two displays with the same grid and the same counters. *)
Definition same_gauges (u u' : SeqUi.Ui) : Prop :=
  SeqUi.chunkCells u' = SeqUi.chunkCells u /\
  SeqUi.scannedChunks u' = SeqUi.scannedChunks u /\
  SeqUi.loadedChunks u' = SeqUi.loadedChunks u /\
  SeqUi.bytesLoaded u' = SeqUi.bytesLoaded u.

(** An update that returns and changes neither the grid nor a counter. *)
Definition gauge_free (m : M SeqUi.St unit) : Prop :=
  forall s, exists s', m s = (Return tt, s') /\ same_gauges (SeqUi.ui s) (SeqUi.ui s').

(** The sequential page before [init()], with [expectedTotal] set. *)
Definition page_expecting (total : nat) : SeqUi.St :=
  {| SeqUi.world := world0; SeqUi.ui := SeqUi.set_expectedTotal total SeqUi.ui0 |}.

(** ** Errors and the clock of [fetchTree] *)

(** An error that was not made with [new Error]: a rejected read, a
    [TypeError] or a [RangeError]. *)
Definition plain (e : Exn) : Prop :=
  match e with
  | Error _ => False
  | _ => True
  end.



(** * Properties *)

(** ** Monad facts *)

Lemma bind_Return {S A B} (m : M S A) (k : A -> M S B) s a s' :
  m s = (Return a, s') -> bind m k s = k a s'.
Proof. intros H. unfold bind. now rewrite H. Qed.

Lemma bind_Throw {S A B} (m : M S A) (k : A -> M S B) s e s' :
  m s = (Throw e, s') -> bind m k s = (Throw e, s').
Proof. intros H. unfold bind. now rewrite H. Qed.

Lemma catch_Return {S A} (m : M S A) h s a s' :
  m s = (Return a, s') -> try_catch m h s = (Return a, s').
Proof. intros H. unfold try_catch. now rewrite H. Qed.

Lemma catch_Throw {S A} (m : M S A) h s e s' :
  m s = (Throw e, s') -> try_catch m h s = h e s'.
Proof. intros H. unfold try_catch. now rewrite H. Qed.

Lemma for_of_app {S A B} (body : B -> A -> M S B) xs ys acc s :
  for_of body (xs ++ ys) acc s =
  bind (for_of body xs acc) (for_of body ys) s.
Proof.
  revert acc s. induction xs as [|x xs IH]; intros acc s; simpl.
  - reflexivity.
  - unfold bind in *. destruct (body acc x s) as [[acc'|e] s1]; [apply IH|reflexivity].
Qed.

(** ** The retry primitive *)

Lemma failed_attempts_ext a d1 d2 k :
  (forall j, j < k -> d1 j = d2 j) -> failed_attempts a d1 k = failed_attempts a d2 k.
Proof.
  revert d1 d2. induction k as [|k IH]; intros d1 d2 H; simpl; [reflexivity|].
  rewrite (H 0) by lia. do 2 f_equal. apply IH. intros j Hj. apply H. lia.
Qed.

Lemma waited_app tr1 tr2 : waited (tr1 ++ tr2) = (waited tr1 + waited tr2)%Z.
Proof. induction tr1 as [|[] tr1 IH]; simpl; lia. Qed.

Lemma reads_app tr1 tr2 : reads (tr1 ++ tr2) = reads tr1 + reads tr2.
Proof. induction tr1 as [|[] tr1 IH]; simpl; lia. Qed.

Lemma waited_failed_attempts a delay k :
  waited (rev (failed_attempts a delay k)) = sum_delays delay k.
Proof.
  revert delay. induction k as [|k IH]; intros delay; simpl; [reflexivity|].
  rewrite !waited_app, IH. simpl. lia.
Qed.

Lemma reads_failed_attempts a delay k :
  reads (rev (failed_attempts a delay k)) = k.
Proof.
  revert delay. induction k as [|k IH]; intros delay; simpl; [reflexivity|].
  rewrite !reads_app, IH. simpl. lia.
Qed.

Section Retry.
Context (env : Env).

Lemma fetch_from_succeeds a retries k : forall rem i w data,
  k < rem -> (Z.of_nat i + Z.of_nat rem = retries)%Z ->
  (forall j, j < k -> rpc env (tick w + j) a = None) ->
  rpc env (tick w + k) a = Some data ->
  Lib._fetchChunkData_from env rem (Z.of_nat i) retries a w =
    (Return (Some data),
     {| tick := tick w + k + 1; draws := draws w;
        trace := EvRead a true
                   :: rev (failed_attempts a (fun j => short_backoff (i + j)) k)
                   ++ trace w |}).
Proof.
  induction k as [|k IH]; intros rem i w data Hk Hi Hfail Hok.
  - destruct rem as [|rem]; [lia|]. simpl.
    unfold try_catch, bind, readContract. rewrite Nat.add_0_r in Hok. rewrite Hok.
    unfold ret. do 2 f_equal. f_equal. lia.
  - destruct rem as [|rem]; [lia|]. simpl.
    unfold try_catch at 1, bind at 1, readContract at 1.
    rewrite <- (Nat.add_0_r (tick w)) at 1. rewrite (Hfail 0) by lia.
    destruct (Z.eqb_spec (Z.of_nat i) (retries - 1)) as [E|_]; [lia|].
    unfold sleep, emit, bind at 1.
    replace (Z.of_nat i + 1)%Z with (Z.of_nat (S i)) by lia.
    erewrite IH with (data := data); simpl; try lia.
    + rewrite <- !app_assoc. simpl. unfold short_backoff at 3.
      rewrite Nat.add_0_r.
      rewrite (failed_attempts_ext a (fun j => short_backoff (S (i + j)))
                 (fun j => short_backoff (i + S j)))
        by (intros j _; f_equal; lia).
      repeat f_equal. lia.
    + intros j Hj. replace (S (tick w + j)) with (tick w + S j) by lia.
      apply Hfail. lia.
    + replace (S (tick w + k)) with (tick w + S k) by lia. exact Hok.
Qed.

Lemma fetch_from_exhausted a retries : forall rem i w,
  0 < rem -> (Z.of_nat i + Z.of_nat rem = retries)%Z ->
  (forall j, j < rem -> rpc env (tick w + j) a = None) ->
  Lib._fetchChunkData_from env rem (Z.of_nat i) retries a w =
    (Throw (RpcError a (tick w + rem - 1)),
     {| tick := tick w + rem; draws := draws w;
        trace := EvRead a false
                   :: rev (failed_attempts a (fun j => short_backoff (i + j)) (rem - 1))
                   ++ trace w |}).
Proof.
  induction rem as [|rem IH]; intros i w Hrem Hi Hfail; [lia|].
  simpl. unfold try_catch at 1, bind at 1, readContract at 1.
  rewrite <- (Nat.add_0_r (tick w)) at 1. rewrite (Hfail 0) by lia.
  destruct (Z.eqb_spec (Z.of_nat i) (retries - 1)) as [E|NE].
  - assert (rem = 0) by lia. subst rem. simpl. unfold throw.
    do 2 f_equal; [f_equal; lia| f_equal; lia].
  - destruct rem as [|rem]; [lia|].
    unfold sleep, emit, bind at 1.
    replace (Z.of_nat i + 1)%Z with (Z.of_nat (S i)) by lia.
    rewrite IH; simpl; try lia.
    + rewrite Nat.sub_0_r, <- !app_assoc. simpl. unfold short_backoff at 3.
      rewrite Nat.add_0_r.
      rewrite (failed_attempts_ext a (fun j => short_backoff (S (i + j)))
                 (fun j => short_backoff (i + S j)))
        by (intros j _; f_equal; lia).
      repeat f_equal; lia.
    + intros j Hj. replace (S (tick w + j)) with (tick w + S j) by lia.
      apply Hfail. lia.
Qed.
End Retry.

Lemma fetchChunkData_same env a retries :
  Seq.fetchChunkData env a retries = Lib._fetchChunkData env a retries.
Proof. reflexivity. Qed.

Section RetryJitter.
Context (env : Env).

#[local] Abbreviation fetchWithRetry_read := (fetchWithRetry_read env).

Lemma fetchWithRetry_from_succeeds a retries baseDelay k : forall rem i w data,
  k < rem -> (Z.of_nat i + Z.of_nat rem = retries)%Z ->
  (forall j, j < k -> rpc env (tick w + j) a = None) ->
  rpc env (tick w + k) a = Some data ->
  Par.fetchWithRetry_from sleep (random500 env) (readContract env a)
      rem (Z.of_nat i) retries baseDelay w =
    (Return (Some data),
     {| tick := tick w + k + 1; draws := draws w + k;
        trace := EvRead a true
                   :: rev (failed_attempts a
                             (fun j => jitter_backoff_at env baseDelay (draws w + j) (i + j)) k)
                   ++ trace w |}).
Proof.
  induction k as [|k IH]; intros rem i w data Hk Hi Hfail Hok.
  - destruct rem as [|rem]; [lia|]. simpl.
    unfold try_catch, bind, readContract. rewrite Nat.add_0_r in Hok. rewrite Hok.
    unfold ret. repeat f_equal; lia.
  - destruct rem as [|rem]; [lia|]. simpl.
    unfold try_catch at 1, bind at 1, readContract at 1.
    rewrite <- (Nat.add_0_r (tick w)) at 1. rewrite (Hfail 0) by lia.
    destruct (Z.eqb_spec (Z.of_nat i) (retries - 1)) as [E|_]; [lia|].
    unfold sleep, emit, random500, bind at 1 2.
    replace (Z.of_nat i + 1)%Z with (Z.of_nat (S i)) by lia.
    erewrite IH with (data := data); simpl; try lia.
    + rewrite <- !app_assoc. simpl. unfold jitter_backoff_at at 3.
      rewrite !Nat.add_0_r.
      rewrite (failed_attempts_ext a
                 (fun j => jitter_backoff_at env baseDelay (S (draws w + j)) (S (i + j)))
                 (fun j => jitter_backoff_at env baseDelay (draws w + S j) (i + S j)))
        by (intros j _; f_equal; lia).
      repeat f_equal; lia.
    + intros j Hj. replace (S (tick w + j)) with (tick w + S j) by lia.
      apply Hfail. lia.
    + replace (S (tick w + k)) with (tick w + S k) by lia. exact Hok.
Qed.

Lemma fetchWithRetry_from_exhausted a retries baseDelay : forall rem i w,
  0 < rem -> (Z.of_nat i + Z.of_nat rem = retries)%Z ->
  (forall j, j < rem -> rpc env (tick w + j) a = None) ->
  Par.fetchWithRetry_from sleep (random500 env) (readContract env a)
      rem (Z.of_nat i) retries baseDelay w =
    (Throw (RpcError a (tick w + rem - 1)),
     {| tick := tick w + rem; draws := draws w + (rem - 1);
        trace := EvRead a false
                   :: rev (failed_attempts a
                             (fun j => jitter_backoff_at env baseDelay (draws w + j) (i + j))
                             (rem - 1))
                   ++ trace w |}).
Proof.
  induction rem as [|rem IH]; intros i w Hrem Hi Hfail; [lia|].
  simpl. unfold try_catch at 1, bind at 1, readContract at 1.
  rewrite <- (Nat.add_0_r (tick w)) at 1. rewrite (Hfail 0) by lia.
  destruct (Z.eqb_spec (Z.of_nat i) (retries - 1)) as [E|NE].
  - assert (rem = 0) by lia. subst rem. simpl. unfold throw.
    repeat f_equal; lia.
  - destruct rem as [|rem]; [lia|].
    unfold sleep, emit, random500, bind at 1 2.
    replace (Z.of_nat i + 1)%Z with (Z.of_nat (S i)) by lia.
    rewrite IH; simpl; try lia.
    + rewrite Nat.sub_0_r, <- !app_assoc. simpl. unfold jitter_backoff_at at 3.
      rewrite !Nat.add_0_r.
      rewrite (failed_attempts_ext a
                 (fun j => jitter_backoff_at env baseDelay (S (draws w + j)) (S (i + j)))
                 (fun j => jitter_backoff_at env baseDelay (draws w + S j) (i + S j)))
        by (intros j _; f_equal; lia).
      repeat f_equal; lia.
    + intros j Hj. replace (S (tick w + j)) with (tick w + S j) by lia.
      apply Hfail. lia.
Qed.

Lemma readContract_tick a w : tick (snd (readContract env a w)) = S (tick w).
Proof. unfold readContract. destruct (rpc env (tick w) a); reflexivity. Qed.

(** Whatever the endpoint does, a call issues at most [rem] reads. *)
Lemma fetch_from_bound a retries : forall rem i w,
  tick (snd (Lib._fetchChunkData_from env rem i retries a w)) <= tick w + rem.
Proof.
  induction rem as [|rem IH]; intros i w; simpl; [lia|].
  unfold try_catch, bind at 1.
  pose proof (readContract_tick a w) as Ht.
  destruct (readContract env a w) as [[b|e] w1]; simpl in *; [lia|].
  destruct (i =? retries - 1)%Z; simpl; [lia|].
  unfold bind, sleep, emit. simpl.
  eapply Nat.le_trans; [apply IH|]. simpl. lia.
Qed.

Lemma fetchWithRetry_from_bound a retries baseDelay : forall rem i w,
  tick (snd (Par.fetchWithRetry_from sleep (random500 env) (readContract env a)
               rem i retries baseDelay w)) <= tick w + rem.
Proof.
  induction rem as [|rem IH]; intros i w; simpl; [lia|].
  unfold try_catch, bind at 1.
  pose proof (readContract_tick a w) as Ht.
  destruct (readContract env a w) as [[b|e] w1]; simpl in *; [lia|].
  destruct (i =? retries - 1)%Z; simpl; [lia|].
  unfold bind, sleep, emit, random500. simpl.
  eapply Nat.le_trans; [apply IH|]. simpl. lia.
Qed.
End RetryJitter.

(** C3: the retry primitives ([_fetchChunkData], and [fetchWithRetry] applied
    to a read) issue at most [maxAttempts] reads.  When the read fails on
    attempts [0..k-1] and succeeds on attempt [k < maxAttempts] they return
    the bytes after exactly [k] failed attempts, attempt [j] being followed
    by a wait of [min (200 * 2^j) 2000], respectively
    [min (baseDelay * 2^j + jitter) 10000], and nothing waited before attempt
    0, so the time waited is the sum of the first [k] backoff delays.  When
    all [maxAttempts] attempts fail they raise the error of the last read of
    that address, having issued exactly [maxAttempts] reads. *)
Theorem retry_within_budget (env : Env) (a : Address) (maxAttempts : nat)
    (baseDelay : Z) (w : World) :
  1 <= maxAttempts ->
  let n := Z.of_nat maxAttempts in
  let jittered := fun j => jitter_backoff env baseDelay (draws w) j in
  (tick (snd (Lib._fetchChunkData env a n w)) <= tick w + maxAttempts /\
   tick (snd (fetchWithRetry_read env a n baseDelay w)) <= tick w + maxAttempts) /\
  (forall k data,
     k < maxAttempts ->
     (forall j, j < k -> rpc env (tick w + j) a = None) ->
     rpc env (tick w + k) a = Some data ->
     exists w1 w2,
       Lib._fetchChunkData env a n w = (Return (Some data), w1) /\
       trace w1 = EvRead a true :: rev (failed_attempts a short_backoff k) ++ trace w /\
       tick w1 = tick w + k + 1 /\
       waited (trace w1) = (waited (trace w) + sum_delays short_backoff k)%Z /\
       fetchWithRetry_read env a n baseDelay w = (Return (Some data), w2) /\
       trace w2 = EvRead a true :: rev (failed_attempts a jittered k) ++ trace w /\
       tick w2 = tick w + k + 1 /\
       waited (trace w2) = (waited (trace w) + sum_delays jittered k)%Z) /\
  ((forall j, j < maxAttempts -> rpc env (tick w + j) a = None) ->
     exists w1 w2,
       Lib._fetchChunkData env a n w = (Throw (RpcError a (tick w + maxAttempts - 1)), w1) /\
       tick w1 = tick w + maxAttempts /\
       reads (trace w1) = reads (trace w) + maxAttempts /\
       fetchWithRetry_read env a n baseDelay w
         = (Throw (RpcError a (tick w + maxAttempts - 1)), w2) /\
       tick w2 = tick w + maxAttempts /\
       reads (trace w2) = reads (trace w) + maxAttempts).
Proof.
  intros Hn n jittered.
  assert (Hto : Z.to_nat n = maxAttempts) by (unfold n; lia).
  split; [|split].
  - unfold fetchWithRetry_read, Lib._fetchChunkData, Par.fetchWithRetry.
    rewrite Hto. split; [apply fetch_from_bound | apply fetchWithRetry_from_bound].
  - intros k data Hk Hfail Hok.
    do 2 eexists.
    unfold fetchWithRetry_read, Lib._fetchChunkData, Par.fetchWithRetry.
    rewrite Hto.
    pose proof (fetch_from_succeeds env a n k maxAttempts 0 w data) as E1.
    pose proof (fetchWithRetry_from_succeeds env a n baseDelay k maxAttempts 0 w data) as E2.
    change (Z.of_nat 0) with 0%Z in E1, E2.
    rewrite E1, E2 by (auto; lia).
    repeat split; try reflexivity; cbn [trace tick waited]; try lia.
    + rewrite waited_app, waited_failed_attempts. apply Z.add_comm.
    + rewrite waited_app, waited_failed_attempts. apply Z.add_comm.
  - intros Hfail.
    do 2 eexists.
    unfold fetchWithRetry_read, Lib._fetchChunkData, Par.fetchWithRetry.
    rewrite Hto.
    pose proof (fetch_from_exhausted env a n maxAttempts 0 w) as E1.
    pose proof (fetchWithRetry_from_exhausted env a n baseDelay maxAttempts 0 w) as E2.
    change (Z.of_nat 0) with 0%Z in E1, E2.
    rewrite E1, E2 by (auto; lia).
    repeat split; try reflexivity; cbn [trace tick reads].
    + rewrite reads_app, reads_failed_attempts. lia.
    + rewrite reads_app, reads_failed_attempts. lia.
Qed.

Lemma retry_within_budget_witness :
  1 <= 3 /\
  exists w1 w2,
    Lib._fetchChunkData Examples.flaky "0xaa" 3 world0 = (Return (Some [x41]), w1) /\
    waited (trace w1) = 600%Z /\
    fetchWithRetry_read Examples.flaky "0xaa" 3 1000 world0 = (Return (Some [x41]), w2) /\
    waited (trace w2) = 3013%Z.
Proof.
  split; [lia|].
  destruct (retry_within_budget Examples.flaky "0xaa" 3 1000 world0 ltac:(lia))
    as [_ [Hok _]].
  destruct (Hok 2 [x41]) as (w1 & w2 & H1 & _ & _ & Hw1 & H2 & _ & _ & Hw2).
  - lia.
  - intros j Hj. simpl. destruct j as [|[|j]]; [reflexivity|reflexivity|lia].
  - reflexivity.
  - exists w1, w2. repeat split; assumption.
Defined.

(** C9: with a non-positive attempt budget the loop of [_fetchChunkData] and
    of [fetchWithRetry] never runs: the call returns [undefined], issues no
    read and raises nothing. *)
Theorem no_budget_returns_undefined (env : Env) (a : Address) (n : nat)
    (baseDelay : Z) (w : World) :
  Lib._fetchChunkData env a (- Z.of_nat n) w = (Return None, w) /\
  Seq.fetchChunkData env a (- Z.of_nat n) w = (Return None, w) /\
  fetchWithRetry_read env a (- Z.of_nat n) baseDelay w = (Return None, w).
Proof.
  unfold fetchWithRetry_read, Lib._fetchChunkData, Seq.fetchChunkData, Par.fetchWithRetry.
  replace (Z.to_nat (- Z.of_nat n)) with 0 by lia.
  repeat split.
Qed.

(** ** Assembly *)

Lemma insert_by_index_perm c cs : insert_by_index c cs ≡ₚ c :: cs.
Proof.
  induction cs as [|c' cs IH]; simpl; [reflexivity|].
  destruct (index c <=? index c'); [reflexivity|].
  rewrite IH. apply perm_swap.
Qed.

Lemma sort_by_index_perm cs : sort_by_index cs ≡ₚ cs.
Proof.
  induction cs as [|c cs IH]; simpl; [reflexivity|].
  rewrite insert_by_index_perm. now rewrite IH.
Qed.

Lemma insert_by_index_sorted c cs :
  Forall (fun c' => index c <> index c') cs ->
  StronglySorted index_lt cs ->
  StronglySorted index_lt (insert_by_index c cs).
Proof.
  induction cs as [|c' cs IH]; intros Hne Hs; simpl.
  - repeat constructor.
  - inversion Hne as [|? ? Hc Hne']; subst. inversion Hs as [|? ? Hs' Hall]; subst.
    destruct (Nat.leb_spec (index c) (index c')) as [Hle|Hgt].
    + constructor; [assumption|]. constructor; [unfold index_lt; lia|].
      eapply Forall_impl; [exact Hall|]. unfold index_lt. intros; simpl in *; lia.
    + constructor; [auto|].
      rewrite insert_by_index_perm. constructor; [exact Hgt|exact Hall].
Qed.

Lemma sort_by_index_sorted cs :
  NoDup (index <$> cs) -> StronglySorted index_lt (sort_by_index cs).
Proof.
  induction cs as [|c cs IH]; simpl; intros Hnd; [constructor|].
  apply NoDup_cons in Hnd as [Hnotin Hnd].
  apply insert_by_index_sorted; [|auto].
  rewrite sort_by_index_perm. apply Forall_forall. intros c' Hin Heq.
  apply Hnotin. rewrite Heq. apply list_elem_of_fmap. eauto.
Qed.

#[local] Instance index_lt_antisymm : AntiSymm (=) index_lt.
Proof. intros c c' H1 H2. unfold index_lt in *. lia. Qed.

(** With distinct indices the sorted array does not depend on the order the
    chunks were pushed in. *)
Lemma sort_by_index_unique cs cs' :
  NoDup (index <$> cs) -> cs ≡ₚ cs' -> sort_by_index cs = sort_by_index cs'.
Proof.
  intros Hnd Hp. apply (StronglySorted_unique index_lt).
  - now apply sort_by_index_sorted.
  - apply sort_by_index_sorted. now rewrite <- Hp.
  - now rewrite !sort_by_index_perm.
Qed.

Lemma total_bytes_loop {S} (qs : list (nat * bytes)) (sum : nat) (s : S) :
  for_of (fun sum c => let* d := defined (data c) in ret (sum + length d))
         (chunk_of <$> qs) sum s
  = (Return (sum + length (concat qs.*2)), s).
Proof.
  revert sum. induction qs as [|[i d] qs IH]; intros sum; simpl.
  - unfold ret. do 2 f_equal. lia.
  - unfold bind at 1 2, ret at 1. simpl. rewrite IH, length_app.
    rewrite Nat.add_assoc. reflexivity.
Qed.

Lemma array_set_fill {S} (placed d : bytes) (k : nat) (s : S) :
  array_set (placed ++ zeros (length d + k)) d (length placed) s
  = (Return ((placed ++ d) ++ zeros k), s).
Proof.
  unfold array_set, zeros.
  rewrite length_app, length_replicate.
  destruct (Nat.leb_spec (length placed + length d) (length placed + (length d + k)));
    [|lia].
  unfold ret. do 2 f_equal.
  rewrite take_app_length.
  rewrite drop_app_ge by lia.
  rewrite drop_replicate. rewrite <- app_assoc. do 3 f_equal. lia.
Qed.

Lemma write_loop {S} (qs : list (nat * bytes)) (placed : bytes) (k : nat) (s : S) :
  for_of (fun '(finalData, offset) c =>
            let* d := defined (data c) in
            let* finalData' := array_set finalData d offset in
            ret (finalData', offset + length d))
         (chunk_of <$> qs)
         (placed ++ zeros (length (concat qs.*2) + k), length placed) s
  = (Return ((placed ++ concat qs.*2) ++ zeros k, length (placed ++ concat qs.*2)), s).
Proof.
  revert placed. induction qs as [|[i d] qs IH]; intros placed; simpl.
  - rewrite app_nil_r. reflexivity.
  - unfold bind at 1 2. simpl. unfold ret at 1.
    rewrite length_app, <- Nat.add_assoc.
    unfold bind at 1. rewrite array_set_fill.
    unfold ret at 1. rewrite <- length_app.
    rewrite IH. rewrite <- !app_assoc. reflexivity.
Qed.

Lemma assemble_sorted_concat {S} (qs : list (nat * bytes)) (s : S) :
  assemble_sorted (chunk_of <$> qs) s = (Return (concat qs.*2), s).
Proof.
  unfold assemble_sorted.
  unfold bind at 1. rewrite total_bytes_loop. simpl.
  unfold bind at 1.
  pose proof (write_loop qs [] 0 s) as H. simpl in H.
  rewrite Nat.add_0_r in H. rewrite H. unfold ret. simpl.
  now rewrite app_nil_r.
Qed.

Lemma sort_by_index_chunk_of (ps : list (nat * bytes)) :
  exists qs, sort_by_index (chunk_of <$> ps) = chunk_of <$> qs /\ qs ≡ₚ ps.
Proof.
  pose proof (sort_by_index_perm (chunk_of <$> ps)) as H.
  apply Permutation_map_inv in H as (qs & Hqs & Hp).
  exists qs. split; [exact Hqs|now symmetry].
Qed.

Lemma length_concat_perm (xs ys : list bytes) :
  xs ≡ₚ ys -> length (concat xs) = length (concat ys).
Proof.
  induction 1; simpl; rewrite ?length_app; try lia.
Qed.

(** C2: for chunks with distinct indices [_assembleChunks] returns the
    payloads concatenated in ascending index order, nothing in between; the
    result is the same for every order of insertion, and its length is the
    sum of the payload lengths. *)
Theorem assemble_in_index_order {S} (s : S) (ps ps' : list (nat * bytes)) :
  NoDup ps.*1 -> ps ≡ₚ ps' ->
  exists qs,
    qs ≡ₚ ps /\ StronglySorted lt qs.*1 /\
    Lib._assembleChunks (chunk_of <$> ps) s = (Return (concat qs.*2), s) /\
    Lib._assembleChunks (chunk_of <$> ps') s = (Return (concat qs.*2), s) /\
    length (concat qs.*2) = list_sum (length <$> ps.*2).
Proof.
  intros Hnd Hp.
  assert (Hnd' : NoDup (index <$> (chunk_of <$> ps))).
  { rewrite <- list_fmap_compose. exact Hnd. }
  destruct (sort_by_index_chunk_of ps) as (qs & Hqs & Hperm).
  exists qs. split; [exact Hperm|]. split; [|split; [|split]].
  - pose proof (sort_by_index_sorted _ Hnd') as Hs. rewrite Hqs in Hs.
    apply (StronglySorted_fmap index index_lt lt) in Hs; [|auto].
    rewrite <- list_fmap_compose in Hs. exact Hs.
  - unfold Lib._assembleChunks. rewrite Hqs. apply assemble_sorted_concat.
  - unfold Lib._assembleChunks.
    rewrite <- (sort_by_index_unique (chunk_of <$> ps) (chunk_of <$> ps')).
    + rewrite Hqs. apply assemble_sorted_concat.
    + exact Hnd'.
    + now apply fmap_Permutation.
  - rewrite <- length_concat. apply length_concat_perm.
    now apply fmap_Permutation.
Qed.

Lemma assemble_in_index_order_witness :
  let ps := [(2, [x45; x46]); (0, [x41; x42]); (1, [x43; x44])] in
  let ps' := [(1, [x43; x44]); (2, [x45; x46]); (0, [x41; x42])] in
  NoDup ps.*1 /\ ps ≡ₚ ps' /\
  exists qs,
    qs ≡ₚ ps /\ StronglySorted lt qs.*1 /\
    Lib._assembleChunks (chunk_of <$> ps) tt = (Return (concat qs.*2), tt) /\
    Lib._assembleChunks (chunk_of <$> ps') tt = (Return (concat qs.*2), tt) /\
    length (concat qs.*2) = list_sum (length <$> ps.*2).
Proof.
  intros ps ps'.
  assert (Hnd : NoDup ps.*1) by compute_done.
  assert (Hp : ps ≡ₚ ps') by apply (Permutation_app_comm [_; _] [_]).
  split; [exact Hnd|]. split; [exact Hp|].
  exact (assemble_in_index_order tt ps ps' Hnd Hp).
Defined.

(** The example of the specification: index 0 holds "AB", 1 holds "CD" and 2
    holds "EF"; every order of insertion yields "ABCDEF". *)
Example assemble_ABCDEF :
  Forall (fun ps => Lib._assembleChunks (chunk_of <$> ps) tt
                    = (Return [x41; x42; x43; x44; x45; x46], tt))
         (permutations [(0, [x41; x42]); (1, [x43; x44]); (2, [x45; x46])]).
Proof. vm_compute. repeat constructor. Qed.

(** ** The tree scan *)

(** The iteration bound of [childAddrs_from] is immaterial once it covers
    the bytes left. *)
Lemma childAddrs_from_fuel data : forall n m i,
  length data <= i + n -> length data <= i + m ->
  childAddrs_from n i data = childAddrs_from m i data.
Proof.
  induction n as [|n IH]; intros m i Hn Hm.
  - destruct m as [|m]; [reflexivity|]. simpl.
    destruct (Nat.ltb_spec i (length data)); [lia|reflexivity].
  - simpl. destruct (Nat.ltb_spec i (length data)) as [Hlt|Hge].
    + destruct m as [|m]; [lia|]. simpl.
      destruct (Nat.ltb_spec i (length data)); [|lia].
      f_equal. apply IH; lia.
    + destruct m as [|m]; [reflexivity|]. simpl.
      destruct (Nat.ltb_spec i (length data)); [lia|reflexivity].
Qed.

Lemma childAddrs_from_shift (r rest : bytes) : forall n i,
  length r = 20 ->
  childAddrs_from n (i + 20) (r ++ rest) = childAddrs_from n i rest.
Proof.
  induction n as [|n IH]; intros i Hr; simpl; [reflexivity|].
  rewrite length_app, Hr.
  destruct (Nat.ltb_spec (i + 20) (20 + length rest)),
           (Nat.ltb_spec i (length rest)); try lia; [|reflexivity].
  f_equal.
  - unfold slice. replace (i + 20 + 20 - (i + 20)) with (i + 20 - i) by lia.
    do 2 f_equal. rewrite drop_app_ge by lia. f_equal. lia.
  - apply IH. exact Hr.
Qed.

Lemma childAddrs_nil : childAddrs [] = [].
Proof. reflexivity. Qed.

Lemma childAddrs_from_S n i data :
  childAddrs_from (S n) i data
  = if i <? length data
    then toHex (slice data i (i + 20)) :: childAddrs_from n (i + 20) data
    else [].
Proof. reflexivity. Qed.

(** A full record in front is one child address. *)
Lemma childAddrs_record (r rest : bytes) :
  length r = 20 -> childAddrs (r ++ rest) = toHex r :: childAddrs rest.
Proof.
  intros Hr. unfold childAddrs. rewrite length_app, Hr.
  replace (20 + length rest) with (S (19 + length rest)) by lia.
  rewrite childAddrs_from_S, length_app, Hr.
  destruct (Nat.ltb_spec 0 (20 + length rest)); [|lia].
  f_equal.
  - unfold slice. rewrite drop_0. replace (0 + 20 - 0) with 20 by lia.
    now rewrite take_app_length'.
  - rewrite (childAddrs_from_shift r rest _ 0 Hr).
    apply childAddrs_from_fuel; lia.
Qed.

(** Trailing bytes short of a record are one more child address. *)
Lemma childAddrs_short (tail : bytes) :
  0 < length tail <= 20 -> childAddrs tail = [toHex tail].
Proof.
  intros Hl. unfold childAddrs.
  destruct (length tail) as [|n] eqn:E; [lia|].
  rewrite childAddrs_from_S, E.
  destruct (Nat.ltb_spec 0 (S n)); [|lia].
  f_equal.
  - unfold slice. rewrite drop_0. rewrite take_ge; [reflexivity|lia].
  - destruct n as [|n]; [reflexivity|].
    rewrite childAddrs_from_S, E.
    destruct (Nat.ltb_spec (0 + 20) (S (S n))); [lia|reflexivity].
Qed.

Lemma childAddrs_records (recs : list bytes) (tail : bytes) :
  Forall (fun r => length r = 20) recs -> length tail < 20 ->
  childAddrs (concat recs ++ tail)
  = (toHex <$> recs) ++ (if decide (tail = []) then [] else [toHex tail]).
Proof.
  intros Hrecs Htail. induction Hrecs as [|r recs Hr _ IH]; simpl.
  - destruct (decide (tail = [])) as [->|Hne]; [reflexivity|].
    apply childAddrs_short. destruct tail; [congruence|simpl in *; lia].
  - rewrite <- app_assoc, childAddrs_record by exact Hr. now rewrite IH.
Qed.

(** A tree of node addresses. *)

Lemma numbered_app i0 xs ys :
  numbered i0 (xs ++ ys) = numbered i0 xs ++ numbered (i0 + length xs) ys.
Proof.
  unfold numbered. rewrite imap_app. f_equal.
  apply imap_ext. intros i a _. simpl. f_equal. lia.
Qed.

Lemma numbered_index i0 addrs : l_index <$> numbered i0 addrs = seq i0 (length addrs).
Proof.
  revert i0. induction addrs as [|a addrs IH]; intros i0; [reflexivity|].
  change (a :: addrs) with ([a] ++ addrs). rewrite numbered_app, fmap_app, IH.
  simpl. f_equal; [lia|]. f_equal. lia.
Qed.

Lemma numbered_address i0 addrs : l_address <$> numbered i0 addrs = addrs.
Proof.
  revert i0. induction addrs as [|a addrs IH]; intros i0; [reflexivity|].
  change (a :: addrs) with ([a] ++ addrs). rewrite numbered_app, fmap_app, IH.
  reflexivity.
Qed.

Lemma bind_inv {S A B} (m : M S A) (k : A -> M S B) s b s' :
  bind m k s = (Return b, s') ->
  exists a s1, m s = (Return a, s1) /\ k a s1 = (Return b, s').
Proof.
  unfold bind. destruct (m s) as [[a|e] s1]; [eauto|discriminate].
Qed.

Lemma catch_inv {S A} (m : M S A) h s a s' :
  try_catch m h s = (Return a, s') ->
  m s = (Return a, s') \/ exists e s1, m s = (Throw e, s1) /\ h e s1 = (Return a, s').
Proof.
  unfold try_catch. destruct (m s) as [[a'|e] s1]; [auto|eauto].
Qed.

(** Loops whose body, when it returns, has a known pure effect [step]. *)
Lemma for_of_sound {S A B T} (body : B -> A -> M S B) (key : T -> A)
    (step : B -> T -> B) (ts : list T) :
  Forall (fun t => forall acc s r s',
            body acc (key t) s = (Return r, s') -> r = step acc t) ts ->
  forall acc s r s',
    for_of body (key <$> ts) acc s = (Return r, s') -> r = foldl step acc ts.
Proof.
  induction 1 as [|t ts Ht _ IH]; intros acc s r s' Hrun; simpl in *.
  - unfold ret in Hrun. congruence.
  - apply bind_inv in Hrun as (acc1 & s1 & H1 & H2).
    apply Ht in H1. subst acc1. eauto.
Qed.

Lemma for_of_total {S A B T} (body : B -> A -> M S B) (key : T -> A)
    (step : B -> T -> B) (ts : list T) :
  Forall (fun t => forall acc s, exists s',
            body acc (key t) s = (Return (step acc t), s')) ts ->
  forall acc s, exists s',
    for_of body (key <$> ts) acc s = (Return (foldl step acc ts), s').
Proof.
  induction 1 as [|t ts Ht _ IH]; intros acc s; simpl.
  - eexists. reflexivity.
  - destruct (Ht acc s) as [s1 H1]. destruct (IH (step acc t) s1) as [s2 H2].
    exists s2. erewrite bind_Return; eauto.
Qed.

Lemma foldl_leaves (ts : list Tree) (acc : list Address) :
  foldl (fun acc t => acc ++ leaves_of t) acc ts = acc ++ concat (map leaves_of ts).
Proof.
  revert acc. induction ts as [|t ts IH]; intros acc; simpl.
  - now rewrite app_nil_r.
  - rewrite IH. now rewrite app_assoc.
Qed.

Lemma foldl_numbered (ts : list Tree) (ls : list Leaf) (i : nat) :
  foldl (fun (st : list Leaf * nat) t =>
           (st.1 ++ numbered st.2 (leaves_of t), st.2 + length (leaves_of t)))
        (ls, i) ts
  = (ls ++ numbered i (concat (map leaves_of ts)),
     i + length (concat (map leaves_of ts))).
Proof.
  revert ls i. induction ts as [|t ts IH]; intros ls i; simpl.
  - rewrite app_nil_r. f_equal. lia.
  - rewrite IH. simpl. rewrite numbered_app, length_app, <- app_assoc.
    f_equal. lia.
Qed.

Section Scan.
Context (env : Env) (payload : Address -> option bytes).

Lemma fetch_from_payload a retries : consistent env payload ->
  forall rem i w data w',
    Lib._fetchChunkData_from env rem i retries a w = (Return (Some data), w') ->
    payload a = Some data.
Proof.
  intros Hc. induction rem as [|rem IH]; intros i w data w' Hrun; simpl in Hrun.
  - discriminate.
  - unfold try_catch, bind at 1, readContract in Hrun.
    destruct (Hc (tick w) a) as [E|E].
    + rewrite E in Hrun.
      destruct (i =? retries - 1)%Z; [discriminate|].
      apply bind_inv in Hrun as (? & w1 & _ & Hrun). eauto.
    + destruct (rpc env (tick w) a) as [b|] eqn:Er.
      * unfold ret in Hrun. congruence.
      * destruct (i =? retries - 1)%Z; [discriminate|].
        apply bind_inv in Hrun as (? & w1 & _ & Hrun). eauto.
Qed.

Lemma fetch_steady a data w : steady env payload -> payload a = Some data ->
  Lib._fetchChunkData env a 3 w
  = (Return (Some data),
     {| tick := tick w + 0 + 1; draws := draws w; trace := EvRead a true :: trace w |}).
Proof.
  intros Hs Hp.
  apply (fetch_from_succeeds env a 3 0 3 0 w data); try lia.
  rewrite Hs. exact Hp.
Qed.

(** *** [_collectLeaves] *)

Lemma traverse_sound onFound : consistent env payload ->
  forall d t acc w r w',
    serves payload d t ->
    Lib.traverse env onFound d acc (root t) w = (Return r, w') ->
    r = acc ++ leaves_of t.
Proof.
  intros Hc. induction d as [|d IH]; intros t acc w r w' Hserves Hrun.
  - destruct t as [a|a cs]; [|contradiction]. simpl in *.
    apply bind_inv in Hrun as (? & w1 & _ & Hrun). unfold ret in Hrun. congruence.
  - destruct t as [a|a cs]; [contradiction|].
    destruct Hserves as [(data & Hdata & Hchildren) Hcs]. simpl in Hrun.
    apply bind_inv in Hrun as (got & w1 & Hfetch & Hrun).
    apply bind_inv in Hrun as (data' & w2 & Hdef & Hrun).
    destruct got as [got|]; [|discriminate]. unfold defined, ret in Hdef.
    injection Hdef as -> ->.
    apply (fetch_from_payload _ _ Hc) in Hfetch.
    assert (data' = data) by congruence. subst data'.
    rewrite Hchildren in Hrun.
    apply (for_of_sound _ root (fun acc t => acc ++ leaves_of t)) in Hrun.
    + rewrite Hrun. apply foldl_leaves.
    + eapply Forall_impl; [exact Hcs|]. intros; eapply IH; eauto.
Qed.

Lemma traverse_total onFound : steady env payload ->
  (forall n w, exists w', onFound n w = (Return tt, w')) ->
  forall d t acc w,
    serves payload d t ->
    exists w', Lib.traverse env onFound d acc (root t) w = (Return (acc ++ leaves_of t), w').
Proof.
  intros Hs Hfound. induction d as [|d IH]; intros t acc w Hserves.
  - destruct t as [a|a cs]; [|contradiction]. simpl.
    destruct (Hfound (length (acc ++ [a])) w) as [w1 H1].
    exists w1. erewrite bind_Return; eauto.
  - destruct t as [a|a cs]; [contradiction|].
    destruct Hserves as [(data & Hdata & Hchildren) Hcs]. simpl.
    erewrite bind_Return by (apply fetch_steady; eauto).
    erewrite bind_Return by reflexivity.
    rewrite Hchildren.
    edestruct (for_of_total (Lib.traverse env onFound d) root
                 (fun acc t => acc ++ leaves_of t) cs) as [w' Hrun].
    + eapply Forall_impl; [exact Hcs|]. intros; eapply IH; eauto.
    + exists w'. rewrite Hrun. now rewrite foldl_leaves.
Qed.

(** *** [collectLeafAddresses] *)

Lemma traverseNode_sound : consistent env payload ->
  forall d t st w r w',
    serves payload d t ->
    Seq.traverseNode env d st (root t) w = (Return r, w') ->
    r = (st.1 ++ numbered st.2 (leaves_of t), st.2 + length (leaves_of t)).
Proof.
  intros Hc. induction d as [|d IH]; intros t [ls i] w r w' Hserves Hrun.
  - destruct t as [a|a cs]; [|contradiction]. simpl in *.
    unfold ret in Hrun. injection Hrun as <- _.
    unfold numbered. simpl. repeat f_equal; lia.
  - destruct t as [a|a cs]; [contradiction|].
    destruct Hserves as [(data & Hdata & Hchildren) Hcs]. simpl in Hrun.
    apply catch_inv in Hrun as [Hrun|(e & w1 & _ & Hrun)].
    2:{ apply bind_inv in Hrun as (? & ? & _ & Hrun). discriminate. }
    apply bind_inv in Hrun as (got & w1 & Hfetch & Hrun).
    apply bind_inv in Hrun as (data' & w2 & Hdef & Hrun).
    destruct got as [got|]; [|discriminate]. unfold defined, ret in Hdef.
    injection Hdef as -> ->.
    apply (fetch_from_payload _ _ Hc) in Hfetch.
    assert (data' = data) by congruence. subst data'.
    rewrite Hchildren in Hrun.
    apply (for_of_sound _ root
             (fun (st : list Leaf * nat) t =>
                (st.1 ++ numbered st.2 (leaves_of t), st.2 + length (leaves_of t))))
      in Hrun.
    + rewrite Hrun. apply foldl_numbered.
    + eapply Forall_impl; [exact Hcs|]. intros; eapply IH; eauto.
Qed.

Lemma traverseNode_total : steady env payload ->
  forall d t st w,
    serves payload d t ->
    exists w', Seq.traverseNode env d st (root t) w
               = (Return (st.1 ++ numbered st.2 (leaves_of t),
                          st.2 + length (leaves_of t)), w').
Proof.
  intros Hs. induction d as [|d IH]; intros t [ls i] w Hserves.
  - destruct t as [a|a cs]; [|contradiction]. simpl.
    eexists. unfold ret, numbered. simpl. repeat f_equal; lia.
  - destruct t as [a|a cs]; [contradiction|].
    destruct Hserves as [(data & Hdata & Hchildren) Hcs]. simpl.
    edestruct (for_of_total (Seq.traverseNode env d) root
                 (fun (st : list Leaf * nat) t =>
                    (st.1 ++ numbered st.2 (leaves_of t), st.2 + length (leaves_of t)))
                 cs) as [w' Hrun].
    + eapply Forall_impl; [exact Hcs|]. intros; eapply IH; eauto.
    + exists w'. apply catch_Return.
      erewrite bind_Return by (apply fetch_steady; eauto).
      erewrite bind_Return by reflexivity.
      rewrite Hchildren, Hrun. now rewrite foldl_numbered.
Qed.
End Scan.

Lemma sample_served : serves SampleTree.payload 2 SampleTree.tree.
Proof.
  simpl. split; [eexists; split; reflexivity|].
  repeat constructor; eexists; split; reflexivity.
Qed.

Lemma sample_steady : steady SampleTree.env SampleTree.payload.
Proof. intros t a. reflexivity. Qed.

Lemma sample_consistent : consistent SampleTree.env SampleTree.payload.
Proof. intros t a. right. reflexivity. Qed.

(** C1: on a tree of depth [depth] whose internal nodes list their children,
    the scan, whenever it returns, returns exactly the leaves of the tree,
    depth first and left to right, whatever the shape of the tree:
    [_collectLeaves] as the array of leaf addresses (the index of a leaf is
    its position), [collectLeafAddresses] with the indices [0..L-1] assigned
    in that order.  When every read is served, the scan does return. *)
Theorem scan_enumerates_leaves (env : Env) (payload : Address -> option bytes)
    (depth : nat) (t : Tree) (onFound : nat -> M World unit) (w : World) :
  serves payload depth t ->
  consistent env payload ->
  let L := length (leaves_of t) in
  (forall r w', Lib._collectLeaves env (root t) depth onFound w = (Return r, w') ->
                r = leaves_of t) /\
  (forall r w', Seq.collectLeafAddresses env (root t) depth w = (Return r, w') ->
                length r = L /\
                l_index <$> r = seq 0 L /\
                l_address <$> r = leaves_of t) /\
  (steady env payload ->
   (forall n w, exists w', onFound n w = (Return tt, w')) ->
   (exists w', Lib._collectLeaves env (root t) depth onFound w = (Return (leaves_of t), w')) /\
   (exists w', Seq.collectLeafAddresses env (root t) depth w
               = (Return (numbered 0 (leaves_of t)), w'))).
Proof.
  intros Hserves Hc L. split; [|split].
  - intros r w' Hrun. unfold Lib._collectLeaves in Hrun.
    eapply traverse_sound in Hrun; eauto.
  - intros r w' Hrun. unfold Seq.collectLeafAddresses in Hrun.
    apply bind_inv in Hrun as (st & w1 & Hrun & Hret).
    eapply traverseNode_sound in Hrun; eauto. subst st.
    unfold ret in Hret. injection Hret as <- _. simpl.
    rewrite numbered_index, numbered_address.
    repeat split. unfold numbered. now rewrite length_imap.
  - intros Hs Hfound. split.
    + destruct (traverse_total env payload onFound Hs Hfound depth t [] w Hserves)
        as [w' Hrun].
      exists w'. exact Hrun.
    + destruct (traverseNode_total env payload Hs depth t ([], 0) w Hserves)
        as [w' Hrun].
      exists w'. unfold Seq.collectLeafAddresses.
      erewrite bind_Return by exact Hrun. reflexivity.
Qed.

Lemma scan_enumerates_leaves_witness :
  serves SampleTree.payload 2 SampleTree.tree /\
  consistent SampleTree.env SampleTree.payload /\
  exists w',
    Seq.collectLeafAddresses SampleTree.env "0xRoot" 2 world0
    = (Return [ {| l_index := 0; l_address := SampleTree.addr x11 |};
                {| l_index := 1; l_address := SampleTree.addr x12 |};
                {| l_index := 2; l_address := SampleTree.addr x21 |} ], w').
Proof.
  split; [exact sample_served|]. split; [exact sample_consistent|].
  destruct (scan_enumerates_leaves SampleTree.env SampleTree.payload 2 SampleTree.tree
              (fun _ => ret tt) world0 sample_served sample_consistent)
    as (_ & _ & Htotal).
  destruct (Htotal sample_steady) as [_ Hseq].
  - intros n w. eexists. reflexivity.
  - exact Hseq.
Defined.

(** Any payload is a run of full 20-byte records followed by fewer than 20
    trailing bytes. *)
Lemma records_of (data : bytes) :
  exists recs tail,
    data = concat recs ++ tail /\
    Forall (fun r => length r = 20) recs /\
    length tail = length data mod 20.
Proof.
  remember (length data) as n eqn:Hn. revert data Hn.
  induction n as [n IH] using lt_wf_ind. intros data Hn.
  destruct (Nat.lt_ge_cases n 20) as [Hlt|Hge].
  - exists [], data. split; [reflexivity|]. split; [constructor|].
    rewrite Nat.mod_small; lia.
  - destruct (IH (n - 20) ltac:(lia) (drop 20 data)) as (recs & tail & Hd & Hall & Ht).
    { rewrite length_drop. lia. }
    exists (take 20 data :: recs), tail. split; [|split].
    + cbn [concat]. rewrite <- app_assoc, <- Hd. now rewrite take_drop.
    + constructor; [|exact Hall]. rewrite length_take. lia.
    + rewrite Ht. replace n with ((n - 20) + 1 * 20) at 2 by lia.
      now rewrite Nat.Div0.mod_add.
Qed.

Lemma malformed_served : serves Malformed.payload 1 Malformed.tree.
Proof. simpl. split; [eexists; split; reflexivity|]. repeat constructor. Qed.

Lemma malformed_steady : steady Malformed.env Malformed.payload.
Proof. intros t a. reflexivity. Qed.

(** C6 fails on the code: the scan of a node whose payload is 25 bytes long
    raises nothing and returns two leaves, the second one named by the five
    trailing bytes. *)
Lemma malformed_node_is_scanned :
  length Malformed.payload25 = 25 /\
  Lib._collectLeaves Malformed.env "0xRoot" 1 (fun _ => ret tt) world0
  = (Return ["0x0101010101010101010101010101010101010101"; "0x0202020202"],
     {| tick := 1; draws := 0; trace := [EvRead "0xRoot" true] |}) /\
  Seq.collectLeafAddresses Malformed.env "0xRoot" 1 world0
  = (Return [ {| l_index := 0; l_address := "0x0101010101010101010101010101010101010101" |};
              {| l_index := 1; l_address := "0x0202020202" |} ],
     {| tick := 1; draws := 0; trace := [EvRead "0xRoot" true] |}).
Proof. repeat split. Qed.

(** C6, amended: a payload whose length is not a multiple of 20 is split into
    its full 20-byte records followed by one more child address made of the
    trailing bytes; no check rejects it, and the scan of a tree with such
    nodes returns its leaves like any other when every read is served. *)
Theorem short_record_is_a_child (env : Env) (payload : Address -> option bytes)
    (depth : nat) (t : Tree) (a : Address) (data : bytes)
    (onFound : nat -> M World unit) (w : World) :
  serves payload depth t ->
  steady env payload ->
  (forall n w, exists w', onFound n w = (Return tt, w')) ->
  payload a = Some data ->
  length data mod 20 <> 0 ->
  (exists recs tail,
     data = concat recs ++ tail /\
     Forall (fun r => length r = 20) recs /\
     length tail = length data mod 20 /\
     childAddrs data = (toHex <$> recs) ++ [toHex tail]) /\
  (exists w', Lib._collectLeaves env (root t) depth onFound w = (Return (leaves_of t), w')) /\
  (exists w', Seq.collectLeafAddresses env (root t) depth w
              = (Return (numbered 0 (leaves_of t)), w')).
Proof.
  intros Hserves Hs Hfound Hdata Hmod. split; [|split].
  - destruct (records_of data) as (recs & tail & Hd & Hall & Ht).
    exists recs, tail. repeat split; try assumption.
    rewrite Hd at 1. rewrite childAddrs_records; [|exact Hall|].
    + destruct (decide (tail = [])) as [->|_]; [|reflexivity].
      symmetry in Ht. contradiction.
    + rewrite Ht. apply Nat.mod_upper_bound. lia.
  - exact (traverse_total env payload onFound Hs Hfound depth t [] w Hserves).
  - destruct (traverseNode_total env payload Hs depth t ([], 0) w Hserves) as [w' Hrun].
    exists w'. unfold Seq.collectLeafAddresses.
    erewrite bind_Return by exact Hrun. reflexivity.
Qed.

Lemma short_record_is_a_child_witness :
  serves Malformed.payload 1 Malformed.tree /\
  steady Malformed.env Malformed.payload /\
  Malformed.payload "0xRoot" = Some Malformed.payload25 /\
  length Malformed.payload25 mod 20 <> 0 /\
  exists w',
    Lib._collectLeaves Malformed.env "0xRoot" 1 (fun _ => ret tt) world0
    = (Return (leaves_of Malformed.tree), w').
Proof.
  assert (Hmod : length Malformed.payload25 mod 20 <> 0) by (vm_compute; lia).
  split; [exact malformed_served|]. split; [exact malformed_steady|].
  split; [reflexivity|]. split; [exact Hmod|].
  refine (proj1 (proj2 (short_record_is_a_child Malformed.env Malformed.payload 1
            Malformed.tree "0xRoot" Malformed.payload25 (fun _ => ret tt) world0
            malformed_served malformed_steady _ eq_refl Hmod))).
  intros n w. eexists. reflexivity.
Defined.

(** ** Unreadable internal nodes *)

Section ScanAbort.
Context (env : Env) {Acc : Type}.
(** The recursive traversal of a scanner: [Lib.traverse] or
    [Seq.traverseNode]. *)
Context (trav : nat -> Acc -> Address -> M World Acc).

(** Its internal-node case lets a failure through, be it the node's own
    fetch or the traversal of its children, without issuing another read. *)
Hypothesis fetch_fails : forall d acc a w e w1,
  Lib._fetchChunkData env a 3 w = (Throw e, w1) ->
  exists w2, trav (S d) acc a w = (Throw e, w2) /\ tick w2 = tick w1.
Hypothesis children_fail : forall d acc a w data w1 e w2,
  Lib._fetchChunkData env a 3 w = (Return (Some data), w1) ->
  for_of (trav d) (childAddrs data) acc w1 = (Throw e, w2) ->
  exists w3, trav (S d) acc a w = (Throw e, w3) /\ tick w3 = tick w2.

#[local] Abbreviation visits := (visits env trav).

Lemma visits_abort d acc a w d' a' w' e w'' :
  visits d acc a w (S d') a' w' ->
  Lib._fetchChunkData env a' 3 w' = (Throw e, w'') ->
  exists wf, trav d acc a w = (Throw e, wf) /\ tick wf = tick w''.
Proof.
  intros Hv. remember (S d') as k eqn:Hk. revert Hk.
  induction Hv as [d acc a w|d acc a w data w1 pre c post acc2 w2 k a' w' Hf Hc Hpre Hv IH];
    intros Hk Hfail.
  - subst d. eapply fetch_fails; eauto.
  - destruct (IH Hk Hfail) as (wc & Hchild & Htick).
    destruct (children_fail d acc a w data w1 e wc Hf) as (w3 & H3 & Ht3).
    + rewrite Hc, for_of_app. erewrite bind_Return by exact Hpre.
      simpl. erewrite bind_Throw by exact Hchild. reflexivity.
    + exists w3. split; [exact H3|congruence].
Qed.
End ScanAbort.

Lemma traverse_fetch_fails env onFound d acc a w e w1 :
  Lib._fetchChunkData env a 3 w = (Throw e, w1) ->
  exists w2, Lib.traverse env onFound (S d) acc a w = (Throw e, w2) /\ tick w2 = tick w1.
Proof.
  intros H. exists w1. split; [|reflexivity].
  simpl. erewrite bind_Throw by exact H. reflexivity.
Qed.

Lemma traverse_children_fail env onFound d acc a w data w1 e w2 :
  Lib._fetchChunkData env a 3 w = (Return (Some data), w1) ->
  for_of (Lib.traverse env onFound d) (childAddrs data) acc w1 = (Throw e, w2) ->
  exists w3, Lib.traverse env onFound (S d) acc a w = (Throw e, w3) /\ tick w3 = tick w2.
Proof.
  intros H1 H2. exists w2. split; [|reflexivity].
  simpl. erewrite bind_Return by exact H1.
  erewrite bind_Return by reflexivity. exact H2.
Qed.

Lemma traverseNode_fetch_fails env d st a w e w1 :
  Lib._fetchChunkData env a 3 w = (Throw e, w1) ->
  exists w2, Seq.traverseNode env (S d) st a w = (Throw e, w2) /\ tick w2 = tick w1.
Proof.
  intros H. eexists. split.
  - simpl. erewrite catch_Throw; [reflexivity|].
    erewrite bind_Throw by exact H. reflexivity.
  - reflexivity.
Qed.

Lemma traverseNode_children_fail env d st a w data w1 e w2 :
  Lib._fetchChunkData env a 3 w = (Return (Some data), w1) ->
  for_of (Seq.traverseNode env d) (childAddrs data) st w1 = (Throw e, w2) ->
  exists w3, Seq.traverseNode env (S d) st a w = (Throw e, w3) /\ tick w3 = tick w2.
Proof.
  intros H1 H2. eexists. split.
  - simpl. erewrite catch_Throw; [reflexivity|].
    erewrite bind_Return by exact H1.
    erewrite bind_Return by reflexivity. exact H2.
  - reflexivity.
Qed.

(** C7: when the scan gets to an internal node whose read fails on all three
    attempts of its budget, the failure of the last attempt leaves
    [_collectLeaves] and [collectLeafAddresses] as an exception, so no leaf
    list is returned, and no further read is issued; [load] ends on its
    error surface with that failure, without having started to load
    leaves. *)
Theorem unreadable_node_aborts_scan (env : Env) (onFound : nat -> M World unit)
    (master rootChunk : Address) (depth totalSize : nat) (w0 : World)
    (d' : nat) (a' : Address) (w' : World) :
  (forall j, j < 3 -> rpc env (tick w' + j) a' = None) ->
  let failure := RpcError a' (tick w' + 2) in
  (forall w,
     visits env (Lib.traverse env onFound) depth [] rootChunk w (S d') a' w' ->
     exists wf, Lib._collectLeaves env rootChunk depth onFound w = (Throw failure, wf) /\
                tick wf = tick w' + 3) /\
  (forall w,
     visits env (Seq.traverseNode env) depth ([], 0) rootChunk w (S d') a' w' ->
     exists wf, Seq.collectLeafAddresses env rootChunk depth w = (Throw failure, wf) /\
                tick wf = tick w' + 3) /\
  (forall index_euc_kr w,
     master <> "" ->
     getCurrentSiteInfo env master w0
       = (Return {| rootChunk := rootChunk; depth := depth; totalSize := totalSize |}, w) ->
     visits env (Lib.traverse env (fun count => emit (EvProgress "scan" count None)))
       depth [] rootChunk w (S d') a' w' ->
     exists wf, Lib.load env index_euc_kr master w0 = (Return (ErrorShown failure), wf) /\
                tick wf = tick w' + 3).
Proof.
  intros Hdead failure.
  pose proof (fetch_from_exhausted env a' 3 3 0 w' ltac:(lia) ltac:(lia) Hdead) as Hfetch.
  change (Lib._fetchChunkData_from env 3 (Z.of_nat 0) 3 a' w')
    with (Lib._fetchChunkData env a' 3 w') in Hfetch.
  replace (tick w' + 3 - 1) with (tick w' + 2) in Hfetch by lia.
  split; [|split].
  - intros w Hv.
    destruct (visits_abort env (Lib.traverse env onFound)
                (traverse_fetch_fails env onFound) (traverse_children_fail env onFound)
                _ _ _ _ _ _ _ _ _ Hv Hfetch) as (wf & Hrun & Ht).
    exists wf. split; [exact Hrun|exact Ht].
  - intros w Hv.
    destruct (visits_abort env (Seq.traverseNode env)
                (traverseNode_fetch_fails env) (traverseNode_children_fail env)
                _ _ _ _ _ _ _ _ _ Hv Hfetch) as (wf & Hrun & Ht).
    exists wf. split; [|exact Ht].
    unfold Seq.collectLeafAddresses. erewrite bind_Throw by exact Hrun. reflexivity.
  - intros index_euc_kr w Hmaster Hinfo Hv.
    destruct (visits_abort env _
                (traverse_fetch_fails env _) (traverse_children_fail env _)
                _ _ _ _ _ _ _ _ _ Hv Hfetch) as (wf & Hrun & Ht).
    exists wf. split; [|exact Ht].
    unfold Lib.load. destruct (String.eqb_spec master ""); [contradiction|].
    erewrite catch_Throw; [reflexivity|].
    erewrite bind_Return by exact Hinfo. simpl.
    unfold Lib._collectLeaves. erewrite bind_Throw by exact Hrun. reflexivity.
Qed.

Lemma unreadable_node_aborts_scan_witness :
  let a' := SampleTree.addr x02 in
  let w' := {| tick := 2; draws := 0;
               trace := [EvRead (SampleTree.addr x01) true; EvRead "0xRoot" true] |} in
  (forall j, j < 3 -> rpc DeadNode.env (tick w' + j) a' = None) /\
  exists wf,
    Lib._collectLeaves DeadNode.env "0xRoot" 2 (fun _ => ret tt) world0
    = (Throw (RpcError a' 4), wf) /\ tick wf = 5.
Proof.
  intros a' w'.
  assert (Hdead : forall j, j < 3 -> rpc DeadNode.env (tick w' + j) a' = None).
  { intros j _. reflexivity. }
  split; [exact Hdead|].
  refine (proj1 (unreadable_node_aborts_scan DeadNode.env (fun _ => ret tt)
                   "0xMaster" "0xRoot" 2 6 world0 0 a' w' Hdead) world0 _).
  eapply (visits_child DeadNode.env _ 1 [] "0xRoot" world0
            (replicate 20 x01 ++ replicate 20 x02) _ [SampleTree.addr x01] a' []).
  - reflexivity.
  - reflexivity.
  - reflexivity.
  - apply visits_here.
Defined.

(** ** Encoding detection *)

Lemma starts_with_ci_spec pat s :
  starts_with_ci pat s = true <-> exists m rest, s = m ++ rest /\ ci_eq m pat.
Proof.
  revert s. induction pat as [|p pat IH]; intros s; simpl.
  - split; [|reflexivity]. intros _. exists [], s. split; reflexivity.
  - destruct s as [|x s].
    + split; [discriminate|]. intros (m & rest & Hs & Hm).
      destruct m; [discriminate Hm|discriminate Hs].
    + rewrite andb_true_iff, N.eqb_eq, IH. split.
      * intros (Hx & m & rest & -> & Hm). exists (x :: m), rest.
        split; [reflexivity|]. unfold ci_eq in *.
        rewrite !fmap_cons, Hm, Hx. reflexivity.
      * intros (m & rest & Hs & Hm). destruct m as [|y m]; [discriminate Hm|].
        injection Hs as -> ->. unfold ci_eq in Hm. rewrite !fmap_cons in Hm.
        injection Hm as Hy Hm.
        split; [congruence|]. exists m, rest. split; [reflexivity|exact Hm].
Qed.

Lemma starts_with_ci_app p1 p2 s :
  starts_with_ci (p1 ++ p2) s
  = starts_with_ci p1 s && starts_with_ci p2 (drop (length p1) s).
Proof.
  revert s. induction p1 as [|p p1 IH]; intros s; simpl.
  - reflexivity.
  - destruct s as [|x s]; [reflexivity|]. simpl. rewrite IH. now rewrite andb_assoc.
Qed.

Lemma alias_at_spec aliases s :
  is_Some (alias_at aliases s)
  <-> exists alias, alias ∈ aliases /\ starts_with_ci (code_units alias) s = true.
Proof.
  induction aliases as [|a aliases IH]; simpl.
  - split; [intros [? ?]; discriminate|]. intros (? & Hin & _). inversion Hin.
  - destruct (starts_with_ci (code_units a) s) eqn:E.
    + split; [|eauto]. intros _. exists a. split; [constructor|exact E].
    + rewrite IH. split.
      * intros (alias & Hin & H). exists alias. split; [now constructor|exact H].
      * intros (alias & Hin & H). inversion Hin; subst; [congruence|eauto].
Qed.

Lemma canonicalize_small c q : (c < 65)%N -> canonicalize q = c <-> q = c.
Proof.
  intros Hc. unfold canonicalize, in_range.
  destruct (N.leb_spec 97 q), (N.leb_spec q 122); simpl; lia.
Qed.

Lemma is_quote_spec q s :
  is_quote q = true <->
  starts_with_ci [34%N] (q :: s) = true \/ starts_with_ci [39%N] (q :: s) = true.
Proof.
  unfold is_quote. cbn [starts_with_ci].
  rewrite orb_true_iff, !andb_true_r, !N.eqb_eq.
  change (canonicalize 34) with 34%N. change (canonicalize 39) with 39%N.
  pose proof (canonicalize_small 34 q ltac:(lia)).
  pose proof (canonicalize_small 39 q ltac:(lia)).
  split; intros [E|E]; [left|right|left|right];
    first [ symmetry; apply H; exact E | symmetry; apply H0; exact E
          | apply H; symmetry; exact E | apply H0; symmetry; exact E ].
Qed.

Lemma quote_head c s :
  c = 34%N \/ c = 39%N ->
  starts_with_ci [c] s = true <-> exists r', s = c :: r'.
Proof.
  intros Hc. split.
  - destruct s as [|q r']; [discriminate|]. cbn [starts_with_ci].
    rewrite andb_true_r, N.eqb_eq. intros E. exists r'. f_equal.
    assert (Hcc : canonicalize c = c) by (destruct Hc as [-> | ->]; reflexivity).
    rewrite Hcc in E. symmetry in E.
    assert (Hlt : (c < 65)%N) by (destruct Hc; subst; lia).
    exact (proj1 (canonicalize_small c q Hlt) E).
  - intros [r' ->]. cbn [starts_with_ci]. now rewrite N.eqb_refl.
Qed.

Lemma match_here_spec s :
  is_Some (match_here s) <->
  exists quote alias,
    quote ∈ [[]; [34%N]; [39%N]] /\ alias ∈ charset_aliases /\
    starts_with_ci (code_units "charset=" ++ quote ++ code_units alias) s = true.
Proof.
  unfold match_here.
  set (kw := code_units "charset=").
  assert (Hlen : length kw = 8) by reflexivity.
  split.
  - destruct (starts_with_ci kw s) eqn:Ekw; [|intros [? ?]; discriminate].
    assert (Hplain : is_Some (alias_at charset_aliases (drop 8 s)) ->
      exists quote alias,
        quote ∈ [[]; [34%N]; [39%N]] /\ alias ∈ charset_aliases /\
        starts_with_ci (kw ++ quote ++ code_units alias) s = true).
    { intros H. apply alias_at_spec in H as (alias & Hin & Ha).
      exists [], alias. split; [constructor|]. split; [exact Hin|].
      rewrite starts_with_ci_app, Ekw, Hlen. exact Ha. }
    destruct (drop 8 s) as [|q r'] eqn:Edrop; [intros [? ?]; discriminate|].
    destruct (is_quote q) eqn:Eq; [|exact Hplain].
    destruct (alias_at charset_aliases r') as [cap|] eqn:Ealias; [|exact Hplain].
    intros _.
    assert (Hsome : is_Some (alias_at charset_aliases r')) by (rewrite Ealias; eauto).
    apply alias_at_spec in Hsome as (alias & Hin & Ha).
    unfold is_quote in Eq. rewrite orb_true_iff, !N.eqb_eq in Eq.
    exists [q], alias. split; [|split; [exact Hin|]].
    + destruct Eq as [-> | ->]; [constructor; constructor|do 2 constructor; constructor].
    + rewrite starts_with_ci_app, Ekw, Hlen, Edrop.
      rewrite (starts_with_ci_app [q]).
      rewrite (proj2 (quote_head q (q :: r') Eq)) by eauto. exact Ha.
  - intros (quote & alias & Hq & Hin & H).
    rewrite starts_with_ci_app, andb_true_iff, Hlen in H. destruct H as [Hkw H].
    rewrite Hkw.
    assert (Hquoted : forall c, c = 34%N \/ c = 39%N ->
              starts_with_ci ([c] ++ code_units alias) (drop 8 s) = true ->
              is_Some match drop 8 s with
                      | [] => None
                      | q :: r' =>
                          if is_quote q
                          then match alias_at charset_aliases r' with
                               | Some cap => Some cap
                               | None => alias_at charset_aliases (drop 8 s)
                               end
                          else alias_at charset_aliases (drop 8 s)
                      end).
    { intros c Hc Hs. rewrite (starts_with_ci_app [c]) in Hs.
      apply andb_true_iff in Hs as [Hhead Ha].
      apply (quote_head c _ Hc) in Hhead as [r' Er]. rewrite Er in *.
      assert (is_quote c = true) as ->.
      { unfold is_quote. destruct Hc as [-> | ->]; reflexivity. }
      assert (Hsome : is_Some (alias_at charset_aliases r')).
      { apply alias_at_spec. exists alias. split; [exact Hin|exact Ha]. }
      destruct Hsome as [cap ->]. eauto. }
    assert (Hplain : starts_with_ci (code_units alias) (drop 8 s) = true ->
              is_Some match drop 8 s with
                      | [] => None
                      | q :: r' =>
                          if is_quote q
                          then match alias_at charset_aliases r' with
                               | Some cap => Some cap
                               | None => alias_at charset_aliases (drop 8 s)
                               end
                          else alias_at charset_aliases (drop 8 s)
                      end).
    { intros Ha.
      assert (Hs : is_Some (alias_at charset_aliases (drop 8 s))).
      { apply alias_at_spec. eauto. }
      destruct (drop 8 s) as [|q r']; [destruct Hs as [? Hs]; discriminate Hs|].
      destruct (is_quote q); [|exact Hs].
      destruct (alias_at charset_aliases r'); [eauto|exact Hs]. }
    inversion Hq as [|? ? ? Hq1]; subst; [apply Hplain; exact H|].
    inversion Hq1 as [|? ? ? Hq2]; subst; [apply (Hquoted 34%N); auto|].
    inversion Hq2 as [|? ? ? Hq3]; subst; [apply (Hquoted 39%N); auto|].
    inversion Hq3.
Qed.

Lemma charset_match_spec s :
  is_Some (charset_match s) <-> exists pre suf, s = pre ++ suf /\ is_Some (match_here suf).
Proof.
  induction s as [|x s IH]; cbn [charset_match].
  - destruct (match_here []) as [cap|] eqn:E.
    + split; [|eauto]. intros _. exists [], []. rewrite E. eauto.
    + split; [intros [? ?]; discriminate|].
      intros (pre & suf & Hs & Hm). destruct pre, suf; try discriminate Hs.
      rewrite E in Hm. exact Hm.
  - destruct (match_here (x :: s)) as [cap|] eqn:E.
    + split; [|eauto]. intros _. exists [], (x :: s). rewrite E. eauto.
    + rewrite IH. split.
      * intros (pre & suf & -> & Hm). exists (x :: pre), suf. eauto.
      * intros (pre & suf & Hs & Hm). destruct pre as [|y pre].
        -- simpl in Hs. subst suf. rewrite E in Hm. destruct Hm; discriminate.
        -- injection Hs as -> ->. eauto.
Qed.

(** The pattern finds a match exactly in the texts that declare a regional
    charset. *)
Lemma charset_match_declares text :
  is_Some (charset_match text) <-> declares_charset text.
Proof.
  rewrite charset_match_spec. unfold declares_charset. split.
  - intros (pre & suf & -> & Hm).
    apply match_here_spec in Hm as (quote & alias & Hq & Hin & Hs).
    apply starts_with_ci_spec in Hs as (mid & post & -> & Hmid).
    exists pre, mid, post, quote, alias. auto.
  - intros (pre & mid & post & quote & alias & -> & Hq & Hin & Hmid).
    exists pre, (mid ++ post). split; [reflexivity|].
    apply match_here_spec. exists quote, alias. split; [exact Hq|]. split; [exact Hin|].
    apply starts_with_ci_spec. eauto.
Qed.

Lemma not_bom (b : byte) (bs : bytes) (X Y : bytes -> Text) :
  is_ascii_byte b = true ->
  match b :: bs with
  | xef :: xbb :: xbf :: bs' => X bs'
  | _ => Y (b :: bs)
  end = Y (b :: bs).
Proof. destruct b; try reflexivity; discriminate. Qed.

Lemma utf8_run_ascii (bs : bytes) :
  Forall (fun b => is_ascii_byte b = true) bs -> utf8_run utf8_init bs = bN <$> bs.
Proof.
  induction 1 as [|b bs Hb _ IH]; [reflexivity|].
  cbn [utf8_run]. unfold utf8_step. cbn [u_needed utf8_init N.eqb].
  unfold utf8_lead, in_range. unfold is_ascii_byte in Hb.
  apply N.ltb_lt in Hb.
  destruct (N.leb_spec 0 (bN b)); [|lia].
  destruct (N.leb_spec (bN b) 127); [|lia].
  cbn [andb]. fold utf8_init. rewrite IH. reflexivity.
Qed.

Lemma decode_utf8_ascii (bs : bytes) :
  Forall (fun b => is_ascii_byte b = true) bs -> decode_utf8 bs = bN <$> bs.
Proof.
  intros H. unfold decode_utf8. destruct H as [|b bs Hb H]; [reflexivity|].
  rewrite (not_bom b bs (utf8_run utf8_init) (utf8_run utf8_init) Hb).
  apply utf8_run_ascii. now constructor.
Qed.

Lemma decode_euc_kr_ascii index (bs : bytes) :
  Forall (fun b => is_ascii_byte b = true) bs -> decode_euc_kr index bs = bN <$> bs.
Proof.
  unfold decode_euc_kr. induction 1 as [|b bs Hb _ IH]; [reflexivity|].
  cbn [euckr_run]. unfold euckr_step. cbn [N.eqb].
  unfold euckr_plain, in_range. unfold is_ascii_byte in Hb.
  apply N.ltb_lt in Hb.
  destruct (N.leb_spec 0 (bN b)); [|lia].
  destruct (N.leb_spec (bN b) 127); [|lia].
  cbn [andb]. rewrite IH. reflexivity.
Qed.

Lemma win1252_ascii (b : byte) : (bN b < 128)%N -> win1252 b = bN b.
Proof.
  intros H. unfold win1252. destruct (N.leb_spec 128 (bN b)); [lia|reflexivity].
Qed.

Lemma win1252_high_spec (b : byte) :
  (128 <=? bN b)%N = true -> (128 <=? win1252 b)%N = true.
Proof. destruct b; exact (fun H => H). Qed.

(** On a pattern character, which is ASCII, the matcher's comparison of the
    decoded byte is the comparison of the byte up to letter case. *)
Lemma same_letter_canonicalize (b c : byte) :
  (bN c < 128)%N ->
  same_letter b c <-> canonicalize (win1252 b) = canonicalize (bN c).
Proof.
  intros Hc. unfold same_letter. change (Byte.to_N b) with (bN b).
  change (Byte.to_N c) with (bN c).
  destruct (N.ltb_spec (bN b) 128) as [Hb|Hb].
  - rewrite (win1252_ascii b Hb). unfold canonicalize, fold_case, in_range.
    destruct (N.leb_spec 65 (bN b)), (N.leb_spec (bN b) 90),
      (N.leb_spec 97 (bN b)), (N.leb_spec (bN b) 122),
      (N.leb_spec 65 (bN c)), (N.leb_spec (bN c) 90),
      (N.leb_spec 97 (bN c)), (N.leb_spec (bN c) 122); cbn [andb]; lia.
  - assert (Hw : (128 <= win1252 b)%N).
    { apply N.leb_le, win1252_high_spec, N.leb_le. exact Hb. }
    unfold canonicalize, fold_case, in_range.
    destruct (N.leb_spec 65 (bN b)), (N.leb_spec (bN b) 90),
      (N.leb_spec 97 (win1252 b)), (N.leb_spec (win1252 b) 122),
      (N.leb_spec 65 (bN c)), (N.leb_spec (bN c) 90),
      (N.leb_spec 97 (bN c)), (N.leb_spec (bN c) 122); cbn [andb]; lia.
Qed.

Lemma same_letters_ci_eq (pat : bytes) :
  Forall (fun c => (bN c < 128)%N) pat ->
  forall mid, Forall2 same_letter mid pat <-> ci_eq (win1252 <$> mid) (bN <$> pat).
Proof.
  unfold ci_eq. induction 1 as [|c pat Hc _ IH]; intros mid.
  - split.
    + intros H. inversion H. reflexivity.
    + destruct mid; [constructor|discriminate].
  - destruct mid as [|b mid].
    + split; [intros H; inversion H|discriminate].
    + rewrite !fmap_cons. split.
      * intros H. inversion H as [|? ? ? ? Hb Hrest]; subst.
        f_equal; [now apply same_letter_canonicalize|now apply IH].
      * intros H. injection H as Hb Hrest.
        constructor; [now apply same_letter_canonicalize|now apply IH].
Qed.

Lemma decode_ascii_fmap (bs : bytes) : decode_ascii bs = win1252 <$> bs.
Proof. unfold decode_ascii. induction bs as [|b bs IH]; [reflexivity|]. cbn. now rewrite IH. Qed.

Lemma code_units_fmap (w : string) : code_units w = bN <$> list_byte_of_string w.
Proof.
  unfold code_units. induction (list_byte_of_string w) as [|b bs IH]; [reflexivity|].
  cbn. now rewrite IH.
Qed.

(** The pattern is made of ASCII bytes. *)
Lemma pattern_ascii (quote : bytes) (alias : string) :
  quote ∈ [[]; [x22]; [x27]] ->
  alias ∈ ["euc-kr"; "cp949"; "ks_c_5601-1987"] ->
  Forall (fun c => (bN c < 128)%N)
    (list_byte_of_string "charset=" ++ quote ++ list_byte_of_string alias).
Proof.
  intros Hq Ha.
  repeat (apply elem_of_cons in Hq as [->|Hq]); [| | |now apply elem_of_nil in Hq];
    (repeat (apply elem_of_cons in Ha as [->|Ha]); [| | |now apply elem_of_nil in Ha]);
    apply Forall_forall; intros c Hc; apply N.ltb_lt;
    revert c Hc; apply Forall_forall; vm_compute; repeat constructor.
Qed.

(** A declaration, as stated on the bytes of the buffer, is what the pattern
    finds in the preview. *)
Lemma declares_regional_charset_preview (data : bytes) :
  declares_regional_charset data <-> declares_charset (decode_ascii (take 2000 data)).
Proof.
  rewrite decode_ascii_fmap. unfold declares_regional_charset, declares_charset. split.
  - intros (pre & mid & post & quote & alias & -> & Hq & Ha & Hm).
    exists (win1252 <$> pre), (win1252 <$> mid), (win1252 <$> post), (bN <$> quote), alias.
    split; [now rewrite !fmap_app|]. split.
    { repeat (apply elem_of_cons in Hq as [->|Hq]); [| | |now apply elem_of_nil in Hq];
        cbn; repeat constructor. }
    split; [exact Ha|].
    rewrite !code_units_fmap, <- !fmap_app.
    apply same_letters_ci_eq; [now apply pattern_ascii|exact Hm].
  - intros (pre' & mid' & post' & quote' & alias & Heq & Hq & Ha & Hm).
    apply fmap_app_inv in Heq as (pre & rest & -> & Hrest & Hdata).
    symmetry in Hrest.
    apply fmap_app_inv in Hrest as (mid & post & -> & -> & ->).
    assert (Hquote : exists quote, quote ∈ [[]; [x22]; [x27]] /\ quote' = bN <$> quote).
    { repeat (apply elem_of_cons in Hq as [->|Hq]); [| | |now apply elem_of_nil in Hq].
      - exists []. split; [repeat constructor|reflexivity].
      - exists [x22]. split; [repeat constructor|reflexivity].
      - exists [x27]. split; [repeat constructor|reflexivity]. }
    destruct Hquote as (quote & Hq' & ->).
    exists pre, mid, post, quote, alias.
    split; [assumption|]. split; [exact Hq'|]. split; [exact Ha|].
    rewrite !code_units_fmap, <- !fmap_app in Hm.
    apply same_letters_ci_eq in Hm; [exact Hm|now apply pattern_ascii].
Qed.

(** C8: [_decodeContent] looks at the first 2000 bytes, read as ASCII, for
    [charset=] followed by an optional quote and one of [euc-kr], [cp949],
    [ks_c_5601-1987], in any letter case; when they hold such a declaration
    the whole buffer is decoded as EUC-KR, otherwise the whole buffer is
    decoded as UTF-8; on a buffer of ASCII bytes the two decoders, and hence
    both paths, give the same text. *)
Theorem decode_follows_declared_charset (index_euc_kr : N -> option N) (data : bytes) :
  (declares_regional_charset data ->
   Lib._decodeContent index_euc_kr data = decode_euc_kr index_euc_kr data) /\
  (~ declares_regional_charset data ->
   Lib._decodeContent index_euc_kr data = decode_utf8 data) /\
  (Forall (fun b => is_ascii_byte b = true) data ->
   decode_euc_kr index_euc_kr data = decode_utf8 data /\
   Lib._decodeContent index_euc_kr data = bN <$> data).
Proof.
  set (preview := decode_ascii (take 2000 data)).
  assert (Hprev : decode_ascii (slice data 0 2000) = preview).
  { unfold preview, slice. now rewrite drop_0. }
  unfold Lib._decodeContent. rewrite Hprev.
  split; [|split].
  - intros H. apply declares_regional_charset_preview in H. fold preview in H.
    apply charset_match_declares in H as [cap ->]. reflexivity.
  - intros H. destruct (charset_match preview) as [cap|] eqn:E; [|reflexivity].
    exfalso. apply H, declares_regional_charset_preview. fold preview.
    apply charset_match_declares. rewrite E. eauto.
  - intros H. rewrite decode_euc_kr_ascii, decode_utf8_ascii by exact H.
    split; [reflexivity|]. now destruct (charset_match preview).
Qed.

(** A page head declaring [EUC-KR] in capitals takes the regional path; a
    declaration that starts after the first 2000 bytes is not seen, and the
    buffer is decoded as UTF-8; a buffer of ASCII bytes reads the same either
    way. *)
Lemma decode_follows_declared_charset_witness :
  let index := fun p => if (p =? 9026)%N then Some 0xAC00%N else None in
  let declared := list_byte_of_string "<meta charset='EUC-KR'>" ++ [xb0; xa1] in
  let late := replicate 2000 x20 ++ list_byte_of_string "charset=euc-kr" ++ [xea; xb0; x80] in
  let ascii := list_byte_of_string "<p>cp949</p>" in
  (declares_regional_charset declared /\
   Lib._decodeContent index declared = decode_euc_kr index declared) /\
  (~ declares_regional_charset late /\
   Lib._decodeContent index late = decode_utf8 late) /\
  (Forall (fun b => is_ascii_byte b = true) ascii /\
   decode_euc_kr index ascii = decode_utf8 ascii /\
   Lib._decodeContent index ascii = bN <$> ascii).
Proof.
  intros index declared late ascii.
  assert (H1 : declares_regional_charset declared).
  { exists (list_byte_of_string "<meta "), (list_byte_of_string "charset='EUC-KR"),
      (list_byte_of_string "'>" ++ [xb0; xa1]), [x27], "euc-kr".
    split; [reflexivity|]. split; [repeat constructor|]. split; [repeat constructor|].
    repeat constructor. }
  assert (H2 : ~ declares_regional_charset late).
  { intros H. apply declares_regional_charset_preview, charset_match_declares in H.
    vm_compute in H. destruct H as [cap H]. discriminate H. }
  assert (H3 : Forall (fun b => is_ascii_byte b = true) ascii) by (repeat constructor).
  split; [|split].
  - split; [exact H1|].
    exact (proj1 (decode_follows_declared_charset index declared) H1).
  - split; [exact H2|].
    exact (proj1 (proj2 (decode_follows_declared_charset index late)) H2).
  - split; [exact H3|].
    exact (proj2 (proj2 (decode_follows_declared_charset index ascii)) H3).
Defined.

(** A page head declaring [EUC-KR] in capitals takes the regional path, and
    the same head without the declaration takes the UTF-8 path. *)
Example decode_sample :
  let declared := list_byte_of_string "<meta charset='EUC-KR'>" ++ [xb0; xa1] in
  let plain := list_byte_of_string "<meta name='x'>" ++ [xea; xb0; x80] in
  let index := fun p => if (p =? 9026)%N then Some 0xAC00%N else None in
  Lib._decodeContent index declared
    = (bN <$> list_byte_of_string "<meta charset='EUC-KR'>") ++ [0xAC00%N] /\
  Lib._decodeContent index plain
    = (bN <$> list_byte_of_string "<meta name='x'>") ++ [0xAC00%N].
Proof. vm_compute. split; reflexivity. Qed.

(** ** The phased scheduler *)

Lemma snd_imap_pair {A} (f : nat -> nat) (l : list A) :
  (imap (fun i x => (f i, x)) l).*2 = l.
Proof.
  revert f. induction l as [|x l IH]; intros f; [reflexivity|].
  cbn [imap fmap list_fmap snd]. f_equal. apply (IH (f ∘ S)).
Qed.

Lemma fst_imap_pair {A} (k : nat) (l : list A) :
  (imap (fun i x => (k + i, x)) l).*1 = seq k (length l).
Proof.
  revert k. induction l as [|x l IH]; intros k; [reflexivity|].
  cbn [imap fmap list_fmap fst length seq]. f_equal; [lia|].
  rewrite <- IH. f_equal. apply imap_ext. intros i y _. simpl. f_equal. lia.
Qed.

Lemma advance_nil w : advance w 0 [] = w.
Proof. destruct w. unfold advance. simpl. now rewrite Nat.add_0_r. Qed.

Lemma advance_advance w n1 e1 n2 e2 :
  advance (advance w n1 e1) n2 e2 = advance w (n1 + n2) (e1 ++ e2).
Proof.
  unfold advance. simpl. rewrite rev_app_distr, <- app_assoc. f_equal. lia.
Qed.

Lemma sleep_advance ms w : sleep ms w = (Return tt, advance w 0 [EvSleep ms]).
Proof. unfold sleep, emit, advance. simpl. now rewrite Nat.add_0_r. Qed.

Section Phased.
Context (env : Env) (payload : Address -> option bytes).
Context (onProgress : nat -> nat -> M World unit) (ev : nat -> nat -> list Event).
Hypothesis Hsteady : steady env payload.
Hypothesis Hreports : reports onProgress ev.

#[local] Abbreviation attempt_events := (attempt_events payload).
#[local] Abbreviation attempt_reads := (attempt_reads payload).
#[local] Abbreviation loaded_of := (loaded_of payload).
#[local] Abbreviation dropped_of := (dropped_of payload).
#[local] Abbreviation pass_reads := (pass_reads payload).
#[local] Abbreviation round_events := (round_events payload).
#[local] Abbreviation rounds_events := (rounds_events payload).
#[local] Abbreviation unreadable := (unreadable payload).
#[local] Abbreviation alive_of := (alive_of payload).
#[local] Abbreviation pass_events := (pass_events payload ev).

Lemma fetch_alive a n data w :
  0 < n -> payload a = Some data ->
  Lib._fetchChunkData env a (Z.of_nat n) w
  = (Return (Some data), advance w (attempt_reads a n) (attempt_events a n)).
Proof.
  intros Hn Hp. unfold Lib._fetchChunkData. rewrite Nat2Z.id.
  pose proof (fetch_from_succeeds env a (Z.of_nat n) 0 n 0 w data) as E.
  change (Z.of_nat 0) with 0%Z in E. rewrite E; try lia.
  - unfold advance, attempt_reads, attempt_events. rewrite Hp. simpl.
    repeat f_equal. lia.
  - rewrite Hsteady. exact Hp.
Qed.

Lemma fetch_dead a n w :
  0 < n -> payload a = None ->
  Lib._fetchChunkData env a (Z.of_nat n) w
  = (Throw (RpcError a (tick w + n - 1)),
     advance w (attempt_reads a n) (attempt_events a n)).
Proof.
  intros Hn Hp. unfold Lib._fetchChunkData. rewrite Nat2Z.id.
  pose proof (fetch_from_exhausted env a (Z.of_nat n) n 0 w) as E.
  change (Z.of_nat 0) with 0%Z in E. rewrite E; try lia.
  - unfold advance, attempt_reads, attempt_events. rewrite Hp.
    rewrite rev_app_distr. reflexivity.
  - intros j _. rewrite Hsteady. exact Hp.
Qed.

Lemma load_pass_loop total items : forall chunks failed w,
  for_of (fun '(chunks, failed) '(i, leaf) =>
            onProgress (i + 1) total ;;
            try_catch
              (let* data := Lib._fetchChunkData env leaf 2 in
               ret (chunks ++ [{| index := i; data := data |}], failed))
              (fun _ => ret (chunks, failed ++ [{| l_index := i; l_address := leaf |}])))
         items (chunks, failed) w
  = (Return (chunks ++ loaded_of items, failed ++ dropped_of items),
     advance w (pass_reads items) (pass_events total items)).
Proof.
  induction items as [|[i a] items IH]; intros chunks failed w.
  - simpl. rewrite !app_nil_r, advance_nil. reflexivity.
  - cbn [for_of]. unfold bind at 1.
    unfold bind at 1. rewrite Hreports.
    unfold try_catch, bind at 1.
    destruct (payload a) as [d|] eqn:Hp.
    + rewrite (fetch_alive a 2 d) by (auto; lia). unfold ret at 1.
      rewrite IH, !advance_advance.
      unfold loaded_of, dropped_of, pass_reads, pass_events. simpl. rewrite Hp.
      simpl. rewrite <- !app_assoc. reflexivity.
    + rewrite (fetch_dead a 2) by (auto; lia). unfold ret at 1.
      rewrite IH, !advance_advance.
      unfold loaded_of, dropped_of, pass_reads, pass_events. simpl. rewrite Hp.
      simpl. rewrite <- !app_assoc. reflexivity.
Qed.

Lemma retry_round_loop toRetry : Forall unreadable toRetry ->
  forall chunks stillFailed w,
  for_of (fun '(chunks, stillFailed) item =>
            let* r :=
              try_catch
                (let* data := Lib._fetchChunkData env (l_address item) 3 in
                 ret (chunks ++ [{| index := l_index item; data := data |}], stillFailed))
                (fun _ => ret (chunks, stillFailed ++ [item])) in
            sleep 100 ;;
            ret r)
         toRetry (chunks, stillFailed) w
  = (Return (chunks, stillFailed ++ toRetry),
     advance w (3 * length toRetry)
       (flat_map (fun leaf => attempt_events (l_address leaf) 3 ++ [EvSleep 100]) toRetry)).
Proof.
  induction 1 as [|leaf toRetry Hleaf _ IH]; intros chunks stillFailed w.
  - simpl. rewrite app_nil_r, advance_nil. reflexivity.
  - cbn [for_of]. unfold bind at 1. unfold bind at 1.
    unfold try_catch, bind at 1.
    rewrite (fetch_dead (l_address leaf) 3) by (auto; lia).
    unfold ret at 1. unfold bind at 1.
    rewrite sleep_advance.
    unfold ret at 1. rewrite IH, !advance_advance.
    unfold attempt_reads. rewrite Hleaf. cbn [flat_map length].
    rewrite <- !app_assoc.
    replace (3 + (0 + 3 * length toRetry)) with (3 * S (length toRetry)) by lia.
    reflexivity.
Qed.

Lemma retry_round_dead toRetry chunks w : Forall unreadable toRetry ->
  Lib.retry_round env toRetry chunks w
  = (Return (chunks, toRetry),
     advance w (3 * length toRetry)
       (flat_map (fun leaf => attempt_events (l_address leaf) 3 ++ [EvSleep 100]) toRetry)).
Proof. intros H. unfold Lib.retry_round. now rewrite (retry_round_loop toRetry H). Qed.

Lemma retry_rounds_dead leaf rest chunks : Forall unreadable (leaf :: rest) ->
  forall left retryRound w,
  Lib.retry_rounds env left retryRound (leaf :: rest) chunks w
  = (Return (chunks, leaf :: rest),
     advance w (left * (3 * length (leaf :: rest)))
       (rounds_events (S retryRound) left (leaf :: rest))).
Proof.
  intros Hdead. induction left as [|left IH]; intros retryRound w.
  - simpl. rewrite advance_nil. reflexivity.
  - cbn [Lib.retry_rounds]. unfold bind at 1. rewrite sleep_advance.
    unfold bind at 1. rewrite retry_round_dead by exact Hdead.
    cbn [fst snd]. rewrite IH, !advance_advance.
    unfold rounds_events. cbn [seq flat_map]. unfold round_events.
    replace (0 + (3 * length (leaf :: rest) + left * (3 * length (leaf :: rest))))
      with (S left * (3 * length (leaf :: rest))) by lia.
    reflexivity.
Qed.

Lemma dropped_of_unreadable items : Forall unreadable (dropped_of items).
Proof.
  induction items as [|[i a] items IH]; simpl; [constructor|].
  destruct (payload a) eqn:E; simpl; [exact IH|].
  constructor; [exact E|exact IH].
Qed.

(** [_loadChunks] on a steady endpoint: the chunks of the readable leaves,
    the unreadable leaves left in [toRetry], and everything that happened. *)
Lemma loadChunks_steady leaves w :
  let items := imap (fun i leaf => (i, leaf)) leaves in
  let dropped := dropped_of items in
  let rounds := match dropped with [] => 0 | _ :: _ => 5 end in
  Lib._loadChunks_run env leaves onProgress w
  = (Return (loaded_of items, dropped),
     advance w (pass_reads items + rounds * (3 * length dropped))
       (pass_events (length leaves) items ++ rounds_events 1 rounds dropped)).
Proof.
  intros items dropped rounds. unfold Lib._loadChunks_run, Lib.load_pass.
  unfold bind at 1. fold items.
  rewrite (load_pass_loop (length leaves) items [] [] w). cbn [fst snd app].
  fold dropped. unfold rounds.
  destruct dropped as [|leaf rest] eqn:E.
  - simpl. unfold ret. rewrite app_nil_r, Nat.add_0_r. reflexivity.
  - rewrite retry_rounds_dead.
    + now rewrite advance_advance.
    + rewrite <- E. apply dropped_of_unreadable.
Qed.
(** *** The sequential page on a steady endpoint *)

Lemma fetch_steady_outcome a n w : 0 < n ->
  exists w',
    Seq.fetchChunkData env a (Z.of_nat n) w
    = (match payload a with
       | Some d => Return (Some d)
       | None => Throw (RpcError a (tick w + n - 1))
       end, w').
Proof.
  intros Hn. rewrite fetchChunkData_same. destruct (payload a) as [d|] eqn:Hp.
  - rewrite (fetch_alive a n d) by auto. eauto.
  - rewrite (fetch_dead a n) by auto. eauto.
Qed.

Lemma loadChunksSequentially_steady leaves w :
  exists w',
    Seq.loadChunksSequentially env leaves w
    = (Return (loaded_of (pair_of <$> leaves), dropped_of (pair_of <$> leaves)), w').
Proof.
  unfold Seq.loadChunksSequentially.
  set (step := fun (st : list Chunk * list Leaf) (it : nat * Leaf) =>
                 (st.1 ++ loaded_of [pair_of it.2], st.2 ++ dropped_of [pair_of it.2])).
  assert (Hfold : forall items chunks failed,
            foldl step (chunks, failed) items
            = (chunks ++ loaded_of (pair_of <$> items.*2),
               failed ++ dropped_of (pair_of <$> items.*2))).
  { induction items as [|[i leaf] items IH]; intros chunks failed.
    - simpl. now rewrite !app_nil_r.
    - cbn [foldl]. unfold step at 2. cbn [fst snd]. rewrite IH.
      rewrite !fmap_cons. cbn [snd].
      change (pair_of leaf :: (pair_of <$> items.*2))
        with ([pair_of leaf] ++ (pair_of <$> items.*2)).
      unfold loaded_of, dropped_of. rewrite !flat_map_app, <- !app_assoc.
      reflexivity. }
  match goal with |- context [for_of ?body ?items ([], []) w] =>
    destruct (for_of_total body id step items) with (acc := ([] : list Chunk, [] : list Leaf))
                                                    (s := w) as [w' Hrun]
  end.
  - apply Forall_forall. intros [i leaf] _ [chunks failed] s. unfold id.
    destruct (fetch_steady_outcome (l_address leaf) 2 s ltac:(lia)) as [s1 Hf].
    unfold step, loaded_of, dropped_of, pair_of. cbn [fst snd flat_map].
    unfold bind at 1, try_catch, bind at 1.
    change (Z.of_nat 2) with 2%Z in Hf. rewrite Hf.
    destruct (payload (l_address leaf)) as [d|]; unfold ret at 1.
    + eexists. rewrite !app_nil_r. reflexivity.
    + eexists. unfold bind, log, emit, ret. rewrite !app_nil_r.
      destruct leaf. reflexivity.
  - rewrite list_fmap_id in Hrun. exists w'. rewrite Hrun, Hfold.
    assert (Hs : (imap (fun i (leaf : Leaf) => (i, leaf)) leaves).*2 = leaves)
      by apply (snd_imap_pair id).
    now rewrite Hs.
Qed.
Lemma seq_retry_round_dead toRetry chunks w : Forall unreadable toRetry ->
  exists w', Seq.retry_round env toRetry chunks w = (Return (chunks, toRetry), w').
Proof.
  intros Hdead. unfold Seq.retry_round.
  set (step := fun (st : list Chunk * list Leaf) (leaf : Leaf) => (st.1, st.2 ++ [leaf])).
  assert (Hfold : forall items chunks still,
            foldl step (chunks, still) items = (chunks, still ++ items)).
  { induction items as [|leaf items IH]; intros cs still.
    - simpl. now rewrite app_nil_r.
    - cbn [foldl]. unfold step at 2. cbn [fst snd].
      rewrite IH, <- app_assoc. reflexivity. }
  match goal with |- context [for_of ?body toRetry (chunks, []) w] =>
    destruct (for_of_total body id step toRetry) with (acc := (chunks, [] : list Leaf))
                                                      (s := w) as [w' Hrun]
  end.
  - eapply Forall_impl; [exact Hdead|]. intros leaf Hleaf [cs still] s. unfold id.
    destruct (fetch_steady_outcome (l_address leaf) 3 s ltac:(lia)) as [s1 Hf].
    unfold unreadable in Hleaf. rewrite Hleaf in Hf.
    change (Z.of_nat 3) with 3%Z in Hf.
    unfold bind at 1, try_catch, bind at 1. rewrite Hf.
    eexists. unfold ret at 1, bind, sleep, emit, ret. reflexivity.
  - rewrite list_fmap_id in Hrun. exists w'. rewrite Hrun, Hfold. reflexivity.
Qed.

Lemma seq_retry_rounds_dead leaf rest chunks : Forall unreadable (leaf :: rest) ->
  forall left retryRound w,
  exists w', Seq.retry_rounds env left retryRound (leaf :: rest) chunks w
             = (Return (chunks, leaf :: rest), w').
Proof.
  intros Hdead. induction left as [|left IH]; intros retryRound w.
  - eexists. reflexivity.
  - cbn [Seq.retry_rounds]. unfold bind at 1, log, emit. unfold bind at 1, sleep, emit.
    unfold bind at 1.
    match goal with |- context [Seq.retry_round env (leaf :: rest) chunks ?w1] =>
      destruct (seq_retry_round_dead (leaf :: rest) chunks w1 Hdead) as [w2 H2]
    end.
    rewrite H2. cbn [fst snd]. apply IH.
Qed.

(** [retryFailedChunks] on leaves that stay unreadable: nothing is added to
    [chunks], and the last thing it does is to log how many are left. *)
Lemma retryFailedChunks_dead leaf rest chunks w : Forall unreadable (leaf :: rest) ->
  exists w',
    Seq.retryFailedChunks env (leaf :: rest) chunks w = (Return (chunks, leaf :: rest), w') /\
    head (trace w')
    = Some (EvLog (dec (length (leaf :: rest)) +:+ " chunks permanently failed")).
Proof.
  intros Hdead. unfold Seq.retryFailedChunks.
  destruct (seq_retry_rounds_dead leaf rest chunks Hdead 5 0 w) as [w1 H1].
  unfold bind at 1. rewrite H1. cbn [fst snd].
  eexists. split; reflexivity.
Qed.

(** *** Assembly of what was loaded *)

Lemma loaded_of_alive items : loaded_of items = chunk_of <$> alive_of items.
Proof.
  induction items as [|[i a] items IH]; [reflexivity|].
  unfold loaded_of, alive_of in *. cbn [flat_map]. rewrite fmap_app, IH.
  now destruct (payload a).
Qed.

Lemma alive_of_sorted items :
  StronglySorted lt items.*1 -> StronglySorted lt (alive_of items).*1.
Proof.
  induction items as [|[i a] items IH]; intros Hs; [constructor|].
  rewrite fmap_cons in Hs. inversion Hs as [|? ? Hs0 Hall]; subst.
  specialize (IH Hs0).
  unfold alive_of in *. cbn [flat_map]. rewrite fmap_app.
  destruct (payload a) as [d|]; cbn [fmap list_fmap app fst]; [|auto].
  constructor; [auto|].
  apply Forall_forall. intros j Hj.
  rewrite Forall_forall in Hall. apply Hall.
  apply list_elem_of_fmap in Hj as ([j' d'] & -> & Hj).
  apply list_elem_of_In, in_flat_map in Hj as ([k b] & Hin & Hj).
  destruct (payload b); [|destruct Hj].
  destruct Hj as [Hj|[]]. injection Hj as -> ->.
  apply list_elem_of_fmap. exists (j', b). split; [reflexivity|].
  now apply list_elem_of_In.
Qed.

Lemma sort_by_index_sorted_id (qs : list (nat * bytes)) :
  StronglySorted lt qs.*1 -> sort_by_index (chunk_of <$> qs) = chunk_of <$> qs.
Proof.
  intros Hs.
  assert (Hs' : StronglySorted index_lt (chunk_of <$> qs)).
  { clear -Hs. induction qs as [|q qs IH]; [constructor|].
    rewrite fmap_cons in Hs. inversion Hs as [|? ? Hs0 Hall]; subst.
    rewrite fmap_cons.
    constructor; [auto|]. rewrite Forall_fmap. rewrite Forall_fmap in Hall.
    exact Hall. }
  apply (StronglySorted_unique index_lt).
  - apply sort_by_index_sorted.
    apply (StronglySorted_fmap index index_lt lt) in Hs'; [|auto].
    clear -Hs'. induction Hs' as [|x l _ IH Hall]; constructor; [|exact IH].
    intros Hin. rewrite Forall_forall in Hall. specialize (Hall x Hin). lia.
  - exact Hs'.
  - apply sort_by_index_perm.
Qed.

Lemma assemble_loaded {S} (leaves : list Address) (s : S) :
  Lib._assembleChunks (loaded_of (imap (fun i leaf => (i, leaf)) leaves)) s
  = (Return (concat (alive_of (imap (fun i leaf => (i, leaf)) leaves)).*2), s).
Proof.
  unfold Lib._assembleChunks. rewrite loaded_of_alive.
  rewrite sort_by_index_sorted_id; [apply assemble_sorted_concat|].
  apply alive_of_sorted.
  assert (Hf : (imap (fun i (leaf : Address) => (i, leaf)) leaves).*1
               = seq 0 (length leaves)) by apply (fst_imap_pair 0).
  rewrite Hf. clear. generalize 0. induction (length leaves) as [|n IH]; intros k; [constructor|].
  cbn [seq]. constructor; [apply IH|].
  apply Forall_forall. intros j Hj. apply list_elem_of_In, in_seq in Hj. lia.
Qed.
End Phased.

(** *** Whatever the endpoint does *)

Lemma for_of_invariant {S A B} (body : B -> A -> M S B) (I : B -> list A -> Prop) :
  (forall acc x seen s, I acc seen ->
     exists acc' s', body acc x s = (Return acc', s') /\ I acc' (seen ++ [x])) ->
  forall xs acc seen s, I acc seen ->
    exists acc' s', for_of body xs acc s = (Return acc', s') /\ I acc' (seen ++ xs).
Proof.
  intros Hbody. induction xs as [|x xs IH]; intros acc seen s HI.
  - exists acc, s. rewrite app_nil_r. split; [reflexivity|exact HI].
  - destruct (Hbody acc x seen s HI) as (acc1 & s1 & H1 & HI1).
    destruct (IH acc1 (seen ++ [x]) s1 HI1) as (acc2 & s2 & H2 & HI2).
    exists acc2, s2. split.
    + simpl. erewrite bind_Return by exact H1. exact H2.
    + rewrite <- app_assoc in HI2. exact HI2.
Qed.

Section AnyEndpoint.
Context (env : Env).
Context (onProgress : nat -> nat -> M World unit) (ev : nat -> nat -> list Event).
Hypothesis Hreports : reports onProgress ev.

Lemma load_pass_accounts leaves w :
  exists st w',
    Lib.load_pass env onProgress leaves w = (Return st, w') /\
    accounted st ≡ₚ seq 0 (length leaves).
Proof.
  unfold Lib.load_pass.
  match goal with |- context [for_of ?body ?items ([], []) w] =>
    destruct (for_of_invariant body
                (fun st seen => accounted st ≡ₚ seen.*1)
                ) with (xs := items) (acc := ([] : list Chunk, [] : list Leaf))
                       (seen := [] : list (nat * Address)) (s := w)
      as (st & w' & Hrun & HI)
  end.
  - intros [chunks failed] [i a] seen s HI.
    unfold bind at 1. rewrite Hreports. unfold try_catch, bind.
    destruct (Lib._fetchChunkData env a 2 (advance s 0 (ev (i + 1) (length leaves))))
      as [[d|e] s1]; unfold ret; do 2 eexists; (split; [reflexivity|]);
      unfold accounted in *; cbn [fst snd] in *;
      rewrite !fmap_app; cbn [fmap list_fmap fst index l_index].
    + rewrite <- HI. rewrite <- !app_assoc. apply Permutation_app_head.
      apply Permutation_app_comm.
    + rewrite <- HI. now rewrite <- !app_assoc.
  - reflexivity.
  - exists st, w'. split; [exact Hrun|].
    rewrite HI. cbn [app]. rewrite <- (fst_imap_pair 0 leaves).
    reflexivity.
Qed.

Lemma retry_round_accounts toRetry chunks w :
  exists st w',
    Lib.retry_round env toRetry chunks w = (Return st, w') /\
    accounted st ≡ₚ accounted (chunks, toRetry).
Proof.
  unfold Lib.retry_round.
  match goal with |- context [for_of ?body toRetry (chunks, []) w] =>
    destruct (for_of_invariant body
                (fun st seen => accounted st ≡ₚ accounted (chunks, seen))
                ) with (xs := toRetry) (acc := (chunks, [] : list Leaf))
                       (seen := [] : list Leaf) (s := w)
      as (st & w' & Hrun & HI)
  end.
  - intros [cs still] item seen s HI.
    unfold bind at 1, try_catch, bind at 1.
    destruct (Lib._fetchChunkData env (l_address item) 3 s) as [[d|e] s1];
      unfold ret at 1, bind, sleep, emit, ret; do 2 eexists; (split; [reflexivity|]);
      unfold accounted in *; cbn [fst snd] in *;
      rewrite !fmap_app; cbn [fmap list_fmap fst index l_index].
    + rewrite app_assoc, <- HI. rewrite <- !app_assoc. apply Permutation_app_head.
      apply Permutation_app_comm.
    + rewrite !app_assoc, <- HI. now rewrite <- !app_assoc.
  - reflexivity.
  - exists st, w'. split; [exact Hrun|exact HI].
Qed.

Lemma retry_rounds_accounts : forall left retryRound toRetry chunks w,
  exists st w',
    Lib.retry_rounds env left retryRound toRetry chunks w = (Return st, w') /\
    accounted st ≡ₚ accounted (chunks, toRetry).
Proof.
  induction left as [|left IH]; intros retryRound toRetry chunks w.
  - exists (chunks, toRetry), w. destruct toRetry; split; reflexivity.
  - destruct toRetry as [|leaf rest].
    + exists (chunks, []), w. split; reflexivity.
    + cbn [Lib.retry_rounds]. unfold bind at 1, sleep, emit. unfold bind at 1.
      match goal with |- context [Lib.retry_round env ?l chunks ?w1] =>
        destruct (retry_round_accounts l chunks w1) as ([cs still] & w2 & H2 & HI2)
      end.
      rewrite H2. cbn [fst snd].
      destruct (IH (S retryRound) still cs w2) as (st & w3 & H3 & HI3).
      exists st, w3. split; [exact H3|]. now rewrite HI3.
Qed.

(** Every leaf ends up either loaded or left in [toRetry], once. *)
Lemma loadChunks_accounts leaves w :
  exists chunks toRetry w',
    Lib._loadChunks_run env leaves onProgress w = (Return (chunks, toRetry), w') /\
    accounted (chunks, toRetry) ≡ₚ seq 0 (length leaves).
Proof.
  unfold Lib._loadChunks_run.
  destruct (load_pass_accounts leaves w) as ([cs failed] & w1 & H1 & HI1).
  destruct (retry_rounds_accounts 5 0 failed cs w1) as ([chunks toRetry] & w2 & H2 & HI2).
  exists chunks, toRetry, w2. split.
  - erewrite bind_Return by exact H1. exact H2.
  - now rewrite HI2.
Qed.
End AnyEndpoint.

Lemma loaded_dropped_length payload items :
  length (loaded_of payload items) + length (dropped_of payload items) = length items.
Proof.
  induction items as [|[i a] items IH]; [reflexivity|].
  unfold loaded_of, dropped_of in *. cbn [flat_map]. rewrite !length_app.
  destruct (payload a); simpl in *; lia.
Qed.

Lemma pair_of_numbered leaves :
  pair_of <$> numbered 0 leaves = imap (fun i leaf => (i, leaf)) leaves.
Proof. unfold numbered. rewrite fmap_imap. now apply imap_ext. Qed.

Lemma ten_steady : steady TenLeaves.env TenLeaves.payload.
Proof. intros t a. reflexivity. Qed.

(** The phased scheduler never fails, and accounts for every leaf: each
    index ends up either among the loaded chunks or in the final [toRetry].
    On an endpoint where each address either always answers or never does,
    pass 1 tries every leaf once with a budget of two attempts; if some
    failed, exactly five retry rounds follow, round [r] opening with a wait
    of [500 * r] ms, each item tried with a budget of three attempts and
    followed by a wait of 100 ms; the leaves that never answer are what is
    left in [toRetry], the page logs their number, the library returns the
    chunks of the others, and assembly yields the payloads of these in index
    order. *)
Theorem phased_load_is_best_effort (env : Env) (payload : Address -> option bytes)
    (leaves : list Address) (onProgress : nat -> nat -> M World unit)
    (ev : nat -> nat -> list Event) (w : World) :
  reports onProgress ev ->
  (exists chunks toRetry w',
     Lib._loadChunks_run env leaves onProgress w = (Return (chunks, toRetry), w') /\
     Lib._loadChunks env leaves onProgress w = (Return chunks, w') /\
     (index <$> chunks) ++ (l_index <$> toRetry) ≡ₚ seq 0 (length leaves)) /\
  (steady env payload ->
   let items := imap (fun i leaf => (i, leaf)) leaves in
   let loaded := loaded_of payload items in
   let dropped := dropped_of payload items in
   let rounds := match dropped with [] => 0 | _ :: _ => 5 end in
   Lib._loadChunks_run env leaves onProgress w
   = (Return (loaded, dropped),
      advance w (pass_reads payload items + rounds * (3 * length dropped))
        (pass_events payload ev (length leaves) items
           ++ rounds_events payload 1 rounds dropped)) /\
   length loaded + length dropped = length leaves /\
   Lib._assembleChunks loaded tt = (Return (concat (alive_of payload items).*2), tt) /\
   (exists w1, Seq.loadChunksSequentially env (numbered 0 leaves) w
               = (Return (loaded, dropped), w1)) /\
   (dropped <> [] ->
    forall w1, exists w2,
      Seq.retryFailedChunks env dropped loaded w1 = (Return (loaded, dropped), w2) /\
      head (trace w2)
      = Some (EvLog (dec (length dropped) +:+ " chunks permanently failed")))).
Proof.
  intros Hreports. split.
  - destruct (loadChunks_accounts env onProgress ev Hreports leaves w)
      as (chunks & toRetry & w' & Hrun & Hacc).
    exists chunks, toRetry, w'. split; [exact Hrun|]. split; [|exact Hacc].
    unfold Lib._loadChunks. erewrite bind_Return by exact Hrun. reflexivity.
  - intros Hsteady items loaded dropped rounds. split; [|split; [|split; [|split]]].
    + apply (loadChunks_steady env payload onProgress ev Hsteady Hreports).
    + unfold loaded, dropped. rewrite loaded_dropped_length.
      unfold items. apply length_imap.
    + apply assemble_loaded.
    + destruct (loadChunksSequentially_steady env payload Hsteady (numbered 0 leaves) w)
        as [w1 H1].
      exists w1. rewrite H1, pair_of_numbered. reflexivity.
    + intros Hne w1. destruct dropped as [|leaf rest] eqn:E; [congruence|].
      apply (retryFailedChunks_dead env payload Hsteady).
      rewrite <- E. apply dropped_of_unreadable.
Qed.

Lemma phased_load_is_best_effort_witness :
  reports (fun _ _ => ret tt) (fun _ _ => []) /\
  steady TenLeaves.env TenLeaves.payload /\
  exists chunks toRetry w' data,
    Lib._loadChunks_run TenLeaves.env TenLeaves.leaves (fun _ _ => ret tt) world0
    = (Return (chunks, toRetry), w') /\
    length chunks = 8 /\
    l_index <$> toRetry = [3; 7] /\
    tick w' = 8 + 2 * 2 + 5 * (3 * 2) /\
    Lib._assembleChunks chunks tt = (Return data, tt) /\
    length data = 8 * 4.
Proof.
  assert (Hrep : reports (fun _ _ => ret tt) (fun _ _ => [])).
  { intros c t w. unfold ret. now rewrite advance_nil. }
  split; [exact Hrep|]. split; [exact ten_steady|].
  destruct (proj2 (phased_load_is_best_effort TenLeaves.env TenLeaves.payload
                     TenLeaves.leaves (fun _ _ => ret tt) (fun _ _ => []) world0 Hrep)
              ten_steady) as (Hrun & _ & Hasm & _).
  do 4 eexists. split; [exact Hrun|]. split; [reflexivity|]. split; [reflexivity|].
  split; [reflexivity|]. split; [exact Hasm|]. reflexivity.
Defined.

(** ** The overlapped scheduler *)

Section Overlapped.
Context (env : Env) (sched : Par.Sched) (chunkGrid : bool).

#[local] Abbreviation worker_resume := (Par.worker_resume env).
#[local] Abbreviation suspend := (Par.suspend env sched).
#[local] Abbreviation awaitRead := (Par.awaitRead env sched).
#[local] Abbreviation awaitSleep := (Par.awaitSleep env sched).
#[local] Abbreviation collectLeafChunks := (Par.collectLeafChunks env sched chunkGrid).
#[local] Abbreviation poll := (Par.poll env sched).
#[local] Abbreviation fetchTree := (Par.fetchTree env sched chunkGrid).

Lemma known_set_world A w s : known A (Par.set_world w s) <-> known A s.
Proof. reflexivity. Qed.

Lemma known_liftW {X} A (m : M World X) s : known A s -> known A (snd (Par.liftW m s)).
Proof. unfold Par.liftW. destruct (m (Par.world s)). exact id. Qed.

Lemma known_loop_head A s : known A s -> known A (Par.loop_head s).
Proof.
  intros (Hr & Hq & Hw). unfold Par.loop_head.
  destruct (Par.loadQueue s) as [|c rest] eqn:Eq.
  - destruct (Par.scanComplete s); repeat split; simpl; rewrite ?Eq; auto;
      constructor.
  - inversion Hq as [|? ? Hc Hrest]; subst.
    repeat split; simpl; auto.
Qed.

Lemma known_loadWorker A s : known A s -> known A (Par.loadWorker s).
Proof.
  intros H. unfold Par.loadWorker. destruct (Par.loaderRunning s); [exact H|].
  apply known_loop_head. exact H.
Qed.

Lemma known_worker_resume A s : known A s -> known A (worker_resume s).
Proof.
  intros H. pose proof H as (Hr & Hq & Hw). unfold Par.worker_resume.
  destruct (Par.worker s) as [| |c i|c i] eqn:Ew.
  - exact H.
  - now apply known_loop_head.
  - assert (Hc : Par.q_address c ∈ A) by (inversion Hw; assumption).
    unfold Par.liftW at 1. destruct (readContract env (Par.q_address c) (Par.world s))
      as [[data|e] w1].
    + unfold known. cbn. split; [|split; [exact Hq|constructor]].
      rewrite dom_insert. intros a Ha. apply elem_of_union in Ha as [Ha|Ha]; [|auto].
      apply elem_of_singleton in Ha. now subst a.
    + destruct (i =? 10 - 1)%Z.
      * unfold known. cbn. split; [exact Hr|]. split; [|constructor].
        apply Forall_app. split; [exact Hq|]. repeat constructor. exact Hc.
      * unfold known. cbn. split; [exact Hr|]. split; [exact Hq|].
        repeat constructor. exact Hc.
  - unfold known. cbn. auto.
Qed.

Lemma known_iter A n s : known A s -> known A (Nat.iter n worker_resume s).
Proof. induction n; simpl; auto using known_worker_resume. Qed.

Lemma now_worker_resume s : Par.now (worker_resume s) = Par.now s.
Proof.
  unfold Par.worker_resume. destruct (Par.worker s) as [| |c i|c i]; try reflexivity.
  - unfold Par.loop_head. destruct (Par.loadQueue s); [|reflexivity].
    destruct (Par.scanComplete s); reflexivity.
  - unfold Par.liftW at 1. destruct (readContract env (Par.q_address c) (Par.world s))
      as [[data|e] w1]; [reflexivity|].
    destruct (i =? 10 - 1)%Z; reflexivity.
Qed.

Lemma now_iter n s : Par.now (Nat.iter n worker_resume s) = Par.now s.
Proof. induction n; simpl; [reflexivity|]. now rewrite now_worker_resume. Qed.

(** A suspension always returns; it keeps [known] and lets time advance. *)
Lemma suspend_spec s :
  exists s', suspend s = (Return tt, s') /\
             (forall A, known A s -> known A s') /\
             (Par.now s <= Par.now s')%Z.
Proof.
  eexists. split; [reflexivity|]. split.
  - intros A H. apply (known_iter A (Par.steps sched (Par.yields s))) in H.
    exact H.
  - simpl. rewrite now_iter. lia.
Qed.

Lemma awaitSleep_spec ms s :
  exists s', awaitSleep ms s = (Return tt, s') /\
             (forall A, known A s -> known A s') /\
             (Par.now s + ms <= Par.now s')%Z.
Proof.
  unfold Par.awaitSleep.
  unfold bind at 1, Par.liftW at 1, sleep, emit. unfold bind at 1, Par.modify.
  match goal with |- context [suspend ?s1] =>
    destruct (suspend_spec s1) as (s' & Hs & Hk & Hn)
  end.
  exists s'. split; [exact Hs|]. split.
  - intros A H. apply Hk. exact H.
  - simpl in Hn. exact Hn.
Qed.

Lemma logS_spec msg s :
  exists s', Par.logS msg s = (Return tt, s') /\ (forall A, known A s -> known A s').
Proof. eexists. split; [reflexivity|]. intros A H. exact H. Qed.
(** *** The scan on a steady endpoint *)

Context (payload : Address -> option bytes).
Hypothesis Hsteady : steady env payload.

#[local] Abbreviation scanFetch a :=
  (Par.fetchWithRetry awaitSleep (Par.liftW (random500 env)) (awaitRead a) 10 1000).

Lemma awaitRead_steady a s :
  exists s',
    awaitRead a s
    = (match payload a with
       | Some data => Return data
       | None => Throw (RpcError a (tick (Par.world s')) )
       end, Par.set_world
              {| tick := S (tick (Par.world s')); draws := draws (Par.world s');
                 trace := EvRead a (bool_decide (is_Some (payload a)))
                            :: trace (Par.world s') |} s') /\
    (forall A, known A s -> known A s').
Proof.
  destruct (suspend_spec s) as (s1 & Hs & Hk & _).
  exists s1. split; [|exact Hk].
  unfold Par.awaitRead. erewrite bind_Return by exact Hs.
  unfold Par.liftW, readContract. rewrite Hsteady.
  destruct (payload a); reflexivity.
Qed.

Lemma scanFetch_alive a data s : payload a = Some data ->
  exists s', scanFetch a s = (Return (Some data), s') /\
             (forall A, known A s -> known A s').
Proof.
  intros Hp. destruct (awaitRead_steady a s) as (s1 & Hr & Hk). rewrite Hp in Hr.
  eexists. split.
  - unfold Par.fetchWithRetry. change (Z.to_nat 10) with 10.
    cbn [Par.fetchWithRetry_from]. apply catch_Return.
    erewrite bind_Return by exact Hr. reflexivity.
  - intros A H. apply Hk in H. exact H.
Qed.

Lemma scanFetch_from_dead a : payload a = None ->
  forall rem i s, 0 < rem -> (i + Z.of_nat rem = 10)%Z ->
  exists tk s',
    Par.fetchWithRetry_from awaitSleep (Par.liftW (random500 env)) (awaitRead a)
      rem i 10 1000 s
    = (Throw (RpcError a tk), s').
Proof.
  intros Hp. induction rem as [|rem IH]; intros i s Hrem Hi; [lia|].
  destruct (awaitRead_steady a s) as (s1 & Hr & _). rewrite Hp in Hr.
  cbn [Par.fetchWithRetry_from]. erewrite catch_Throw;
    [|erewrite bind_Throw by exact Hr; reflexivity].
  destruct (Z.eqb_spec i (10 - 1)) as [E|NE].
  - do 2 eexists. reflexivity.
  - unfold bind at 1, Par.liftW at 1, random500.
    unfold bind at 1.
    match goal with |- context [awaitSleep ?ms ?s2] =>
      destruct (awaitSleep_spec ms s2) as (s3 & Hsl & _)
    end.
    rewrite Hsl. apply IH; lia.
Qed.

Lemma scanFetch_dead a s : payload a = None ->
  exists tk s', scanFetch a s = (Throw (RpcError a tk), s').
Proof.
  intros Hp. unfold Par.fetchWithRetry. change (Z.to_nat 10) with 10.
  apply scanFetch_from_dead; [exact Hp|lia|lia].
Qed.

Lemma fix_offsets_address offset results :
  Par.c_address <$> Par.fix_offsets offset results = Par.c_address <$> results.
Proof.
  revert offset. induction results as [|c results IH]; intros offset; [reflexivity|].
  cbn [Par.fix_offsets]. rewrite !fmap_cons, IH. reflexivity.
Qed.

#[local] Abbreviation all_alive := (all_alive payload).
#[local] Abbreviation some_dead := (some_dead payload).

Lemma alive_or_dead addrs : all_alive addrs \/ some_dead addrs.
Proof.
  induction addrs as [|a addrs [IH|IH]].
  - left. constructor.
  - destruct (payload a) as [d|] eqn:E.
    + left. constructor; [rewrite E; eauto|exact IH].
    + right. now constructor.
  - right. now constructor 2.
Qed.
Lemma alive_not_dead addrs : all_alive addrs -> some_dead addrs -> False.
Proof.
  intros Ha Hd. induction Hd as [a addrs Hp|a addrs _ IH].
  - inversion Ha as [|? ? [d Hd] _]; subst. congruence.
  - inversion Ha; subst. auto.
Qed.

(** A leaf has been read: it is queued and the worker is started. *)
Lemma leaf_found_spec a offset (data : bytes) s :
  exists s',
    (let* index := Par.gets Par.scannedChunks in
     Par.addChunkToGrid chunkGrid ;;
     Par.modify (fun s =>
                   Par.set_loadQueue
                     (Par.loadQueue s ++ [{| Par.q_address := a; Par.q_offset := offset;
                                             Par.q_size := length data;
                                             Par.q_index := index |}]) s) ;;
     Par.modify Par.loadWorker ;;
     ret [{| Par.c_address := a; Par.c_offset := offset; Par.c_size := length data |}]) s
    = (Return [{| Par.c_address := a; Par.c_offset := offset; Par.c_size := length data |}],
       s') /\
    (forall A, a ∈ A -> known A s -> known A s').
Proof.
  unfold bind, Par.gets, Par.addChunkToGrid, Par.modify, ret.
  destruct chunkGrid; (eexists; split; [reflexivity|]);
    intros A Ha (Hr & Hq & Hw);
    apply known_loadWorker; unfold known; cbn;
    (split; [exact Hr|]); (split; [|exact Hw]);
    (apply Forall_app; split; [exact Hq|]); repeat constructor; exact Ha.
Qed.
(** The scan of a tree whose internal nodes answer: it returns the leaves
    when they all answer, and fails on a leaf that does not. *)
Lemma collect_steady : forall d t offset s,
  serves payload d t ->
  (all_alive (leaves_of t) ->
   exists res s',
     collectLeafChunks d (root t) offset s = (Return res, s') /\
     Par.c_address <$> res = leaves_of t /\
     (forall A, (forall a, a ∈ leaves_of t -> a ∈ A) -> known A s -> known A s')) /\
  (some_dead (leaves_of t) ->
   exists a' tk s',
     collectLeafChunks d (root t) offset s = (Throw (RpcError a' tk), s') /\
     payload a' = None).
Proof.
  induction d as [|d IH]; intros t offset s Hserves.
  - destruct t as [a|a cs]; [|contradiction]. cbn [root leaves_of]. split.
    + intros Halive. inversion Halive as [|? ? [data Hp] _]; subst.
      destruct (scanFetch_alive a data s Hp) as (s1 & Hf & Hk).
      destruct (leaf_found_spec a offset data s1) as (s2 & Ht & Hk2).
      exists [{| Par.c_address := a; Par.c_offset := offset; Par.c_size := length data |}], s2.
      split; [|split].
      * cbn [Par.collectLeafChunks].
        erewrite bind_Return by (apply catch_Return; exact Hf).
        erewrite bind_Return by reflexivity. exact Ht.
      * reflexivity.
      * intros A HA H. apply Hk2; [apply HA; constructor|]. apply Hk. exact H.
    + intros Hdead. inversion Hdead as [? ? Hp|? ? Hn]; subst; [|inversion Hn].
      destruct (scanFetch_dead a s Hp) as (tk & s1 & Hf).
      exists a, tk. eexists. split; [|exact Hp].
      cbn [Par.collectLeafChunks].
      erewrite bind_Throw; [reflexivity|].
      erewrite catch_Throw by exact Hf. reflexivity.
  - destruct t as [a|a cs]; [contradiction|].
    destruct Hserves as [(data & Hdata & Hchildren) Hcs]. cbn [root leaves_of].
    destruct (scanFetch_alive a data s Hdata) as (s1 & Hf & Hk1).
    cbn [Par.collectLeafChunks].
    erewrite bind_Return by (apply catch_Return; exact Hf).
    erewrite bind_Return by reflexivity.
    rewrite Hchildren.
    match goal with |- context [for_of ?body _ []] => set (B := body) end.
    assert (Hloop : forall cs', Forall (serves payload d) cs' ->
      forall (g : nat -> nat) results s0,
        (all_alive (concat (map leaves_of cs')) ->
         exists res s',
           for_of B (imap (fun i child => (g i, child)) (root <$> cs')) results s0
           = (Return (results ++ res), s') /\
           Par.c_address <$> res = concat (map leaves_of cs') /\
           (forall A, (forall a, a ∈ concat (map leaves_of cs') -> a ∈ A) ->
                      known A s0 -> known A s')) /\
        (some_dead (concat (map leaves_of cs')) ->
         exists a' tk s',
           for_of B (imap (fun i child => (g i, child)) (root <$> cs')) results s0
           = (Throw (RpcError a' tk), s') /\
           payload a' = None)).
    { clear Hcs Hchildren. induction 1 as [|c cs' Hc _ IHcs]; intros g results s0.
      - split.
        + intros _. exists [], s0. rewrite app_nil_r.
          split; [reflexivity|]. split; [reflexivity|]. auto.
        + intros Hd. inversion Hd.
      - cbn [map concat fmap list_fmap imap for_of]. unfold all_alive, some_dead.
        rewrite Forall_app, Exists_app.
        destruct (IH c 0 s0 Hc) as [IHalive IHdead].
        split.
        + intros [Hac Harest].
          destruct (IHalive Hac) as (res1 & s2 & Hrun1 & Haddr1 & Hk2).
          destruct (awaitSleep_spec 300 s2) as (s3 & Hsl & Hk3 & _).
          destruct (IHcs (g ∘ S) (results ++ res1) s3) as [IHrest _].
          destruct (IHrest Harest) as (res2 & s4 & Hrun2 & Haddr2 & Hk4).
          exists (res1 ++ res2), s4. split; [|split].
          * erewrite bind_Return.
            2:{ unfold B at 1. erewrite bind_Return by (apply catch_Return; exact Hrun1).
                erewrite bind_Return by exact Hsl. reflexivity. }
            rewrite app_assoc. exact Hrun2.
          * rewrite fmap_app, Haddr1, Haddr2. reflexivity.
          * intros A HA H.
            apply Hk4; [intros a0 Ha0; apply HA, elem_of_app; auto|].
            apply Hk3, Hk2; [intros a0 Ha0; apply HA, elem_of_app; auto|exact H].
        + intros Hd.
          destruct (alive_or_dead (leaves_of c)) as [Hac|Hdc].
          * assert (Hdrest : some_dead (concat (map leaves_of cs'))).
            { destruct Hd as [Hd|Hd]; [|exact Hd].
              exfalso. exact (alive_not_dead _ Hac Hd). }
            destruct (IHalive Hac) as (res1 & s2 & Hrun1 & _).
            destruct (awaitSleep_spec 300 s2) as (s3 & Hsl & _).
            destruct (IHcs (g ∘ S) (results ++ res1) s3) as [_ IHrest].
            destruct (IHrest Hdrest) as (a' & tk & s4 & Hrun2 & Hp).
            exists a', tk, s4. split; [|exact Hp].
            erewrite bind_Return.
            2:{ unfold B at 1. erewrite bind_Return by (apply catch_Return; exact Hrun1).
                erewrite bind_Return by exact Hsl. reflexivity. }
            exact Hrun2.
          * destruct (IHdead Hdc) as (a1 & tk1 & s2 & Hrun1 & _).
            unfold B at 1. cbn beta iota.
            match goal with |- context [Par.logS ?msg] =>
              destruct (logS_spec msg s2) as (s3 & Hlog & _)
            end.
            destruct (awaitSleep_spec 2000 s3) as (s4 & Hsl & _).
            destruct (IH c 0 s4 Hc) as [_ IHdead'].
            destruct (IHdead' Hdc) as (a' & tk & s5 & Hrun2 & Hp).
            exists a', tk, s5. split; [|exact Hp].
            erewrite bind_Throw; [reflexivity|].
            erewrite bind_Throw; [reflexivity|].
            erewrite catch_Throw by exact Hrun1.
            erewrite bind_Return by exact Hlog.
            erewrite bind_Return by exact Hsl. exact Hrun2. }
    destruct (Hloop cs Hcs id [] s1) as [Halive Hdead].
    split.
    + intros Ha. destruct (Halive Ha) as (res & s2 & Hrun & Haddr & Hk2).
      exists (Par.fix_offsets offset res), s2. split; [|split].
      * erewrite bind_Return by exact Hrun. reflexivity.
      * rewrite fix_offsets_address. exact Haddr.
      * intros A HA H. apply Hk2; [exact HA|]. apply Hk1. exact H.
    + intros Hd. destruct (Hdead Hd) as (a' & tk & s2 & Hrun & Hp).
      exists a', tk, s2. split; [|exact Hp].
      erewrite bind_Throw by exact Hrun. reflexivity.
Qed.
(** *** The completion poll *)

Lemma poll_unfold fuel (start maxWait : Z) (total : nat) s :
  poll fuel start maxWait total s
  = if size (Par.loadResults s) <? total then
      if (Par.now s - start >? maxWait)%Z then
        (Throw (Error ("Timeout: " +:+ dec (size (Par.loadResults s))
                         +:+ "/" +:+ dec total)), s)
      else
        match fuel with
        | 0 => (Return None, s)
        | S fuel' => (awaitSleep 500 ;; poll fuel' start maxWait total) s
        end
    else (Return (Some tt), s).
Proof.
  destruct fuel; cbn [Par.poll]; unfold bind at 1, Par.gets at 1; cbn beta;
    (destruct (size (Par.loadResults s) <? total); [|reflexivity]);
    unfold bind at 1, Par.gets at 1; cbn beta;
    destruct (Par.now s - start >? maxWait)%Z; reflexivity.
Qed.

(** With enough rounds the poll ends, either because the results map has
    reached the leaf count, or past the deadline with the timeout error that
    carries the size of the map and the leaf count. *)
Lemma poll_outcome (start maxWait : Z) (total : nat) : forall fuel s,
  (maxWait < Par.now s - start + 500 * Z.of_nat fuel)%Z ->
  exists s',
    (poll fuel start maxWait total s = (Return (Some tt), s') /\
     total <= size (Par.loadResults s')) \/
    (poll fuel start maxWait total s
     = (Throw (Error ("Timeout: " +:+ dec (size (Par.loadResults s')) +:+ "/" +:+ dec total)),
        s') /\
     size (Par.loadResults s') < total /\
     (maxWait < Par.now s' - start)%Z).
Proof.
  induction fuel as [|fuel IH]; intros s Hfuel; rewrite poll_unfold;
    (destruct (Nat.ltb_spec (size (Par.loadResults s)) total) as [Hlt|Hge];
      [|exists s; left; split; [reflexivity|exact Hge]]);
    destruct (Z.gtb_spec (Par.now s - start) maxWait) as [Hgt|Hle];
    try (exists s; right; split; [reflexivity|]; split; [exact Hlt|lia]).
  - lia.
  - destruct (awaitSleep_spec 500 s) as (s1 & Hsl & _ & Hnow).
    destruct (IH s1 ltac:(lia)) as (s' & H).
    exists s'. erewrite bind_Return by exact Hsl. exact H.
Qed.

(** While everything the loader holds is among fewer addresses than there
    are leaves, the poll can only time out. *)
Lemma poll_times_out (A : gset Address) (start maxWait : Z) (total : nat) :
  size A < total ->
  forall fuel s,
    known A s ->
    (maxWait < Par.now s - start + 500 * Z.of_nat fuel)%Z ->
    exists k s',
      poll fuel start maxWait total s
      = (Throw (Error ("Timeout: " +:+ dec k +:+ "/" +:+ dec total)), s') /\
      k < total.
Proof.
  intros HA. induction fuel as [|fuel IH]; intros s Hk Hfuel;
    (assert (Hlt : size (Par.loadResults s) < total);
      [destruct Hk as (Hr & _); apply subseteq_size in Hr; rewrite size_dom in Hr; lia|]);
    rewrite poll_unfold;
    (destruct (Nat.ltb_spec (size (Par.loadResults s)) total); [|lia]);
    destruct (Z.gtb_spec (Par.now s - start) maxWait) as [Hgt|Hle];
    try (do 2 eexists; split; [reflexivity|exact Hlt]).
  - lia.
  - destruct (awaitSleep_spec 500 s) as (s1 & Hsl & Hk1 & Hnow).
    destruct (IH s1 (Hk1 A Hk) ltac:(lia)) as (k & s' & Hrun).
    exists k, s'. erewrite bind_Return by exact Hsl. exact Hrun.
Qed.

Lemma known_state0 A t0 : known A (Par.state0 t0).
Proof.
  unfold known, Par.state0. cbn. split; [|split; constructor].
  rewrite dom_empty. apply empty_subseteq.
Qed.
End Overlapped.

Lemma size_list_to_set_dup (l : list Address) :
  ~ NoDup l -> size (list_to_set l : gset Address) < length l.
Proof.
  assert (Hle : forall l : list Address, size (list_to_set l : gset Address) <= length l).
  { clear. induction l as [|a l IH]; [reflexivity|].
    cbn [list_to_set length]. rewrite size_union_alt, size_singleton.
    pose proof (subseteq_size (list_to_set l ∖ {[a]}) (list_to_set l : gset Address)
                  ltac:(apply subseteq_difference_l; reflexivity)).
    lia. }
  induction l as [|a l IH]; intros Hnd.
  - exfalso. apply Hnd. constructor.
  - cbn [list_to_set length].
    destruct (decide (a ∈ l)) as [Hin|Hnin].
    + replace ({[a]} ∪ list_to_set l : gset Address) with (list_to_set l : gset Address).
      * specialize (Hle l). lia.
      * apply set_eq. intros x. rewrite elem_of_union, elem_of_singleton, elem_of_list_to_set.
        split; [auto|]. intros [->|Hx]; auto.
    + assert (Hnd' : ~ NoDup l).
      { intros Hl. apply Hnd. constructor; assumption. }
      specialize (IH Hnd').
      rewrite size_union_alt, size_singleton.
      pose proof (subseteq_size (list_to_set l ∖ {[a]}) (list_to_set l : gset Address)
                    ltac:(apply subseteq_difference_l; reflexivity)).
      lia.
Qed.

(** C10: the results map is keyed by address, so it never holds more entries
    than there are distinct leaf addresses.  When the scanned tree has two
    leaves with the same address, and even though every read succeeds, the
    completion test of [fetchTree] never passes: under every schedule the
    run ends with the timeout error, whose loaded count is below the leaf
    count. *)
Theorem duplicate_leaves_never_complete (env : Env) (sched : Par.Sched)
    (chunkGrid : bool) (payload : Address -> option bytes)
    (depth : nat) (t : Tree) (t0 : Z) (fuel : nat) :
  steady env payload ->
  serves payload depth t ->
  all_alive payload (leaves_of t) ->
  ~ NoDup (leaves_of t) ->
  241 <= fuel ->
  exists k s',
    Par.fetchTree env sched chunkGrid fuel (root t) depth (Par.state0 t0)
    = (Throw (Error ("Timeout: " +:+ dec k +:+ "/" +:+ dec (length (leaves_of t)))), s') /\
    k < length (leaves_of t).
Proof.
  intros Hsteady Hserves Halive Hdup Hfuel.
  set (A := list_to_set (leaves_of t) : gset Address).
  unfold Par.fetchTree.
  erewrite bind_Return by reflexivity.
  erewrite bind_Return by reflexivity.
  match goal with |- context [bind (Par.collectLeafChunks _ _ _ _ _ _) _ ?s0] =>
    destruct (collect_steady env sched chunkGrid payload Hsteady depth t 0 s0 Hserves)
      as [Hscan _];
    destruct (Hscan Halive) as (res & s2 & Hrun & Haddr & Hk);
    assert (Hknown : known A s2)
      by (apply Hk; [intros a Ha; apply elem_of_list_to_set; exact Ha
                    |apply (known_state0 A t0)])
  end.
  erewrite bind_Return by exact Hrun.
  erewrite bind_Return by reflexivity.
  erewrite bind_Return by reflexivity.
  erewrite bind_Return by reflexivity.
  erewrite bind_Return by reflexivity.
  assert (Hlen : length res = length (leaves_of t)).
  { rewrite <- Haddr. now rewrite length_fmap. }
  rewrite Hlen.
  match goal with |- context [bind (Par.poll _ _ _ ?start ?maxWait ?total) _ ?s3] =>
    destruct (poll_times_out env sched A start maxWait total
                (size_list_to_set_dup _ Hdup) fuel s3) as (k & s' & Hpoll & Hlt)
  end.
  - exact Hknown.
  - cbn. lia.
  - exists k, s'. split; [|exact Hlt].
    erewrite bind_Throw by exact Hpoll. reflexivity.
Qed.

Lemma duplicate_leaves_never_complete_witness :
  steady TwinLeaves.env TwinLeaves.payload /\
  serves TwinLeaves.payload 1 TwinLeaves.tree /\
  all_alive TwinLeaves.payload (leaves_of TwinLeaves.tree) /\
  ~ NoDup (leaves_of TwinLeaves.tree) /\
  241 <= 241 /\
  exists k s',
    Par.fetchTree TwinLeaves.env TwinLeaves.sched true 241 "0xRoot" 1 (Par.state0 0)
    = (Throw (Error ("Timeout: " +:+ dec k +:+ "/" +:+ "2")), s') /\
    k < 2.
Proof.
  assert (H1 : steady TwinLeaves.env TwinLeaves.payload) by (intros t a; reflexivity).
  assert (H2 : serves TwinLeaves.payload 1 TwinLeaves.tree).
  { simpl. split; [eexists; split; reflexivity|]. repeat constructor. }
  assert (H3 : all_alive TwinLeaves.payload (leaves_of TwinLeaves.tree)).
  { repeat constructor; eexists; reflexivity. }
  assert (H4 : ~ NoDup (leaves_of TwinLeaves.tree)).
  { intros H. apply NoDup_cons in H as [H _]. apply H. constructor. }
  assert (H5 : 241 <= 241) by lia.
  repeat (split; [assumption|]).
  exact (duplicate_leaves_never_complete TwinLeaves.env TwinLeaves.sched true
           TwinLeaves.payload 1 TwinLeaves.tree 0 241 H1 H2 H3 H4 H5).
Defined.




(** C4 at ten leaves of which two never answer: [_loadChunks] goes through
    pass 1 and five retry rounds and returns the eight chunks that loaded;
    what is left in [toRetry] is dropped with the local variable, and the run
    leaves no report of any kind.  The page's [retryFailedChunks] ends the
    same rounds by logging the number of leaves that permanently failed. *)
Lemma library_forgets_failed_leaves :
  exists chunks toRetry w',
    Lib._loadChunks_run TenLeaves.env TenLeaves.leaves (fun _ _ => ret tt) world0
    = (Return (chunks, toRetry), w') /\
    Lib._loadChunks TenLeaves.env TenLeaves.leaves (fun _ _ => ret tt) world0
    = (Return chunks, w') /\
    length chunks = 8 /\
    length toRetry = 2 /\
    filter is_report (trace w') = [] /\
    filter (fun ms => 500 <=? ms)%Z
      (omap (fun e => match e with EvSleep ms => Some ms | _ => None end) (rev (trace w')))
    = [500; 1000; 1500; 2000; 2500]%Z /\
    exists w'',
      Seq.retryFailedChunks TenLeaves.env toRetry chunks w' = (Return (chunks, toRetry), w'') /\
      head (trace w'') = Some (EvLog "2 chunks permanently failed").
Proof.
  do 3 eexists. split; [vm_compute; reflexivity|].
  repeat split; try (vm_compute; reflexivity).
  eexists. split; vm_compute; reflexivity.
Qed.

(** ** Completion of the overlapped load *)

Section Assemble.
Context (s : Par.State).
#[local] Abbreviation tbl := (Par.loadResults s).

Lemma loaded_payload_Some c d :
  tbl !! Par.c_address c = Some d -> loaded_payload tbl c = d.
Proof. intros H. unfold loaded_payload. now rewrite H. Qed.

Lemma place_loop cs : Forall (fun c => is_Some (tbl !! Par.c_address c)) cs ->
  forall acc offset,
  for_of (fun '(acc, currentOffset) chunk =>
            let* tbl := Par.gets Par.loadResults in
            let* data := defined (tbl !! Par.c_address chunk) in
            ret (acc ++ [{| Par.c_address := Par.c_address chunk;
                            Par.c_offset := currentOffset;
                            Par.c_size := length data |}],
                 currentOffset + length data))
         cs (acc, offset) s
  = (Return (acc ++ placed_from tbl offset cs,
             offset + length (concat (loaded_payload tbl <$> cs))), s).
Proof.
  induction 1 as [|c cs [d Hd] _ IH]; intros acc offset.
  - simpl. rewrite app_nil_r, Nat.add_0_r. reflexivity.
  - cbn [for_of placed_from fmap list_fmap concat].
    rewrite !(loaded_payload_Some c d Hd).
    erewrite bind_Return.
    2:{ erewrite bind_Return by reflexivity. rewrite Hd.
        erewrite bind_Return by reflexivity. reflexivity. }
    rewrite IH, <- app_assoc, length_app, Nat.add_assoc. reflexivity.
Qed.

Lemma placed_total cs : forall offset sum,
  foldl (fun sum c => sum + Par.c_size c) sum (placed_from tbl offset cs)
  = sum + length (concat (loaded_payload tbl <$> cs)).
Proof.
  induction cs as [|c cs IH]; intros offset sum.
  - simpl. lia.
  - cbn [placed_from foldl fmap list_fmap concat Par.c_size].
    rewrite IH, length_app. lia.
Qed.

Lemma write_placed_loop cs : Forall (fun c => is_Some (tbl !! Par.c_address c)) cs ->
  forall (written : bytes) (k : nat),
  for_of (fun finalData chunk =>
            let* tbl := Par.gets Par.loadResults in
            let* data := defined (tbl !! Par.c_address chunk) in
            array_set finalData data (Par.c_offset chunk))
         (placed_from tbl (length written) cs)
         (written ++ zeros (length (concat (loaded_payload tbl <$> cs)) + k)) s
  = (Return ((written ++ concat (loaded_payload tbl <$> cs)) ++ zeros k), s).
Proof.
  induction 1 as [|c cs [d Hd] _ IH]; intros written k.
  - simpl. rewrite app_nil_r. reflexivity.
  - cbn [placed_from for_of fmap list_fmap concat].
    rewrite !(loaded_payload_Some c d Hd).
    erewrite bind_Return.
    2:{ erewrite bind_Return by reflexivity. cbn [Par.c_address Par.c_offset].
        rewrite Hd. erewrite bind_Return by reflexivity.
        rewrite length_app, <- Nat.add_assoc. apply array_set_fill. }
    rewrite <- length_app, IH, <- !app_assoc. reflexivity.
Qed.

(** When every leaf has its entry, [assemble] returns the loaded payloads
    in leaf order. *)
Lemma assemble_loaded_all leafChunks :
  Forall (fun c => is_Some (tbl !! Par.c_address c)) leafChunks ->
  Par.assemble leafChunks s = (Return (concat (loaded_payload tbl <$> leafChunks)), s).
Proof.
  intros Hall. unfold Par.assemble.
  erewrite bind_Return by (apply (place_loop leafChunks Hall [] 0)).
  cbn [fst app]. rewrite placed_total. cbn [Nat.add].
  pose proof (write_placed_loop leafChunks Hall [] 0) as H.
  cbn [length app] in H. rewrite Nat.add_0_r in H. rewrite H.
  now rewrite app_nil_r.
Qed.
End Assemble.

Lemma size_list_to_set_le (l : list Address) :
  size (list_to_set l : gset Address) <= length l.
Proof.
  induction l as [|a l IH]; [reflexivity|].
  cbn [list_to_set length]. rewrite size_union_alt, size_singleton.
  pose proof (subseteq_size (list_to_set l ∖ {[a]}) (list_to_set l : gset Address)
                ltac:(apply subseteq_difference_l; reflexivity)).
  lia.
Qed.

Lemma poll_keeps_known env sched (start maxWait : Z) (total : nat) A :
  forall fuel s r s',
    Par.poll env sched fuel start maxWait total s = (r, s') ->
    known A s -> known A s'.
Proof.
  induction fuel as [|fuel IH]; intros s r s' Hrun Hk; rewrite poll_unfold in Hrun;
    destruct (size (Par.loadResults s) <? total);
    try destruct (Par.now s - start >? maxWait)%Z;
    try (injection Hrun as _ <-; exact Hk).
  destruct (awaitSleep_spec env sched 500 s) as (s1 & Hsl & Hk1 & _).
  erewrite bind_Return in Hrun by exact Hsl.
  eapply IH; [exact Hrun|]. apply Hk1. exact Hk.
Qed.


(** *** What [fetchTree] raises, and when *)

Lemma keeps_ret {A} I (a : A) : keeps I (ret a).
Proof. intros s H. exact H. Qed.

Lemma keeps_throw {A} I e : keeps I (throw e : M Par.State A).
Proof. intros s H. exact H. Qed.

Lemma keeps_bind {A B} I (m : M Par.State A) (k : A -> M Par.State B) :
  keeps I m -> (forall a, keeps I (k a)) -> keeps I (bind m k).
Proof.
  intros Hm Hk s H. unfold bind. specialize (Hm s H).
  destruct (m s) as [[a|e] s1]; cbn [snd] in *; [now apply Hk|exact Hm].
Qed.

Lemma keeps_try_catch {A} I (m : M Par.State A) h :
  keeps I m -> (forall e, keeps I (h e)) -> keeps I (try_catch m h).
Proof.
  intros Hm Hh s H. unfold try_catch. specialize (Hm s H).
  destruct (m s) as [[a|e] s1]; cbn [snd] in *; [exact Hm|now apply Hh].
Qed.

Lemma keeps_for_of {A B} I (body : B -> A -> M Par.State B) :
  (forall b x, keeps I (body b x)) -> forall xs b, keeps I (for_of body xs b).
Proof.
  intros Hbody. induction xs as [|x xs IH]; intros b; [apply keeps_ret|].
  cbn [for_of]. apply keeps_bind; [apply Hbody|apply IH].
Qed.

Lemma keeps_defined {A} I (v : option A) : keeps I (defined v).
Proof. destruct v; [apply keeps_ret|apply keeps_throw]. Qed.

Lemma keeps_gets {A} I (f : Par.State -> A) : keeps I (Par.gets f).
Proof. intros s H. exact H. Qed.

Lemma keeps_array_set I dst src offset : keeps I (array_set dst src offset).
Proof. unfold array_set. destruct (_ <=? _); [apply keeps_ret|apply keeps_throw]. Qed.













Section Raises.
Context (env : Env) (sched : Par.Sched) (chunkGrid : bool).











End Raises.






(** * Beyond the scan-and-load engine *)

(** ** The flat loader *)

Section FlatLoader.
Context (chain : Flat.Chain) (config : Flat.Config).

Lemma flat_call_served {A} (answer : nat -> option A) a d r :
  answer (tick (Flat.world d)) = Some r ->
  exists d', Flat.call answer a d = (Return r, d') /\
             tick (Flat.world d') = S (tick (Flat.world d)) /\
             Flat.statusText d' = Flat.statusText d /\ same_document d d'.
Proof.
  intros H. unfold Flat.call. rewrite H. eexists. split; [reflexivity|].
  repeat split.
Qed.

Lemma string_app_assoc (a b c : string) : (a +:+ b) +:+ c = a +:+ (b +:+ c).
Proof.
  induction a as [|x a IH]; [reflexivity|].
  change (String x ((a +:+ b) +:+ c) = String x (a +:+ (b +:+ c))). now rewrite IH.
Qed.

Lemma string_app_nil_r (a : string) : a +:+ EmptyString = a.
Proof.
  induction a as [|x a IH]; [reflexivity|].
  change (String x (a +:+ EmptyString) = String x a). now rewrite IH.
Qed.

Lemma setStatus_spec b text d :
  exists d', Flat.setStatus b text d = (Return tt, d') /\
             Flat.world d' = Flat.world d /\ same_document d d' /\
             Flat.statusText d' = if b then Some text else Flat.statusText d.
Proof. eexists. split; [reflexivity|]. destruct b; repeat split. Qed.

Lemma progress_spec count i d : observing config ->
  exists d', match Flat.onProgress config with
             | Some f => f (i + 1) count
             | None => ret tt
             end d = (Return tt, d') /\
             tick (Flat.world d') = tick (Flat.world d) /\ same_document d d' /\
             Flat.statusText d' = Flat.statusText d.
Proof.
  unfold observing. destruct (Flat.onProgress config) as [f|]; intros Hobs.
  - destruct (Hobs (i + 1) count d) as (w' & Hf & Ht).
    eexists. split; [exact Hf|]. repeat split. exact Ht.
  - eexists. split; [reflexivity|]. repeat split.
Qed.

Lemma same_document_trans d1 d2 d3 :
  same_document d1 d2 -> same_document d2 d3 -> same_document d1 d3.
Proof. unfold same_document. intros (?&?&?) (?&?&?). repeat split; congruence. Qed.

End FlatLoader.

Lemma valid_inv config : valid config = true ->
  exists c m, Flat.masterAddress config = Some (String c m) /\
              negb (Flat.truthy (Flat.masterAddress config))
              || negb (Flat.truthy (Flat.rpcUrl config)) = false.
Proof.
  unfold valid. intros H. apply andb_prop in H as [H1 H2].
  rewrite H1, H2. destruct (Flat.masterAddress config) as [[|c m]|]; try discriminate.
  eauto.
Qed.





Section FlatServed.
Context (chain : Flat.Chain) (config : Flat.Config).
Context (master : Address) (n t0 : nat) (addr : nat -> Address) (text : nat -> string).
Hypothesis Hobs : observing config.
Hypothesis Hresolve : forall i, i < n ->
  Flat.resolveChunk chain (t0 + 1 + 2 * i) master i = Some (addr i).
Hypothesis Hread : forall i, i < n ->
  Flat.pageText chain (t0 + 2 + 2 * i) (addr i) = Some (text i).

Lemma joined_app_one acc x xs : (acc +:+ x) +:+ joined xs = acc +:+ joined (x :: xs).
Proof. cbn [joined foldr]. apply string_app_assoc. Qed.

Lemma flat_loop_served statusElement : forall m k acc d,
  k + m = n ->
  tick (Flat.world d) = t0 + 1 + 2 * k ->
  exists d',
    for_of (fun fullSource i =>
              Flat.setStatus statusElement
                ("Loading " +:+ dec (i + 1) +:+ "/" +:+ dec n +:+ "...") ;;
              match Flat.onProgress config with
              | Some f => f (i + 1) n
              | None => ret tt
              end ;;
              let* chunkAddr := Flat.resolveCurrentChunk chain master i in
              let* text := Flat.read chain chunkAddr in
              ret (fullSource +:+ text)) (seq k m) acc d
    = (Return (acc +:+ joined (text <$> seq k m)), d') /\
    same_document d d' /\
    tick (Flat.world d') = t0 + 1 + 2 * n /\
    Flat.statusText d'
    = match m with
      | 0 => Flat.statusText d
      | S _ => if statusElement
               then Some ("Loading " +:+ dec n +:+ "/" +:+ dec n +:+ "...")
               else Flat.statusText d
      end.
Proof.
  induction m as [|m IH]; intros k acc d Hk Ht.
  - exists d. cbn [seq for_of fmap list_fmap joined foldr]. rewrite string_app_nil_r.
    split; [reflexivity|]. split; [repeat split|]. split; [lia|reflexivity].
  - cbn [seq for_of].
    destruct (setStatus_spec statusElement
                ("Loading " +:+ dec (k + 1) +:+ "/" +:+ dec n +:+ "...") d)
      as (d1 & E1 & W1 & D1 & S1).
    destruct (progress_spec config n k d1 Hobs) as (d2 & E2 & W2 & D2 & S2).
    rewrite W1 in W2.
    destruct (flat_call_served (fun t => Flat.resolveChunk chain t master k) master d2
                (addr k)) as (d3 & E3 & W3 & S3 & D3).
    { rewrite W2, Ht. apply Hresolve. lia. }
    destruct (flat_call_served (fun t => Flat.pageText chain t (addr k)) (addr k) d3
                (text k)) as (d4 & E4 & W4 & S4 & D4).
    { rewrite W3, W2, Ht. replace (S (t0 + 1 + 2 * k)) with (t0 + 2 + 2 * k) by lia.
      apply Hread. lia. }
    destruct (IH (S k) (acc +:+ text k) d4) as (d' & E' & D' & W' & S'); [lia|lia|].
    exists d'. split; [|split; [|split; [exact W'|]]].
    + erewrite bind_Return.
      2:{ erewrite bind_Return by exact E1.
          erewrite bind_Return by exact E2.
          erewrite bind_Return by exact E3.
          erewrite bind_Return by exact E4. reflexivity. }
      rewrite E'. rewrite fmap_cons, joined_app_one. reflexivity.
    + eapply same_document_trans; [|exact D'].
      eapply same_document_trans; [|exact D4].
      eapply same_document_trans; [|exact D3].
      eapply same_document_trans; [exact D1|exact D2].
    + rewrite S'. rewrite S4, S3, S2, S1.
      destruct m as [|m]; [|now destruct statusElement].
      replace (k + 1) with n by lia. reflexivity.
Qed.
End FlatServed.

(** Take a configuration with [masterAddress] and [rpcUrl] whose
    [onProgress], if any, only observes, and a chain that reports [n] pages,
    [n] at least 1, and answers every read.  Then [OnChainLoader.load]
    returns having passed to [document.write] the texts of pages [0..n-1]
    joined in that order, after one read for the count and two reads per
    page, without having assigned [document.body.innerHTML] or called
    [console.error]; with [showStatus], the text last assigned to the status
    element is [Loading n/n...]. *)
Theorem flat_load_joins_pages (chain : Flat.Chain) (config : Flat.Config) (d : Flat.Dom)
    (master : Address) (n : nat) (addr : nat -> Address) (text : nat -> string) :
  let t0 := tick (Flat.world d) in
  valid config = true ->
  observing config ->
  Flat.masterAddress config = Some master ->
  0 < n ->
  Flat.chunkCount chain t0 master = Some n ->
  (forall i, i < n -> Flat.resolveChunk chain (t0 + 1 + 2 * i) master i = Some (addr i)) ->
  (forall i, i < n -> Flat.pageText chain (t0 + 2 + 2 * i) (addr i) = Some (text i)) ->
  exists d',
    Flat.load chain config d = (Return tt, d') /\
    Flat.written d' = Some (joined (text <$> seq 0 n)) /\
    Flat.bodyHTML d' = Flat.bodyHTML d /\ Flat.console d' = Flat.console d /\
    tick (Flat.world d') = t0 + 1 + 2 * n /\
    Flat.statusText d'
    = (if Flat.showStatus config
       then Some ("Loading " +:+ dec n +:+ "/" +:+ dec n +:+ "...")
       else Flat.statusText d).
Proof.
  intros t0 Hvalid Hobs Hm Hn Hcount Hresolve Hread.
  destruct (valid_inv config Hvalid) as (c & m & Hm' & Hv).
  unfold Flat.load. rewrite Hv, Hm. cbn [default from_option id].
  assert (Hstatus : exists d0,
             (if Flat.showStatus config then Flat._createStatusElement else ret tt) d
             = (Return tt, d0) /\ Flat.world d0 = Flat.world d /\ same_document d d0 /\
             (Flat.showStatus config = false -> Flat.statusText d0 = Flat.statusText d)).
  { destruct (Flat.showStatus config); eexists; (split; [reflexivity|]); repeat split.
    discriminate. }
  destruct Hstatus as (d0 & E0 & W0 & D0 & S0).
  erewrite bind_Return by exact E0.
  destruct (flat_call_served (fun t => Flat.chunkCount chain t master) master d0 n)
    as (d1 & E1 & W1 & S1 & D1).
  { rewrite W0. exact Hcount. }
  rewrite W0 in W1.
  destruct (flat_loop_served chain config master n t0 addr text Hobs Hresolve Hread
              (Flat.showStatus config) n 0 EmptyString d1) as (d2 & E2 & D2 & W2 & S2);
    [lia|fold t0 in W1; lia|].
  unfold try_catch, Flat.getCurrentChunkCount.
  erewrite bind_Return by exact E1.
  replace (n =? 0) with false by (symmetry; apply Nat.eqb_neq; lia).
  erewrite bind_Return by exact E2.
  eexists. split; [reflexivity|].
  destruct D0 as (?&?&?), D1 as (?&?&?), D2 as (?&?&?). cbn.
  split; [reflexivity|]. split; [congruence|]. split; [congruence|].
  split; [exact W2|].
  rewrite S2. destruct n as [|n']; [lia|].
  destruct (Flat.showStatus config); [reflexivity|]. rewrite S1. now apply S0.
Qed.

Lemma flat_load_joins_pages_witness :
  exists d',
    Flat.load FlatSample.chain FlatSample.config Flat.dom0 = (Return tt, d') /\
    Flat.written d' = Some "<p>onchain</p>" /\
    tick (Flat.world d') = 5 /\
    Flat.statusText d' = Some "Loading 2/2...".
Proof.
  destruct (flat_load_joins_pages FlatSample.chain FlatSample.config Flat.dom0 "0xM" 2
              (fun i => nth i ["0xP0"; "0xP1"] EmptyString)
              (fun i => nth i ["<p>on"; "chain</p>"] EmptyString))
    as (d' & E & Hw & _ & _ & Ht & Hs).
  - reflexivity.
  - exact I.
  - reflexivity.
  - lia.
  - reflexivity.
  - intros [|[|i]] Hi; [reflexivity|reflexivity|lia].
  - intros [|[|i]] Hi; [reflexivity|reflexivity|lia].
  - exists d'. split; [exact E|]. split; [exact Hw|]. split; [exact Ht|exact Hs].
Defined.



(** ** The library and the sequential page, side by side *)

Section SideBySide.
Context (env : Env).

(** A fetch depends on the world through the number of reads issued only. *)
Lemma fetch_in_step a retries : forall rem i w1 w2,
  tick w1 = tick w2 ->
  in_step eq (Lib._fetchChunkData_from env rem i retries a w1)
             (Lib._fetchChunkData_from env rem i retries a w2).
Proof.
  induction rem as [|rem IH]; intros i w1 w2 Ht; [split; [reflexivity|exact Ht]|].
  cbn [Lib._fetchChunkData_from]. unfold try_catch, bind at 1 3, readContract.
  rewrite Ht. destruct (rpc env (tick w2) a) as [b|].
  - split; reflexivity.
  - destruct (i =? retries - 1)%Z.
    + split; reflexivity.
    + unfold bind, sleep, emit. apply IH. reflexivity.
Qed.

(** With a positive budget a fetch never returns [undefined]: what it
    returns was served for that address by one of its reads. *)
Lemma fetch_from_served a retries : forall rem i w r w',
  (i + Z.of_nat (S rem) = retries)%Z ->
  Lib._fetchChunkData_from env (S rem) i retries a w = (Return r, w') ->
  exists d t, r = Some d /\ rpc env t a = Some d /\ tick w <= t < tick w'.
Proof.
  induction rem as [|rem IH]; intros i w r w' Hi Hrun;
    cbn [Lib._fetchChunkData_from] in Hrun;
    unfold try_catch, bind at 1, readContract in Hrun;
    destruct (rpc env (tick w) a) as [b|] eqn:E.
  - injection Hrun as <- <-. exists b, (tick w). cbn. repeat split; [exact E|lia|lia].
  - replace (i =? retries - 1)%Z with true in Hrun by (symmetry; apply Z.eqb_eq; lia).
    discriminate.
  - injection Hrun as <- <-. exists b, (tick w). cbn. repeat split; [exact E|lia|lia].
  - replace (i =? retries - 1)%Z with false in Hrun by (symmetry; apply Z.eqb_neq; lia).
    unfold bind at 1, sleep, emit in Hrun.
    apply IH in Hrun as (d & t & -> & Hd & Ht); [|lia].
    exists d, t. cbn in Ht. repeat split; [exact Hd|lia|lia].
Qed.

Lemma fetch_served a (n : nat) w r w' :
  0 < n ->
  Lib._fetchChunkData env a (Z.of_nat n) w = (Return r, w') ->
  exists d t, r = Some d /\ rpc env t a = Some d /\ tick w <= t < tick w'.
Proof.
  intros Hn. unfold Lib._fetchChunkData. rewrite Nat2Z.id.
  destruct n as [|n]; [lia|]. apply fetch_from_served. lia.
Qed.

Lemma fetch_tick_mono a retries : forall rem i w,
  tick w <= tick (Lib._fetchChunkData_from env rem i retries a w).2.
Proof.
  induction rem as [|rem IH]; intros i w; [reflexivity|].
  cbn [Lib._fetchChunkData_from]. unfold try_catch, bind at 1, readContract.
  destruct (rpc env (tick w) a) as [b|]; [cbn; lia|].
  destruct (i =? retries - 1)%Z; [cbn; lia|].
  unfold bind, sleep, emit. etransitivity; [|apply IH]. cbn. lia.
Qed.
End SideBySide.

Lemma for_of_in_step {A1 A2 B1 B2} (Q : B1 -> B2 -> Prop) (g : A1 -> A2)
    (f1 : B1 -> A1 -> M World B1) (f2 : B2 -> A2 -> M World B2) :
  (forall b1 b2 x w1 w2, Q b1 b2 -> tick w1 = tick w2 ->
     in_step Q (f1 b1 x w1) (f2 b2 (g x) w2)) ->
  forall xs b1 b2 w1 w2, Q b1 b2 -> tick w1 = tick w2 ->
    in_step Q (for_of f1 xs b1 w1) (for_of f2 (g <$> xs) b2 w2).
Proof.
  intros Hbody. induction xs as [|x xs IH]; intros b1 b2 w1 w2 HQ Ht.
  - split; [exact HQ|exact Ht].
  - rewrite fmap_cons. cbn [for_of]. unfold bind.
    specialize (Hbody b1 b2 x w1 w2 HQ Ht).
    destruct (f1 b1 x w1) as [[c1|e1] w1'], (f2 b2 (g x) w2) as [[c2|e2] w2'];
      destruct Hbody as [Ha Hw]; cbn in Ha, Hw; try contradiction.
    + now apply IH.
    + split; [exact Ha|exact Hw].
Qed.

Section ScanSideBySide.
Context (env : Env) (onFound : nat -> M World unit).
Hypothesis Hquiet : quiet onFound.

Lemma traverse_in_step : forall d acc st a w1 w2,
  recorded acc st -> tick w1 = tick w2 ->
  in_step recorded (Lib.traverse env onFound d acc a w1) (Seq.traverseNode env d st a w2).
Proof.
  induction d as [|d IH]; intros acc st a w1 w2 Hst Ht; rewrite Hst.
  - cbn [Lib.traverse Seq.traverseNode]. unfold bind.
    destruct (Hquiet (length (acc ++ [a])) w1) as (w1' & -> & Ht').
    split; [|cbn; lia]. cbn. unfold recorded.
    rewrite numbered_app, length_app. cbn. rewrite Nat.add_0_r, Nat.add_1_r. reflexivity.
  - cbn [Lib.traverse Seq.traverseNode]. unfold try_catch, bind at 1 3.
    change (Seq.fetchChunkData env a 3) with (Lib._fetchChunkData env a 3).
    pose proof (fetch_in_step env a 3 (Z.to_nat 3) 0 w1 w2 Ht) as [Ha Hw].
    unfold Lib._fetchChunkData.
    destruct (Lib._fetchChunkData_from env (Z.to_nat 3) 0 3 a w1) as [[r1|e1] w1'],
             (Lib._fetchChunkData_from env (Z.to_nat 3) 0 3 a w2) as [[r2|e2] w2'];
      cbn in Ha, Hw; try contradiction; subst.
    + destruct r2 as [data|].
      * cbn [defined]. unfold bind, ret.
        pose proof (for_of_in_step recorded id
                      (Lib.traverse env onFound d) (Seq.traverseNode env d)
                      (fun b1 b2 x v1 v2 => IH b1 b2 x v1 v2)
                      (childAddrs data) acc (numbered 0 acc, length acc) w1' w2'
                      eq_refl Hw) as Hloop.
        rewrite list_fmap_id in Hloop.
        destruct (for_of (Lib.traverse env onFound d) (childAddrs data) acc w1')
          as [[c1|e1] v1],
          (for_of (Seq.traverseNode env d) (childAddrs data) (numbered 0 acc, length acc) w2')
          as [[c2|e2] v2]; destruct Hloop as [Hq Hv]; cbn in Hq, Hv; try contradiction.
        -- split; [exact Hq|exact Hv].
        -- split; [exact Hq|exact Hv].
      * split; [reflexivity|exact Hw].
    + split; [reflexivity|exact Hw].
Qed.
End ScanSideBySide.


Lemma fetchChunkData_served env a (retries : Z) w r w' :
  (0 < retries)%Z ->
  Lib._fetchChunkData env a retries w = (Return r, w') ->
  exists d t, r = Some d /\ rpc env t a = Some d /\ tick w <= t < tick w'.
Proof.
  intros Hn Hrun. apply (fetch_served env a (Z.to_nat retries)); [lia|].
  now rewrite Z2Nat.id by lia.
Qed.


Section LoadSideBySide.
Context (env : Env) (onProgress : nat -> nat -> M World unit).
Hypothesis Hquiet : forall c, quiet (onProgress c).



End LoadSideBySide.


Lemma quiet_ret {A} : quiet (fun _ : A => ret tt).
Proof. intros x w. eexists. split; reflexivity. Qed.




Section PipelineSideBySide.
Context (env : Env) (onFound : nat -> M World unit).
Context (onProgress : nat -> nat -> M World unit).
Hypothesis Hq : quiet onFound.
Hypothesis Hp : forall c, quiet (onProgress c).

Lemma collect_in_step rootChunk depth w1 w2 :
  tick w1 = tick w2 ->
  in_step (fun addrs leaves => leaves = numbered 0 addrs)
    (Lib._collectLeaves env rootChunk depth onFound w1)
    (Seq.collectLeafAddresses env rootChunk depth w2).
Proof.
  intros Ht. unfold Lib._collectLeaves, Seq.collectLeafAddresses, bind.
  pose proof (traverse_in_step env onFound Hq depth [] ([], 0) rootChunk w1 w2 eq_refl Ht)
    as [Ha Hw].
  destruct (Lib.traverse env onFound depth [] rootChunk w1) as [[r1|e1] v1],
           (Seq.traverseNode env depth ([], 0) rootChunk w2) as [[r2|e2] v2];
    cbn in Ha, Hw; try contradiction.
  - split; [|exact Hw]. cbn. now rewrite Ha.
  - split; [exact Ha|exact Hw].
Qed.

End PipelineSideBySide.

(** The scan of the library and the scan of the sequential page agree on
    every endpoint: run from worlds with as many reads behind them, either
    both return the same leaf addresses in the same order, the page numbering
    them from 0, or both raise the same error; they issue the same reads. *)
Theorem scans_agree (env : Env) (onFound : nat -> M World unit)
    (rootChunk : Address) (depth : nat) (w1 w2 : World) :
  quiet onFound ->
  tick w1 = tick w2 ->
  match Lib._collectLeaves env rootChunk depth onFound w1,
        Seq.collectLeafAddresses env rootChunk depth w2 with
  | (Return addrs, v1), (Return leaves, v2) =>
      leaves = numbered 0 addrs /\ tick v1 = tick v2
  | (Throw e1, v1), (Throw e2, v2) => e1 = e2 /\ tick v1 = tick v2
  | _, _ => False
  end.
Proof.
  intros Hq Ht.
  pose proof (collect_in_step env onFound Hq rootChunk depth w1 w2 Ht) as [Ha Hw].
  destruct (Lib._collectLeaves env rootChunk depth onFound w1) as [[addrs|e1] v1],
           (Seq.collectLeafAddresses env rootChunk depth w2) as [[leaves|e2] v2];
    cbn in Ha, Hw; try contradiction; split; assumption.
Qed.

Lemma scans_agree_witness :
  exists v1 v2,
    Lib._collectLeaves SampleTree.env "0xRoot" 2 (fun _ => ret tt) world0
    = (Return (leaves_of SampleTree.tree), v1) /\
    Seq.collectLeafAddresses SampleTree.env "0xRoot" 2 world0
    = (Return (numbered 0 (leaves_of SampleTree.tree)), v2) /\
    tick v1 = tick v2.
Proof.
  pose proof (scans_agree SampleTree.env (fun _ => ret tt) "0xRoot" 2 world0 world0
                quiet_ret eq_refl) as H.
  destruct (Lib._collectLeaves SampleTree.env "0xRoot" 2 (fun _ => ret tt) world0)
    as [[addrs|e1] v1] eqn:E1;
    [|apply (f_equal fst) in E1; vm_compute in E1; discriminate E1].
  destruct (Seq.collectLeafAddresses SampleTree.env "0xRoot" 2 world0)
    as [[leaves|e2] v2]; [|contradiction].
  destruct H as [-> Hv]. exists v1, v2.
  assert (Ha : addrs = leaves_of SampleTree.tree).
  { apply (f_equal fst) in E1. vm_compute in E1. injection E1 as <-. reflexivity. }
  subst addrs. auto.
Defined.













Section PageSideBySide.
Context (env : Env) (index_euc_kr : N -> option N) (formatBytes : nat -> string).
Context (onFound : nat -> M World unit) (onProgress : nat -> nat -> M World unit).
Hypothesis Hq : quiet onFound.
Hypothesis Hp : forall c, quiet (onProgress c).

End PageSideBySide.

Section RenderSideBySide.
Context (env : Env) (index_euc_kr : N -> option N) (formatBytes : nat -> string).

End RenderSideBySide.






(** ** What the phased load holds, whatever the endpoint does *)

Lemma served_between_mono env leaves t0 t1 t1' c :
  t1 <= t1' -> served_between env leaves t0 t1 c -> served_between env leaves t0 t1' c.
Proof. intros Hle (a & d & t & H1 & H2 & H3 & H4). exists a, d, t. repeat split; auto; lia. Qed.

Lemma fetchChunkData_tick env a retries w :
  tick w <= tick (Lib._fetchChunkData env a retries w).2.
Proof. apply fetch_tick_mono. Qed.

Section Served.
Context (env : Env) (leaves : list Address) (t0 : nat).
Context (onProgress : nat -> nat -> M World unit).
Hypothesis Hp : forall c, quiet (onProgress c).

#[local] Abbreviation served_until t := (Forall (served_between env leaves t0 t)).
#[local] Abbreviation named := (Forall (names_leaf leaves)).

Lemma load_pass_served total items : forall chunks failed w,
  Forall (fun p : nat * Address => leaves !! p.1 = Some p.2) items ->
  t0 <= tick w -> served_until (tick w) chunks -> named failed ->
  exists chunks' failed' w',
    for_of (fun '(chunks, failed) '(i, leaf) =>
              onProgress (i + 1) total ;;
              try_catch
                (let* data := Lib._fetchChunkData env leaf 2 in
                 ret (chunks ++ [{| index := i; data := data |}], failed))
                (fun _ => ret (chunks, failed ++ [{| l_index := i; l_address := leaf |}])))
           items (chunks, failed) w
    = (Return (chunks', failed'), w') /\
    tick w <= tick w' /\ served_until (tick w') chunks' /\ named failed'.
Proof.
  induction items as [|[i a] items IH]; intros chunks failed w Hitems Ht Hc Hf.
  - exists chunks, failed, w. split; [reflexivity|]. auto.
  - inversion Hitems as [|? ? Hia Hrest]; subst. cbn [fst snd] in Hia.
    cbn [for_of]. unfold bind at 1. unfold bind at 1.
    destruct (Hp (i + 1) total w) as (w1 & -> & Hw1). unfold try_catch, bind at 1.
    pose proof (fetchChunkData_served env a 2 w1) as Hserved.
    pose proof (fetchChunkData_tick env a 2 w1) as Hmono.
    destruct (Lib._fetchChunkData env a 2 w1) as [[r|e] w2]; cbn [snd] in Hmono.
    + destruct (Hserved r w2 ltac:(lia) eq_refl) as (d & t & -> & Hd & Hdt).
      unfold ret at 1.
      destruct (IH (chunks ++ [{| index := i; data := Some d |}]) failed w2)
        as (chunks' & failed' & w' & Hrun & Hw' & Hc' & Hf'); auto; [lia| |].
      * apply Forall_app. split.
        -- eapply Forall_impl; [exact Hc|]. intros c. apply served_between_mono. lia.
        -- constructor; [|constructor]. exists a, d, t. repeat split; auto; lia.
      * exists chunks', failed', w'. split; [exact Hrun|]. split; [lia|auto].
    + unfold ret at 1.
      destruct (IH chunks (failed ++ [{| l_index := i; l_address := a |}]) w2)
        as (chunks' & failed' & w' & Hrun & Hw' & Hc' & Hf'); auto; [lia| | |].
      * eapply Forall_impl; [exact Hc|]. intros c. apply served_between_mono. lia.
      * apply Forall_app. split; [exact Hf|]. constructor; [exact Hia|constructor].
      * exists chunks', failed', w'. split; [exact Hrun|]. split; [lia|auto].
Qed.

Lemma retry_round_served toRetry : forall chunks still w,
  named toRetry -> t0 <= tick w -> served_until (tick w) chunks -> named still ->
  exists chunks' still' w',
    for_of (fun '(chunks, stillFailed) item =>
              let* r :=
                try_catch
                  (let* data := Lib._fetchChunkData env (l_address item) 3 in
                   ret (chunks ++ [{| index := l_index item; data := data |}], stillFailed))
                  (fun _ => ret (chunks, stillFailed ++ [item])) in
              sleep 100 ;;
              ret r)
           toRetry (chunks, still) w
    = (Return (chunks', still'), w') /\
    tick w <= tick w' /\ served_until (tick w') chunks' /\ named still'.
Proof.
  induction toRetry as [|item toRetry IH]; intros chunks still w Hitems Ht Hc Hf.
  - exists chunks, still, w. split; [reflexivity|]. auto.
  - inversion Hitems as [|? ? Hitem Hrest]; subst.
    cbn [for_of]. unfold bind at 1. unfold bind at 1. unfold try_catch, bind at 1.
    pose proof (fetchChunkData_served env (l_address item) 3 w) as Hserved.
    pose proof (fetchChunkData_tick env (l_address item) 3 w) as Hmono.
    destruct (Lib._fetchChunkData env (l_address item) 3 w) as [[r|e] w2];
      cbn [snd] in Hmono.
    + destruct (Hserved r w2 ltac:(lia) eq_refl) as (d & t & -> & Hd & Hdt).
      unfold ret at 1, bind at 1, sleep, emit, ret at 1.
      match goal with |- context [for_of _ toRetry ?acc ?v] =>
        destruct (IH (chunks ++ [{| index := l_index item; data := Some d |}]) still v)
          as (chunks' & still' & w' & Hrun & Hw' & Hc' & Hf'); auto; [cbn; lia| |]
      end.
      * cbn [tick]. apply Forall_app. split.
        -- eapply Forall_impl; [exact Hc|]. intros c. apply served_between_mono. lia.
        -- constructor; [|constructor]. exists (l_address item), d, t.
           repeat split; auto; lia.
      * exists chunks', still', w'. split; [exact Hrun|]. cbn [tick] in Hw'.
        split; [lia|auto].
    + unfold ret at 1, bind at 1, sleep, emit, ret at 1.
      match goal with |- context [for_of _ toRetry ?acc ?v] =>
        destruct (IH chunks (still ++ [item]) v)
          as (chunks' & still' & w' & Hrun & Hw' & Hc' & Hf'); auto; [cbn; lia| | |]
      end.
      * cbn [tick]. eapply Forall_impl; [exact Hc|].
        intros c. apply served_between_mono. lia.
      * apply Forall_app. split; [exact Hf|]. constructor; [exact Hitem|constructor].
      * exists chunks', still', w'. split; [exact Hrun|]. cbn [tick] in Hw'.
        split; [lia|auto].
Qed.

Lemma retry_rounds_served : forall left retryRound toRetry chunks w,
  named toRetry -> t0 <= tick w -> served_until (tick w) chunks ->
  exists chunks' toRetry' w',
    Lib.retry_rounds env left retryRound toRetry chunks w
    = (Return (chunks', toRetry'), w') /\
    tick w <= tick w' /\ served_until (tick w') chunks' /\ named toRetry'.
Proof.
  induction left as [|left IH]; intros retryRound toRetry chunks w Hn Ht Hc.
  - exists chunks, toRetry, w. destruct toRetry; (split; [reflexivity|]); auto.
  - destruct toRetry as [|leaf rest].
    + exists chunks, [], w. split; [reflexivity|]. auto.
    + cbn [Lib.retry_rounds]. unfold bind at 1, sleep, emit. unfold bind at 1.
      unfold Lib.retry_round.
      match goal with |- context [for_of _ (leaf :: rest) ?acc ?v] =>
        destruct (retry_round_served (leaf :: rest) chunks [] v)
          as (chunks1 & still1 & w1 & Hrun & Hw1 & Hc1 & Hf1); auto
      end.
      rewrite Hrun. cbn [fst snd]. cbn [tick] in Hw1.
      destruct (IH (S retryRound) still1 chunks1 w1)
        as (chunks' & toRetry' & w' & Hrun' & Hw' & Hc' & Hf'); auto; [lia|].
      exists chunks', toRetry', w'. split; [exact Hrun'|]. split; [lia|auto].
Qed.
End Served.

Lemma reports_quiet onProgress ev : reports onProgress ev -> forall c, quiet (onProgress c).
Proof. intros H c t w. rewrite H. eexists. split; [reflexivity|]. cbn. lia. Qed.

Lemma imap_pair_lookup (leaves : list Address) :
  Forall (fun p : nat * Address => leaves !! p.1 = Some p.2)
         (imap (fun i leaf => (i, leaf)) leaves).
Proof.
  apply Forall_forall. intros [i a] Hin.
  apply elem_of_lookup_imap in Hin as (j & b & Heq & Hl). injection Heq as -> ->. exact Hl.
Qed.

Lemma loadChunks_served env leaves onProgress ev w :
  reports onProgress ev ->
  exists chunks toRetry w',
    Lib._loadChunks_run env leaves onProgress w = (Return (chunks, toRetry), w') /\
    tick w <= tick w' /\
    Forall (served_between env leaves (tick w) (tick w')) chunks /\
    Forall (names_leaf leaves) toRetry /\
    NoDup (index <$> chunks).
Proof.
  intros Hrep. pose proof (reports_quiet onProgress ev Hrep) as Hq.
  destruct (loadChunks_accounts env onProgress ev Hrep leaves w)
    as (chunks & toRetry & w' & Hrun & Hacc).
  exists chunks, toRetry, w'. split; [exact Hrun|].
  unfold Lib._loadChunks_run, Lib.load_pass in Hrun.
  destruct (load_pass_served env leaves (tick w) onProgress Hq (length leaves)
              (imap (fun i leaf => (i, leaf)) leaves) [] [] w)
    as (cs & failed & w1 & H1 & Hw1 & Hc1 & Hf1); auto using imap_pair_lookup.
  unfold bind at 1 in Hrun. rewrite H1 in Hrun. cbn [fst snd] in Hrun.
  destruct (retry_rounds_served env leaves (tick w) 5 0 failed cs w1)
    as (chunks' & toRetry' & w2 & H2 & Hw2 & Hc2 & Hf2); auto.
  rewrite H2 in Hrun. injection Hrun as -> -> ->.
  split; [lia|]. split; [exact Hc2|]. split; [exact Hf2|].
  unfold accounted in Hacc. cbn [fst snd] in Hacc.
  assert (Hnd : NoDup ((index <$> chunks) ++ (l_index <$> toRetry))).
  { rewrite Hacc. apply NoDup_ListNoDup, seq_NoDup. }
  apply NoDup_app in Hnd. tauto.
Qed.



(** Chunks whose data is defined are chunks of index-payload pairs. *)
Lemma defined_chunks (chunks : list Chunk) :
  Forall (fun c => is_Some (data c)) chunks ->
  chunks = chunk_of <$> ((fun c => (index c, default [] (data c))) <$> chunks).
Proof.
  induction 1 as [|[i [d|]] chunks [d' Hd] _ IH]; [reflexivity| |discriminate].
  rewrite !fmap_cons, <- IH. reflexivity.
Qed.

(** Once the site information is read and the scan has returned, [getData]
    cannot fail, whatever the endpoint does next: it returns the bytes of the
    leaves that loaded, joined in ascending leaf index, each run of bytes
    being what the endpoint served for that leaf after the scan. *)
Theorem getData_returns_served_bytes (env : Env) (masterAddress : Address) (w w0 w1 : World)
    (info : SiteInfo) (leaves : list Address) :
  getCurrentSiteInfo env masterAddress w = (Return info, w0) ->
  Lib._collectLeaves env (rootChunk info) (depth info) (fun _ => ret tt) w0
  = (Return leaves, w1) ->
  exists ps w',
    Lib.getData env masterAddress w = (Return (concat ps.*2), w') /\
    StronglySorted lt ps.*1 /\
    Forall (fun p => exists a t,
              leaves !! p.1 = Some a /\ rpc env t a = Some p.2 /\ tick w1 <= t < tick w') ps.
Proof.
  intros Hinfo Hscan.
  assert (Hrep : reports (fun _ _ => ret tt) (fun _ _ => [])).
  { intros c t v. unfold ret. now rewrite advance_nil. }
  destruct (loadChunks_served env leaves (fun _ _ => ret tt) (fun _ _ => []) w1 Hrep)
    as (chunks & toRetry & w' & Hrun & _ & Hc & _ & Hnd).
  set (ps0 := (fun c => (index c, default [] (data c))) <$> chunks).
  assert (Hchunks : chunks = chunk_of <$> ps0).
  { apply defined_chunks. eapply Forall_impl; [exact Hc|].
    intros c (a & d & t & _ & Hd & _). rewrite Hd. eauto. }
  destruct (sort_by_index_chunk_of ps0) as (qs & Hqs & Hperm).
  exists qs, w'. split; [|split].
  - unfold Lib.getData. erewrite bind_Return by exact Hinfo.
    erewrite bind_Return by exact Hscan.
    erewrite bind_Return.
    2:{ unfold Lib._loadChunks. erewrite bind_Return by exact Hrun. reflexivity. }
    unfold Lib._assembleChunks. cbn [fst]. rewrite Hchunks, Hqs.
    apply assemble_sorted_concat.
  - pose proof (sort_by_index_sorted chunks Hnd) as Hs.
    rewrite Hchunks, Hqs in Hs.
    apply (StronglySorted_fmap index index_lt lt) in Hs; [|auto].
    rewrite <- list_fmap_compose in Hs. exact Hs.
  - rewrite Hperm. unfold ps0. rewrite Forall_fmap.
    eapply Forall_impl; [exact Hc|].
    intros c (a & d & t & Ha & Hd & Hr & Ht). exists a, t. cbn. rewrite Hd. auto.
Qed.

Lemma getData_returns_served_bytes_witness :
  exists ps w',
    Lib.getData SampleTree.env "0xM" world0 = (Return (concat ps.*2), w') /\
    StronglySorted lt ps.*1 /\
    Forall (fun p => exists a t,
              leaves_of SampleTree.tree !! p.1 = Some a /\
              rpc SampleTree.env t a = Some p.2 /\ 4 <= t < tick w') ps.
Proof.
  exact (getData_returns_served_bytes SampleTree.env "0xM" world0
           (snd (getCurrentSiteInfo SampleTree.env "0xM" world0))
           (snd (Lib._collectLeaves SampleTree.env "0xRoot" 2 (fun _ => ret tt)
                   (snd (getCurrentSiteInfo SampleTree.env "0xM" world0))))
           {| rootChunk := "0xRoot"; depth := 2; totalSize := 6 |}
           (leaves_of SampleTree.tree) eq_refl eq_refl).
Defined.

Lemma alive_of_payloads payload (leaves : list Address) : forall k,
  (alive_of payload (imap (fun i leaf => (k + i, leaf)) leaves)).*2 = omap payload leaves.
Proof.
  induction leaves as [|a leaves IH]; intros k; [reflexivity|].
  rewrite imap_cons. unfold alive_of in *. cbn [flat_map omap list_omap].
  rewrite fmap_app.
  rewrite (imap_ext _ (fun i leaf => (S k + i, leaf))) by (intros; cbn; f_equal; lia).
  rewrite IH. now destruct (payload a).
Qed.

(** On an endpoint where every address always answers or never does, for a
    site whose internal nodes answer: [getData] returns the payloads of the
    leaves that answer, joined in leaf order, the others being skipped
    without a trace in the result; [load] renders that buffer decoded. *)
Theorem steady_site_is_rendered (env : Env) (index_euc_kr : N -> option N)
    (payload : Address -> option bytes) (masterAddress : Address) (info : SiteInfo)
    (t : Tree) (w : World) :
  steady env payload ->
  siteInfo env (tick w) masterAddress = Some info ->
  serves payload (depth info) t ->
  root t = rootChunk info ->
  masterAddress <> EmptyString ->
  let data := concat (omap payload (leaves_of t)) in
  (exists w', Lib.getData env masterAddress w = (Return data, w')) /\
  (exists w', Lib.load env index_euc_kr masterAddress w
              = (Return (Rendered (Lib._decodeContent index_euc_kr data)), w')).
Proof.
  intros Hsteady Hinfo Hserves Hroot Hm data.
  assert (Hsite : exists w0, getCurrentSiteInfo env masterAddress w = (Return info, w0)).
  { unfold getCurrentSiteInfo. rewrite Hinfo. eauto. }
  destruct Hsite as [w0 Hsite].
  assert (Hdata : forall leaves,
             concat (alive_of payload (imap (fun i leaf => (i, leaf)) leaves)).*2
             = concat (omap payload leaves)).
  { intros leaves. f_equal. exact (alive_of_payloads payload leaves 0). }
  split.
  - destruct (traverse_total env payload (fun _ => ret tt) Hsteady
                ltac:(intros; eexists; reflexivity) (depth info) t [] w0 Hserves)
      as [w1 Hscan].
    assert (Hrep : reports (fun _ _ => ret tt) (fun _ _ => [])).
    { intros c k v. unfold ret. now rewrite advance_nil. }
    pose proof (loadChunks_steady env payload (fun _ _ => ret tt) (fun _ _ => [])
                  Hsteady Hrep (leaves_of t) w1) as Hload.
    cbv zeta in Hload.
    eexists. unfold Lib.getData. erewrite bind_Return by exact Hsite.
    unfold Lib._collectLeaves. rewrite <- Hroot.
    erewrite bind_Return by exact Hscan.
    erewrite bind_Return.
    2:{ unfold Lib._loadChunks. erewrite bind_Return by exact Hload. reflexivity. }
    cbn [fst app]. rewrite (assemble_loaded payload). unfold data. now rewrite Hdata.
  - set (onFound := fun count : nat => emit (EvProgress "scan" count None)).
    set (onProgress :=
           fun current total : nat => emit (EvProgress "load" current (Some total))).
    destruct (traverse_total env payload onFound Hsteady
                ltac:(intros; eexists; reflexivity) (depth info) t [] w0 Hserves)
      as [w1 Hscan].
    assert (Hrep : reports onProgress (fun c k => [EvProgress "load" c (Some k)])).
    { intros c k v. unfold onProgress, emit, advance. cbn. now rewrite Nat.add_0_r. }
    pose proof (loadChunks_steady env payload onProgress _ Hsteady Hrep (leaves_of t) w1)
      as Hload.
    cbv zeta in Hload.
    eexists. unfold Lib.load.
    replace (String.eqb masterAddress EmptyString) with false
      by (symmetry; now apply String.eqb_neq).
    unfold try_catch. erewrite bind_Return by exact Hsite.
    unfold Lib._collectLeaves. rewrite <- Hroot.
    erewrite bind_Return by exact Hscan.
    erewrite bind_Return.
    2:{ unfold Lib._loadChunks. erewrite bind_Return by exact Hload. reflexivity. }
    cbn [fst app]. erewrite bind_Return by apply (assemble_loaded payload).
    unfold ret, data. now rewrite Hdata.
Qed.

Lemma steady_site_is_rendered_witness :
  (exists w', Lib.getData DeadLeaf.env "0xM" world0
              = (Return [x41; x42; x45; x46], w')) /\
  (exists w', Lib.load DeadLeaf.env (fun _ => None) "0xM" world0
              = (Return (Rendered [65; 66; 69; 70]%N), w')).
Proof.
  refine (steady_site_is_rendered DeadLeaf.env (fun _ => None) DeadLeaf.payload "0xM"
            {| rootChunk := "0xRoot"; depth := 2; totalSize := 6 |}
            SampleTree.tree world0 _ eq_refl _ eq_refl _).
  - intros t a. reflexivity.
  - simpl. split; [eexists; split; reflexivity|].
    repeat constructor; eexists; split; reflexivity.
  - discriminate.
Defined.

(** ** The log of a failed scan *)

Section ScanLog.
Context (env : Env).

Lemma fetch_from_logs a retries : forall rem i w r w',
  Lib._fetchChunkData_from env rem i retries a w = (r, w') ->
  logs_of (trace w') = logs_of (trace w) /\
  tick w <= tick w' /\
  forall e, r = Throw e ->
    exists t, e = RpcError a t /\ rpc env t a = None /\ tick w <= t < tick w'.
Proof.
  induction rem as [|rem IH]; intros i w r w' Hrun.
  - injection Hrun as <- <-. split; [reflexivity|]. split; [lia|discriminate].
  - cbn [Lib._fetchChunkData_from] in Hrun.
    unfold try_catch, bind at 1, readContract in Hrun.
    destruct (rpc env (tick w) a) as [b|] eqn:Hrpc.
    + injection Hrun as <- <-. split; [reflexivity|]. split; [cbn; lia|discriminate].
    + destruct (i =? retries - 1)%Z.
      * injection Hrun as <- <-. split; [reflexivity|]. split; [cbn; lia|].
        intros e He. injection He as <-. exists (tick w). cbn. auto with lia.
      * unfold bind, sleep, emit in Hrun. apply IH in Hrun as (Hl & Ht & He).
        cbn in Hl, Ht, He. split; [exact Hl|]. split; [lia|].
        intros e Hr. destruct (He e Hr) as (t & ? & ? & ?). exists t. auto with lia.
Qed.

Lemma fetch_logs a retries w r w' :
  Seq.fetchChunkData env a retries w = (r, w') ->
  logs_of (trace w') = logs_of (trace w) /\
  tick w <= tick w' /\
  forall e, r = Throw e ->
    exists t, e = RpcError a t /\ rpc env t a = None /\ tick w <= t < tick w'.
Proof. apply fetch_from_logs. Qed.

Lemma descends_mono t0 t1 t0' t1' chain :
  t0' <= t0 -> t1 <= t1' -> descends env t0 t1 chain -> descends env t0' t1' chain.
Proof.
  intros H0 H1. induction chain as [|a [|c rest] IH]; [auto|auto|].
  intros [(t & data & Ht & Hr & Hc) Hrest]. split; [|now apply IH].
  exists t, data. split; [lia|auto].
Qed.

Lemma logged_path_mono d a w0 w w' e :
  tick w0 <= tick w -> logs_of (trace w) = logs_of (trace w0) ->
  logged_path env d a w w' e -> logged_path env d a w0 w' e.
Proof.
  intros Ht Hl (chain & t & H1 & H2 & H3 & H4 & H5 & H6 & H7).
  exists chain, t. split; [exact H1|]. split; [exact H2|].
  split; [eapply descends_mono; [exact Ht|reflexivity|exact H3]|].
  split; [exact H4|]. split; [exact H5|]. split; [lia|]. now rewrite H7, Hl.
Qed.

Lemma children_log d :
  (forall st a w, scan_log env d a w (Seq.traverseNode env d st a w)) ->
  forall cs st w,
    tick w <= tick (for_of (Seq.traverseNode env d) cs st w).2 /\
    match for_of (Seq.traverseNode env d) cs st w with
    | (Return _, w') => logs_of (trace w') = logs_of (trace w)
    | (Throw e, w') => exists c, c ∈ cs /\ logged_path env d c w w' e
    end.
Proof.
  intros IH. induction cs as [|c cs IHcs]; intros st w; [split; [cbn; lia|reflexivity]|].
  cbn [for_of]. unfold bind. specialize (IH st c w). unfold scan_log in IH.
  destruct (Seq.traverseNode env d st c w) as [[st'|e] w1]; cbn [fst snd] in IH.
  - destruct IH as [Ht Hl]. specialize (IHcs st' w1).
    destruct (for_of (Seq.traverseNode env d) cs st' w1) as [[r|e] w2];
      cbn [snd] in IHcs |- *; destruct IHcs as [Ht2 H2].
    + split; [lia|congruence].
    + split; [lia|]. destruct H2 as (c' & Hin & Hp). exists c'.
      split; [apply elem_of_cons; now right|].
      now apply (logged_path_mono d c' w w1 w2 e).
  - destruct IH as [Ht Hp]. cbn [snd]. split; [exact Ht|].
    exists c. split; [apply elem_of_cons; now left|exact Hp].
Qed.

Lemma traverseNode_log : forall d st a w, scan_log env d a w (Seq.traverseNode env d st a w).
Proof.
  induction d as [|d IH]; intros st a w; unfold scan_log.
  - destruct st as [leaves i]. split; [cbn; lia|reflexivity].
  - destruct (Seq.traverseNode env (S d) st a w) as [o w'] eqn:Hrun. cbn [fst snd].
    cbn [Seq.traverseNode] in Hrun. unfold try_catch, bind at 1 in Hrun.
    destruct (Seq.fetchChunkData env a 3 w) as [[r|e] w1] eqn:Hf.
    + destruct (fetch_logs a 3 w _ _ Hf) as (Hl & Ht1 & _).
      assert (Hr : exists data t, r = Some data /\ rpc env t a = Some data /\
                                  tick w <= t < tick w1).
      { change (Seq.fetchChunkData env a 3 w) with (Lib._fetchChunkData env a 3 w) in Hf.
        apply fetchChunkData_served in Hf as (dd & t & -> & ? & ?); [eauto|lia]. }
      destruct Hr as (data & tr & -> & Hserved & Htr).
      unfold bind at 1 in Hrun. cbn [defined ret] in Hrun.
      pose proof (children_log d IH (childAddrs data) st w1) as [Ht2 Hcs].
      destruct (for_of (Seq.traverseNode env d) (childAddrs data) st w1) as [[r|e] w2];
        cbn [snd] in Ht2.
      * injection Hrun as <- <-. split; [lia|congruence].
      * destruct Hcs as (c & Hin & chain & t & H1 & H2 & H3 & H4 & H5 & H6 & H7).
        unfold bind, log, emit, throw in Hrun. injection Hrun as <- <-.
        unfold logged_path. cbn [trace tick].
        split; [lia|].
        assert (Hlast : default a (last (a :: chain)) = default c (last chain)).
        { destruct chain as [|c' chain]; [cbn in H2; lia|].
          cbn in H1. injection H1 as ->.
          change (last (a :: c :: chain)) with (last (c :: chain)).
          destruct (last (c :: chain)) eqn:E; [reflexivity|].
          apply last_None in E. discriminate. }
        exists (a :: chain), t. split; [reflexivity|]. split; [cbn; lia|].
        split.
        { destruct chain as [|c' chain]; [exact I|].
          cbn in H1. injection H1 as ->. split.
          - exists tr, data. split; [lia|]. split; [exact Hserved|exact Hin].
          - eapply descends_mono; [exact Ht1|reflexivity|exact H3]. }
        rewrite Hlast. split; [exact H4|]. split; [exact H5|]. split; [lia|].
        cbn [logs_of omap list_omap fmap list_fmap]. unfold logs_of in H7, Hl.
        rewrite H7, Hl. reflexivity.
    + destruct (fetch_logs a 3 w _ _ Hf) as (Hl & Ht1 & He).
      destruct (He e eq_refl) as (t & -> & Hnone & Ht).
      unfold bind, log, emit, throw in Hrun. injection Hrun as <- <-.
      unfold logged_path. cbn [trace tick].
      split; [exact Ht1|].
      exists [a], t. split; [reflexivity|]. split; [cbn; lia|]. split; [exact I|].
      split; [reflexivity|]. split; [exact Hnone|]. split; [exact Ht|].
      cbn [logs_of omap list_omap fmap list_fmap app]. unfold logs_of in Hl.
      rewrite Hl. reflexivity.
Qed.
End ScanLog.

(** A scan of the sequential page that fails has logged the path to the
    failure and nothing else: one line for each node of a chain that starts
    at the root, in which every further node is a child read off an answer
    the endpoint gave for the node before it during this scan, and that ends
    at the node whose read the endpoint rejected during this scan; the lines
    are in the log deepest first, and the error raised is that rejection.  A
    scan that returns logs nothing. *)
Theorem failed_scan_logs_its_path (env : Env) (rootChunk : Address) (depth : nat)
    (w : World) :
  match Seq.collectLeafAddresses env rootChunk depth w with
  | (Return _, w') => logs_of (trace w') = logs_of (trace w)
  | (Throw e, w') =>
      exists chain t,
        head chain = Some rootChunk /\ 1 <= length chain <= depth /\
        descends env (tick w) (tick w') chain /\
        e = RpcError (default rootChunk (last chain)) t /\
        rpc env t (default rootChunk (last chain)) = None /\
        tick w <= t < tick w' /\
        logs_of (trace w') = (failure_line <$> chain) ++ logs_of (trace w)
  end.
Proof.
  unfold Seq.collectLeafAddresses, bind.
  pose proof (traverseNode_log env depth ([], 0) rootChunk w) as [_ H].
  destruct (Seq.traverseNode env depth ([], 0) rootChunk w) as [[r|e] w']; exact H.
Qed.

(** Three levels deep, with the node of the third level dead: the log holds
    the three lines of the path, the root's last. *)
Lemma failed_scan_logs_its_path_witness :
  let run := Seq.collectLeafAddresses DeadDeep.env "0xRoot" 3 world0 in
  run.1 = Throw (RpcError (SampleTree.addr x02) 4) /\
  logs_of (trace run.2)
  = [failure_line "0xRoot"; failure_line (SampleTree.addr x01);
     failure_line (SampleTree.addr x02)] /\
  exists chain t,
    head chain = Some "0xRoot" /\ 1 <= length chain <= 3 /\
    descends DeadDeep.env 0 (tick run.2) chain /\
    RpcError (SampleTree.addr x02) 4 = RpcError (default "0xRoot" (last chain)) t /\
    rpc DeadDeep.env t (default "0xRoot" (last chain)) = None /\
    0 <= t < tick run.2 /\
    logs_of (trace run.2) = (failure_line <$> chain) ++ [].
Proof.
  intros run.
  assert (Hrun : Seq.collectLeafAddresses DeadDeep.env "0xRoot" 3 world0
                 = (Throw (RpcError (SampleTree.addr x02) 4), run.2))
    by (vm_compute; reflexivity).
  split; [vm_compute; reflexivity|]. split; [vm_compute; reflexivity|].
  pose proof (failed_scan_logs_its_path DeadDeep.env "0xRoot" 3 world0) as H.
  rewrite Hrun in H. exact H.
Defined.

(** ** Invariants of the overlapped page *)

Section Stable.
Context (env : Env) (sched : Par.Sched) (chunkGrid : bool).
Context (I : Par.State -> Prop).
Hypothesis HI : stable env chunkGrid I.

Lemma keeps_liftW {A} (m : M World A) : keeps I (Par.liftW m).
Proof.
  intros s H. unfold Par.liftW. destruct (m (Par.world s)) as [r w].
  now apply (stable_world _ _ _ HI).
Qed.

Lemma keeps_logS msg : keeps I (Par.logS msg).
Proof. apply keeps_liftW. Qed.

Lemma keeps_iter n s : I s -> I (Nat.iter n (Par.worker_resume env) s).
Proof.
  intros H. induction n as [|n IH]; [exact H|]. cbn [Nat.iter].
  now apply (stable_worker _ _ _ HI).
Qed.

Lemma keeps_suspend : keeps I (Par.suspend env sched).
Proof.
  intros s H. unfold Par.suspend. cbn [snd].
  apply (stable_clock _ _ _ HI). now apply keeps_iter.
Qed.

Lemma keeps_awaitRead a : keeps I (Par.awaitRead env sched a).
Proof.
  unfold Par.awaitRead. apply keeps_bind; [apply keeps_suspend|].
  intros _. apply keeps_liftW.
Qed.

Lemma keeps_awaitSleep ms : keeps I (Par.awaitSleep env sched ms).
Proof.
  unfold Par.awaitSleep. apply keeps_bind; [apply keeps_liftW|]. intros _.
  apply keeps_bind; [|intros _; apply keeps_suspend].
  intros s H. now apply (stable_clock _ _ _ HI).
Qed.

Lemma keeps_fetchWithRetry {A} (fn : M Par.State A) retries baseDelay :
  keeps I fn ->
  forall rem i,
    keeps I (Par.fetchWithRetry_from (Par.awaitSleep env sched) (Par.liftW (random500 env))
               fn rem i retries baseDelay).
Proof.
  intros Hfn. induction rem as [|rem IH]; intros i; [apply keeps_ret|].
  cbn [Par.fetchWithRetry_from]. apply keeps_try_catch.
  - apply keeps_bind; [exact Hfn|]. intros r. apply keeps_ret.
  - intros e. destruct (i =? retries - 1)%Z; [apply keeps_throw|].
    apply keeps_bind; [apply keeps_liftW|]. intros r.
    apply keeps_bind; [apply keeps_awaitSleep|]. intros _. apply IH.
Qed.

Lemma keeps_leaf a offset size :
  keeps I
    (let* index := Par.gets Par.scannedChunks in
     Par.addChunkToGrid chunkGrid ;;
     Par.modify (fun s =>
                   Par.set_loadQueue
                     (Par.loadQueue s ++ [{| Par.q_address := a; Par.q_offset := offset;
                                             Par.q_size := size;
                                             Par.q_index := index |}]) s) ;;
     Par.modify Par.loadWorker ;;
     ret [{| Par.c_address := a; Par.c_offset := offset; Par.c_size := size |}]).
Proof.
  intros s H. pose proof (stable_leaf _ _ _ HI a offset size s H) as H'.
  unfold leaf_found in H'. destruct chunkGrid; exact H'.
Qed.

Lemma keeps_collect : forall d a offset,
  keeps I (Par.collectLeafChunks env sched chunkGrid d a offset).
Proof.
  induction d as [|d IH]; intros a offset.
  - cbn [Par.collectLeafChunks]. apply keeps_bind.
    + apply keeps_try_catch; [apply keeps_fetchWithRetry, keeps_awaitRead|].
      intros e. apply keeps_bind; [apply keeps_logS|]. intros _. apply keeps_throw.
    + intros dataHex. apply keeps_bind; [apply keeps_defined|]. intros data.
      apply keeps_leaf.
  - cbn [Par.collectLeafChunks]. apply keeps_bind.
    + apply keeps_try_catch; [apply keeps_fetchWithRetry, keeps_awaitRead|].
      intros e. apply keeps_bind; [apply keeps_logS|]. intros _. apply keeps_throw.
    + intros dataHex. apply keeps_bind; [apply keeps_defined|]. intros data.
      apply keeps_bind; [|intros r; apply keeps_ret].
      apply keeps_for_of. intros results [i child].
      apply keeps_bind.
      * apply keeps_try_catch; [apply IH|]. intros e.
        apply keeps_bind; [apply keeps_logS|]. intros _.
        apply keeps_bind; [apply keeps_awaitSleep|]. intros _. apply IH.
      * intros childResults. apply keeps_bind; [apply keeps_awaitSleep|].
        intros _. apply keeps_ret.
Qed.

Lemma keeps_poll start maxWait total : forall fuel,
  keeps I (Par.poll env sched fuel start maxWait total).
Proof.
  induction fuel as [|fuel IH]; cbn [Par.poll];
    (apply keeps_bind; [apply keeps_gets|]); intros size;
    (destruct (size <? total); [|apply keeps_ret]);
    (apply keeps_bind; [apply keeps_gets|]); intros t;
    (destruct (t - start >? maxWait)%Z; [apply keeps_throw|]).
  - apply keeps_ret.
  - apply keeps_bind; [apply keeps_awaitSleep|]. intros _. apply IH.
Qed.

Lemma keeps_assemble leafChunks : keeps I (Par.assemble leafChunks).
Proof.
  unfold Par.assemble. apply keeps_bind.
  - apply keeps_for_of. intros [acc currentOffset] chunk.
    apply keeps_bind; [apply keeps_gets|]. intros tbl.
    apply keeps_bind; [apply keeps_defined|]. intros data. apply keeps_ret.
  - intros placed. apply keeps_for_of. intros finalData chunk.
    apply keeps_bind; [apply keeps_gets|]. intros tbl.
    apply keeps_bind; [apply keeps_defined|]. intros data. apply keeps_array_set.
Qed.

Lemma keeps_fetchTree fuel rootChunk depth :
  keeps I (Par.fetchTree env sched chunkGrid fuel rootChunk depth).
Proof.
  unfold Par.fetchTree.
  apply keeps_bind; [intros s H; now apply (stable_scanComplete _ _ _ HI)|]. intros _.
  apply keeps_bind; [apply keeps_logS|]. intros _.
  apply keeps_bind; [apply keeps_collect|]. intros leafChunks.
  apply keeps_bind; [intros s H; now apply (stable_scanComplete _ _ _ HI)|]. intros _.
  apply keeps_bind; [intros s H; now apply (stable_expectedTotal _ _ _ HI)|]. intros _.
  apply keeps_bind; [apply keeps_logS|]. intros _.
  apply keeps_bind; [apply keeps_gets|]. intros start.
  apply keeps_bind; [apply keeps_poll|]. intros [[]|]; [|apply keeps_ret].
  apply keeps_bind; [apply keeps_logS|]. intros _.
  apply keeps_bind; [apply keeps_assemble|]. intros finalData. apply keeps_ret.
Qed.
End Stable.

Lemma entries_served_loop_head payload s :
  entries_served payload s -> entries_served payload (Par.loop_head s).
Proof.
  unfold Par.loop_head. destruct (Par.loadQueue s); [destruct (Par.scanComplete s)|];
    intros H; exact H.
Qed.

Lemma entries_served_stable env chunkGrid payload :
  steady env payload -> stable env chunkGrid (entries_served payload).
Proof.
  intros Hsteady. split; try (intros; assumption).
  - intros s H. unfold Par.worker_resume.
    destruct (Par.worker s) as [| |chunk i|chunk i]; [exact H| |
      |exact H].
    + now apply entries_served_loop_head.
    + unfold Par.liftW, readContract. rewrite Hsteady.
      destruct (payload (Par.q_address chunk)) as [data|] eqn:Hp.
      * intros a d. cbn. intros Hl.
        apply lookup_insert_Some in Hl as [[<- <-]|[_ Hl]]; [exact Hp|now apply H].
      * destruct (i =? 10 - 1)%Z; exact H.
  - intros a offset size s H. unfold leaf_found, Par.loadWorker.
    destruct chunkGrid; cbn;
      (destruct (Par.loaderRunning s); [exact H|]);
      now apply entries_served_loop_head.
Qed.

(** [fetchTree] on an endpoint that serves every read, from any state of the
    page that holds none but leaves of the tree. *)
Lemma fetchTree_outcome_from (env : Env) (sched : Par.Sched)
    (chunkGrid : bool) (payload : Address -> option bytes)
    (depth : nat) (t : Tree) (s : Par.State) (fuel : nat) :
  steady env payload ->
  serves payload depth t ->
  all_alive payload (leaves_of t) ->
  241 <= fuel ->
  known (list_to_set (leaves_of t)) s ->
  exists s',
    (Par.fetchTree env sched chunkGrid fuel (root t) depth s
     = (Return (Some (concat ((fun a => default [] (Par.loadResults s' !! a))
                                <$> leaves_of t))), s') /\
     Forall (fun a => is_Some (Par.loadResults s' !! a)) (leaves_of t)) \/
    (Par.fetchTree env sched chunkGrid fuel (root t) depth s
     = (Throw (Error ("Timeout: " +:+ dec (size (Par.loadResults s'))
                        +:+ "/" +:+ dec (length (leaves_of t)))), s') /\
     size (Par.loadResults s') < length (leaves_of t)).
Proof.
  intros Hsteady Hserves Halive Hfuel Hknown0.
  set (A := list_to_set (leaves_of t) : gset Address) in *.
  unfold Par.fetchTree.
  erewrite bind_Return by reflexivity.
  erewrite bind_Return by reflexivity.
  match goal with |- context [bind (Par.collectLeafChunks _ _ _ _ _ _) _ ?s0] =>
    destruct (collect_steady env sched chunkGrid payload Hsteady depth t 0 s0 Hserves)
      as [Hscan _];
    destruct (Hscan Halive) as (res & s2 & Hrun & Haddr & Hk);
    assert (Hknown : known A s2)
      by (apply Hk; [intros a Ha; apply elem_of_list_to_set; exact Ha|exact Hknown0])
  end.
  erewrite bind_Return by exact Hrun.
  erewrite bind_Return by reflexivity.
  erewrite bind_Return by reflexivity.
  erewrite bind_Return by reflexivity.
  erewrite bind_Return by reflexivity.
  assert (Hlen : length res = length (leaves_of t)).
  { rewrite <- Haddr. now rewrite length_fmap. }
  match goal with |- context [bind (Par.poll _ _ _ ?start ?maxWait ?total) _ ?s3] =>
    destruct (poll_outcome env sched start maxWait total fuel s3) as (s4 & Hpoll);
      [cbn; lia|];
    assert (Hknown4 : forall r, Par.poll env sched fuel start maxWait total s3 = (r, s4) ->
                                known A s4)
      by (intros r Hr; exact (poll_keeps_known env sched start maxWait total A
                                fuel s3 r s4 Hr Hknown))
  end.
  destruct Hpoll as [[Hpoll Hsize]|(Hpoll & Hsize & _)].
  - specialize (Hknown4 _ Hpoll). destruct Hknown4 as (Hdom & _).
    assert (Heq : dom (Par.loadResults s4) = A).
    { apply set_subseteq_size_eq; [exact Hdom|].
      rewrite size_dom. etransitivity; [apply size_list_to_set_le|]. lia. }
    assert (Hall : Forall (fun a => is_Some (Par.loadResults s4 !! a)) (leaves_of t)).
    { apply Forall_forall. intros a Ha. apply elem_of_dom. rewrite Heq.
      apply elem_of_list_to_set. exact Ha. }
    set (s5 := snd (Par.logS (Par.sign_check +:+ " All " +:+ dec (length res)
                               +:+ " chunks loaded!") s4)).
    assert (Hall5 : Forall (fun a => is_Some (Par.loadResults s5 !! a)) (leaves_of t))
      by exact Hall.
    exists s5. left. split; [|exact Hall5].
    erewrite bind_Return by exact Hpoll.
    cbn beta iota.
    erewrite bind_Return by reflexivity.
    erewrite bind_Return.
    2:{ apply (assemble_loaded_all s5 res).
        rewrite <- Haddr in Hall5. rewrite Forall_fmap in Hall5. exact Hall5. }
    unfold ret. f_equal. do 2 f_equal.
    rewrite <- Haddr, <- list_fmap_compose. reflexivity.
  - exists s4. right. rewrite <- Hlen. split; [|exact Hsize].
    erewrite bind_Throw by exact Hpoll. reflexivity.
Qed.

Lemma loaded_are_payloads payload (tbl : gmap Address bytes) (leaves : list Address) :
  (forall a d, tbl !! a = Some d -> payload a = Some d) ->
  Forall (fun a => is_Some (tbl !! a)) leaves ->
  concat ((fun a => default [] (tbl !! a)) <$> leaves) = concat (omap payload leaves).
Proof.
  intros Hserved. induction 1 as [|a leaves [d Hd] _ IH]; [reflexivity|].
  rewrite fmap_cons. cbn [omap list_omap concat]. rewrite (Hserved a d Hd), Hd, IH.
  reflexivity.
Qed.

Lemma fetchTree_steady_from (env : Env) (sched : Par.Sched)
    (chunkGrid : bool) (payload : Address -> option bytes)
    (depth : nat) (t : Tree) (s : Par.State) (fuel : nat) :
  steady env payload ->
  serves payload depth t ->
  all_alive payload (leaves_of t) ->
  241 <= fuel ->
  known (list_to_set (leaves_of t)) s ->
  entries_served payload s ->
  exists s',
    Par.fetchTree env sched chunkGrid fuel (root t) depth s
    = (Return (Some (concat (omap payload (leaves_of t)))), s') \/
    exists k,
      Par.fetchTree env sched chunkGrid fuel (root t) depth s
      = (Throw (Error ("Timeout: " +:+ dec k +:+ "/" +:+ dec (length (leaves_of t)))), s') /\
      k < length (leaves_of t).
Proof.
  intros Hsteady Hserves Halive Hfuel Hknown Hentries.
  pose proof (keeps_fetchTree env sched chunkGrid (entries_served payload)
                (entries_served_stable env chunkGrid payload Hsteady)
                fuel (root t) depth s Hentries) as Hkeeps.
  destruct (fetchTree_outcome_from env sched chunkGrid payload depth t s fuel
              Hsteady Hserves Halive Hfuel Hknown) as (s' & [[Hrun Hall]|[Hrun Hk]]).
  - exists s'. left. rewrite Hrun in Hkeeps |- *. cbn [snd] in Hkeeps.
    now rewrite (loaded_are_payloads payload (Par.loadResults s') (leaves_of t)).
  - exists s'. right. eauto.
Qed.

(** What the overlapped page assembles does not depend on how its two tasks
    interleave.  On an endpoint that serves every read, under every schedule
    of the worker against the main task, [fetchTree] either returns the
    payloads of the leaves joined in leaf order or ends with the timeout
    error; it never returns anything else. *)
Theorem overlapped_result_is_schedule_independent (env : Env) (sched : Par.Sched)
    (chunkGrid : bool) (payload : Address -> option bytes)
    (depth : nat) (t : Tree) (t0 : Z) (fuel : nat) :
  steady env payload ->
  serves payload depth t ->
  all_alive payload (leaves_of t) ->
  241 <= fuel ->
  exists s',
    Par.fetchTree env sched chunkGrid fuel (root t) depth (Par.state0 t0)
    = (Return (Some (concat (omap payload (leaves_of t)))), s') \/
    exists k,
      Par.fetchTree env sched chunkGrid fuel (root t) depth (Par.state0 t0)
      = (Throw (Error ("Timeout: " +:+ dec k +:+ "/" +:+ dec (length (leaves_of t)))), s') /\
      k < length (leaves_of t).
Proof.
  intros Hsteady Hserves Halive Hfuel.
  apply (fetchTree_steady_from env sched chunkGrid payload); auto.
  - apply known_state0.
  - intros a d Hl. cbn in Hl. rewrite lookup_empty in Hl. discriminate.
Qed.

Lemma overlapped_result_is_schedule_independent_witness :
  exists s',
    Par.fetchTree SampleTree.env TwinLeaves.sched true 241 "0xRoot" 2 (Par.state0 0)
    = (Return (Some [x41; x42; x43; x44; x45; x46]), s').
Proof.
  destruct (overlapped_result_is_schedule_independent SampleTree.env TwinLeaves.sched true
              SampleTree.payload 2 SampleTree.tree 0 241)
    as (s' & [Hrun|(k & Hrun & Hk)]).
  - intros t a. reflexivity.
  - simpl. split; [eexists; split; reflexivity|].
    repeat constructor; eexists; split; reflexivity.
  - repeat constructor; eexists; reflexivity.
  - lia.
  - exists s'. exact Hrun.
  - exfalso.
    assert (E : fst (Par.fetchTree SampleTree.env TwinLeaves.sched true 241 "0xRoot" 2
                       (Par.state0 0))
                = Return (Some [x41; x42; x43; x44; x45; x46])) by (vm_compute; reflexivity).
    change (root SampleTree.tree) with "0xRoot" in Hrun.
    rewrite Hrun in E. discriminate E.
Defined.

Lemma tiles_fix_offsets results : forall offset, tiles offset (Par.fix_offsets offset results).
Proof.
  induction results as [|c results IH]; intros offset; [exact I|].
  cbn [Par.fix_offsets tiles Par.c_offset Par.c_size]. split; [reflexivity|apply IH].
Qed.

(** The leaf chunks a scan returns lie end to end: the first starts at the
    offset the scan was given, and each next one starts where the one before
    it ends, at every depth and on every endpoint. *)
Theorem scanned_chunks_tile (env : Env) (sched : Par.Sched) (chunkGrid : bool)
    (depth : nat) (address : Address) (offset : nat) (s s' : Par.State)
    (res : list Par.LeafChunk) :
  Par.collectLeafChunks env sched chunkGrid depth address offset s = (Return res, s') ->
  tiles offset res.
Proof.
  intros Hrun. destruct depth as [|d]; cbn [Par.collectLeafChunks] in Hrun;
    apply bind_inv in Hrun as (dataHex & s1 & _ & Hrun);
    apply bind_inv in Hrun as (data & s2 & _ & Hrun).
  - apply bind_inv in Hrun as (index & s3 & _ & Hrun).
    apply bind_inv in Hrun as (? & s4 & _ & Hrun).
    apply bind_inv in Hrun as (? & s5 & _ & Hrun).
    apply bind_inv in Hrun as (? & s6 & _ & Hrun).
    injection Hrun as <- _. cbn. auto.
  - apply bind_inv in Hrun as (results & s3 & _ & Hrun).
    injection Hrun as <- _. apply tiles_fix_offsets.
Qed.

Lemma scanned_chunks_tile_witness :
  tiles 0 [{| Par.c_address := SampleTree.addr x11; Par.c_offset := 0; Par.c_size := 2 |};
           {| Par.c_address := SampleTree.addr x12; Par.c_offset := 2; Par.c_size := 2 |};
           {| Par.c_address := SampleTree.addr x21; Par.c_offset := 4; Par.c_size := 2 |}].
Proof.
  refine (scanned_chunks_tile SampleTree.env TwinLeaves.sched true 2 "0xRoot" 0
            (Par.state0 0)
            (snd (Par.collectLeafChunks SampleTree.env TwinLeaves.sched true 2 "0xRoot" 0
                    (Par.state0 0))) _ _).
  vm_compute. reflexivity.
Defined.

(** ** The entry point of the overlapped page *)

Lemma iter_idle env n s :
  Par.worker s = Par.Idle -> Nat.iter n (Par.worker_resume env) s = s.
Proof.
  intros H. induction n as [|n IH]; [reflexivity|].
  change (Nat.iter (S n) (Par.worker_resume env) s)
    with (Par.worker_resume env (Nat.iter n (Par.worker_resume env) s)).
  rewrite IH. unfold Par.worker_resume. now rewrite H.
Qed.

Lemma catch_returns {S A} (m : M S A) (h : Exn -> M S A) s :
  (forall e s1, exists r s', h e s1 = (Return r, s')) ->
  exists r s', try_catch m h s = (Return r, s').
Proof.
  intros Hh. unfold try_catch. destruct (m s) as [[a|e] s1]; [eauto|apply Hh].
Qed.

(** [init] of the overlapped page never raises.  Without a [master]
    parameter it shows [ERROR: NO ADDRESS] and issues no read.  When the read
    of the site information is rejected it shows that error, after this one
    read and one log line: the entry point does not retry. *)
Theorem overlapped_init_contains_failures (env : Env) (sched : Par.Sched)
    (chunkGrid : bool) (fuel : nat) (masterAddress : option Address) (t0 : Z) :
  (exists r s', ParPage.init env sched chunkGrid fuel masterAddress (Par.state0 t0)
                = (Return r, s')) /\
  (masterAddress = None \/ masterAddress = Some EmptyString ->
   ParPage.init env sched chunkGrid fuel masterAddress (Par.state0 t0)
   = (Return (Some ParPage.NoAddress), Par.state0 t0)) /\
  (forall master,
     masterAddress = Some master -> master <> EmptyString ->
     siteInfo env 0 master = None ->
     exists s',
       ParPage.init env sched chunkGrid fuel masterAddress (Par.state0 t0)
       = (Return (Some (ParPage.Shows (ErrorShown (RpcError master 0)))), s') /\
       tick (Par.world s') = 1 /\
       logs_of (trace (Par.world s'))
       = [Par.sign_cross +:+ " Error: " +:+ rpc_message env 0]).
Proof.
  split; [|split].
  - destruct masterAddress as [[|c m]|]; [eauto|unfold ParPage.init|eauto].
    apply catch_returns. intros e s. eexists _, _. reflexivity.
  - intros [->| ->]; reflexivity.
  - intros master -> Hm Hinfo. destruct master as [|c m]; [congruence|].
    unfold ParPage.init, try_catch, ParPage.awaitSiteInfo.
    unfold bind at 1. unfold bind at 1. unfold Par.suspend. cbv zeta.
    rewrite iter_idle by reflexivity.
    unfold Par.liftW at 1, getCurrentSiteInfo. cbn [Par.world Par.set_clock Par.state0 tick
                                                      world0].
    rewrite Hinfo. eexists. split; [reflexivity|]. split; reflexivity.
Qed.

Lemma overlapped_init_contains_failures_witness :
  exists s',
    ParPage.init NoSite.env TwinLeaves.sched true 241 (Some "0xM") (Par.state0 0)
    = (Return (Some (ParPage.Shows (ErrorShown (RpcError "0xM" 0)))), s') /\
    tick (Par.world s') = 1 /\
    logs_of (trace (Par.world s')) = [Par.sign_cross +:+ " Error: execution reverted"].
Proof.
  exact (proj2 (proj2 (overlapped_init_contains_failures NoSite.env TwinLeaves.sched true
                         241 (Some "0xM") 0))
           "0xM" eq_refl ltac:(discriminate) eq_refl).
Defined.

(** On an endpoint that serves every read, the overlapped page ends, under
    every schedule, with the payloads of the leaves joined in leaf order and
    decoded as UTF-8, whatever charset the content declares, or with the
    timeout error on its error surface. *)
Theorem overlapped_page_decodes_utf8 (env : Env) (sched : Par.Sched) (chunkGrid : bool)
    (payload : Address -> option bytes) (masterAddress : Address) (info : SiteInfo)
    (t : Tree) (t0 : Z) (fuel : nat) :
  steady env payload ->
  masterAddress <> EmptyString ->
  siteInfo env 0 masterAddress = Some info ->
  serves payload (depth info) t ->
  root t = rootChunk info ->
  all_alive payload (leaves_of t) ->
  241 <= fuel ->
  exists s',
    ParPage.init env sched chunkGrid fuel (Some masterAddress) (Par.state0 t0)
    = (Return (Some (ParPage.Shows
                       (Rendered (decode_utf8 (concat (omap payload (leaves_of t))))))), s') \/
    exists k,
      ParPage.init env sched chunkGrid fuel (Some masterAddress) (Par.state0 t0)
      = (Return (Some (ParPage.Shows
                         (ErrorShown (Error ("Timeout: " +:+ dec k +:+ "/"
                                               +:+ dec (length (leaves_of t))))))), s') /\
      k < length (leaves_of t).
Proof.
  intros Hsteady Hm Hinfo Hserves Hroot Halive Hfuel.
  destruct masterAddress as [|c m]; [congruence|].
  destruct (ParPage.init env sched chunkGrid fuel (Some (String c m)) (Par.state0 t0))
    as [o sF] eqn:Hinit.
  unfold ParPage.init, try_catch, ParPage.awaitSiteInfo in Hinit.
  unfold bind at 1 in Hinit. unfold bind at 1 in Hinit.
  unfold Par.suspend in Hinit. cbv zeta in Hinit.
  rewrite iter_idle in Hinit by reflexivity.
  unfold Par.liftW at 1, getCurrentSiteInfo in Hinit.
  cbn [Par.world Par.set_clock Par.state0 tick world0] in Hinit. rewrite Hinfo in Hinit.
  unfold bind at 1 in Hinit. unfold Par.logS at 1, Par.liftW at 1, log, emit in Hinit.
  unfold bind at 1 in Hinit. unfold Par.modify at 1 in Hinit.
  rewrite <- Hroot in Hinit.
  match type of Hinit with context [bind (Par.fetchTree _ _ _ _ _ _) _ ?s] =>
    destruct (fetchTree_steady_from env sched chunkGrid payload (depth info) t s fuel
                Hsteady Hserves Halive Hfuel)
      as (s' & [Hrun|(k & Hrun & Hk)])
  end.
  - split; [cbn; set_solver|]. split; constructor.
  - intros a d Hl. cbn in Hl. rewrite lookup_empty in Hl. discriminate.
  - erewrite bind_Return in Hinit by exact Hrun. injection Hinit as <- <-.
    exists s'. left. reflexivity.
  - erewrite bind_Throw in Hinit by exact Hrun. injection Hinit as <- <-.
    eexists. right. exists k. split; [reflexivity|exact Hk].
Qed.

Lemma overlapped_page_decodes_utf8_witness :
  exists s',
    ParPage.init SampleTree.env TwinLeaves.sched true 241 (Some "0xM") (Par.state0 0)
    = (Return (Some (ParPage.Shows (Rendered [65; 66; 67; 68; 69; 70]%N))), s').
Proof.
  destruct (overlapped_page_decodes_utf8 SampleTree.env TwinLeaves.sched true
              SampleTree.payload "0xM" {| rootChunk := "0xRoot"; depth := 2; totalSize := 6 |}
              SampleTree.tree 0 241)
    as (s' & [Hrun|(k & Hrun & Hk)]).
  - intros t a. reflexivity.
  - discriminate.
  - reflexivity.
  - simpl. split; [eexists; split; reflexivity|].
    repeat constructor; eexists; split; reflexivity.
  - reflexivity.
  - repeat constructor; eexists; reflexivity.
  - lia.
  - exists s'. exact Hrun.
  - exfalso.
    assert (E : fst (ParPage.init SampleTree.env TwinLeaves.sched true 241 (Some "0xM")
                       (Par.state0 0))
                = Return (Some (ParPage.Shows (Rendered [65; 66; 67; 68; 69; 70]%N))))
      by (vm_compute; reflexivity).
    rewrite Hrun in E. discriminate E.
Defined.

(** ** How long the retry primitives wait *)

Lemma sum_delays_ext d1 d2 k :
  (forall j, j < k -> d1 j = d2 j) -> sum_delays d1 k = sum_delays d2 k.
Proof.
  revert d1 d2. induction k as [|k IH]; intros d1 d2 H; [reflexivity|].
  cbn [sum_delays]. rewrite (H 0) by lia. f_equal. apply IH. intros j Hj. apply H. lia.
Qed.

Lemma sum_delays_le d1 d2 k :
  (forall j, j < k -> (d1 j <= d2 j)%Z) -> (sum_delays d1 k <= sum_delays d2 k)%Z.
Proof.
  revert d1 d2. induction k as [|k IH]; intros d1 d2 H; [reflexivity|].
  cbn [sum_delays]. pose proof (H 0 ltac:(lia)).
  pose proof (IH (fun j => d1 (S j)) (fun j => d2 (S j)) ltac:(intros j Hj; apply H; lia)).
  lia.
Qed.

Section Waits.
Context (env : Env).

Lemma fetch_from_waits a retries : forall rem i w,
  (Z.of_nat i + Z.of_nat rem = retries)%Z ->
  (waited (trace (Lib._fetchChunkData_from env rem (Z.of_nat i) retries a w).2)
   <= waited (trace w) + sum_delays (fun j => short_backoff (i + j)) (rem - 1))%Z.
Proof.
  induction rem as [|rem IH]; intros i w Hi; [cbn; lia|].
  cbn [Lib._fetchChunkData_from]. unfold try_catch, bind at 1, readContract.
  assert (Hpos : forall k, (0 <= sum_delays (fun j => short_backoff (i + j)) k)%Z).
  { intros k. generalize i. induction k as [|k IHk]; intros i0; [cbn; lia|].
    cbn [sum_delays]. specialize (IHk (S i0)).
    rewrite (sum_delays_ext _ (fun j => short_backoff (S i0 + j)))
      by (intros; f_equal; lia).
    unfold short_backoff at 1. lia. }
  destruct (rpc env (tick w) a) as [b|];
    [unfold ret; cbn [snd trace waited]; specialize (Hpos (S rem - 1)); lia|].
  destruct (Z.of_nat i =? retries - 1)%Z eqn:E.
  - unfold throw. cbn [snd trace waited]. specialize (Hpos (S rem - 1)). lia.
  - apply Z.eqb_neq in E. destruct rem as [|rem]; [lia|].
    unfold bind, sleep, emit.
    replace (Z.of_nat i + 1)%Z with (Z.of_nat (S i)) by lia.
    etransitivity; [apply IH; lia|].
    cbn [trace waited]. replace (S (S rem) - 1) with (S rem) by lia.
    replace (S rem - 1) with rem by lia. cbn [sum_delays].
    rewrite (sum_delays_ext (fun j => short_backoff (i + S j))
               (fun j => short_backoff (S i + j))) by (intros; f_equal; lia).
    replace (i + 0) with i by lia. unfold short_backoff at 2. lia.
Qed.

Lemma fetchWithRetry_from_waits a retries baseDelay : (0 <= baseDelay)%Z ->
  forall rem i w,
  (Z.of_nat i + Z.of_nat rem = retries)%Z ->
  (waited (trace (Par.fetchWithRetry_from sleep (random500 env) (readContract env a)
                    rem (Z.of_nat i) retries baseDelay w).2)
   <= waited (trace w) + sum_delays (fun j => worst_backoff baseDelay (i + j)) (rem - 1))%Z.
Proof.
  intros Hbase. induction rem as [|rem IH]; intros i w Hi; [cbn; lia|].
  cbn [Par.fetchWithRetry_from]. unfold try_catch, bind at 1, readContract.
  assert (Hpos : forall k, (0 <= sum_delays (fun j => worst_backoff baseDelay (i + j)) k)%Z).
  { intros k. generalize i. induction k as [|k IHk]; intros i0; [cbn; lia|].
    cbn [sum_delays]. specialize (IHk (S i0)).
    rewrite (sum_delays_ext _ (fun j => worst_backoff baseDelay (S i0 + j)))
      by (intros; f_equal; lia).
    unfold worst_backoff at 1.
    assert (0 <= baseDelay * 2 ^ Z.of_nat (i0 + 0))%Z by (apply Z.mul_nonneg_nonneg; lia).
    lia. }
  destruct (rpc env (tick w) a) as [b|];
    [unfold ret; cbn [snd trace waited]; specialize (Hpos (S rem - 1)); lia|].
  destruct (Z.of_nat i =? retries - 1)%Z eqn:E.
  - unfold throw. cbn [snd trace waited]. specialize (Hpos (S rem - 1)). lia.
  - apply Z.eqb_neq in E. destruct rem as [|rem]; [lia|].
    unfold bind at 1, random500. unfold bind, sleep, emit.
    replace (Z.of_nat i + 1)%Z with (Z.of_nat (S i)) by lia.
    etransitivity; [apply IH; lia|].
    cbn [trace waited draws tick]. replace (S (S rem) - 1) with (S rem) by lia.
    replace (S rem - 1) with rem by lia. cbn [sum_delays].
    rewrite (sum_delays_ext (fun j => worst_backoff baseDelay (i + S j))
               (fun j => worst_backoff baseDelay (S i + j))) by (intros; f_equal; lia).
    replace (i + 0) with i by lia. unfold worst_backoff at 2.
    pose proof (Nat.mod_upper_bound (jitter env (draws w)) 500 ltac:(lia)).
    lia.
Qed.
End Waits.

(** How long one fetch can wait, whatever the endpoint does: at most 200 ms
    with the budget of two attempts of the first pass, at most 600 ms with
    the budget of three of the scan and of the retry rounds, and at most
    66996 ms for [fetchWithRetry] with its ten attempts from one second. *)
Theorem fetch_waits_are_bounded (env : Env) (a : Address) (w : World) :
  (waited (trace (Lib._fetchChunkData env a 2 w).2) <= waited (trace w) + 200)%Z /\
  (waited (trace (Lib._fetchChunkData env a 3 w).2) <= waited (trace w) + 600)%Z /\
  (waited (trace (Seq.fetchChunkData env a 3 w).2) <= waited (trace w) + 600)%Z /\
  (waited (trace (fetchWithRetry_read env a 10 1000 w).2) <= waited (trace w) + 66996)%Z.
Proof.
  assert (H2 := fetch_from_waits env a 2 2 0 w eq_refl).
  assert (H3 := fetch_from_waits env a 3 3 0 w eq_refl).
  assert (H10 := fetchWithRetry_from_waits env a 10 1000 ltac:(lia) 10 0 w eq_refl).
  change (sum_delays (fun j => short_backoff (0 + j)) (2 - 1)) with 200%Z in H2.
  change (sum_delays (fun j => short_backoff (0 + j)) (3 - 1)) with 600%Z in H3.
  change (sum_delays (fun j => worst_backoff 1000 (0 + j)) (10 - 1)) with 66996%Z in H10.
  repeat split; assumption.
Qed.

(** ** The display of the sequential page *)

Lemma erases_ret {A B} (Q : A -> B -> Prop) a b : Q a b -> erases Q (ret a) (ret b).
Proof. intros HQ s. split; [exact HQ|reflexivity]. Qed.

Lemma erases_throw {A B} (Q : A -> B -> Prop) e : erases Q (throw e) (throw e).
Proof. intros s. split; reflexivity. Qed.

Lemma erases_bind {A1 A2 B1 B2} (Q : A1 -> A2 -> Prop) (R : B1 -> B2 -> Prop)
    (m : M SeqUi.St A1) (m0 : M World A2) k k0 :
  erases Q m m0 -> (forall a b, Q a b -> erases R (k a) (k0 b)) ->
  erases R (bind m k) (bind m0 k0).
Proof.
  intros Hm Hk s. specialize (Hm s). unfold erases_at, bind in *.
  destruct (m s) as [[a|e] s'], (m0 (SeqUi.world s)) as [[b|e0] w'];
    destruct Hm as [Ha Hw]; cbn in Ha, Hw; try contradiction.
  - subst w'. now apply Hk.
  - split; [exact Ha|exact Hw].
Qed.

Lemma erases_try_catch {A B} (Q : A -> B -> Prop) (m : M SeqUi.St A) (m0 : M World B) h h0 :
  erases Q m m0 -> (forall e, erases Q (h e) (h0 e)) ->
  erases Q (try_catch m h) (try_catch m0 h0).
Proof.
  intros Hm Hh s. specialize (Hm s). unfold erases_at, try_catch in *.
  destruct (m s) as [[a|e] s'], (m0 (SeqUi.world s)) as [[b|e0] w'];
    destruct Hm as [Ha Hw]; cbn in Ha, Hw; try contradiction.
  - split; [exact Ha|exact Hw].
  - subst w' e0. apply Hh.
Qed.

Lemma erases_for_of {A B} (body : B -> A -> M SeqUi.St B) (body0 : B -> A -> M World B) :
  (forall acc x, erases eq (body acc x) (body0 acc x)) ->
  forall xs acc, erases eq (for_of body xs acc) (for_of body0 xs acc).
Proof.
  intros Hbody. induction xs as [|x xs IH]; intros acc.
  - now apply erases_ret.
  - cbn [for_of]. eapply erases_bind; [apply Hbody|]. intros ? ? <-. apply IH.
Qed.

Lemma erases_liftW {A} (m : M World A) : erases eq (SeqUi.liftW m) m.
Proof.
  intros s. unfold erases_at, SeqUi.liftW.
  destruct (m (SeqUi.world s)) as [[a|e] w']; split; reflexivity.
Qed.

Lemma erases_skip {A B} (Q : A -> B -> Prop) u (m : M SeqUi.St A) (m0 : M World B) :
  hidden u -> erases Q m m0 -> erases Q (u ;; m) m0.
Proof.
  intros Hu Hm s. unfold erases_at, bind. destruct (Hu s) as [Hr Hw].
  destruct (u s) as [[[]|e] s']; cbn in Hr, Hw; [|discriminate].
  rewrite <- Hw. apply Hm.
Qed.

Lemma erases_gets {A B C} (Q : A -> B -> Prop) (f : SeqUi.Ui -> C) k (m0 : M World B) :
  (forall v, erases Q (k v) m0) -> erases Q (bind (SeqUi.getsUi f) k) m0.
Proof. intros Hk s. unfold erases_at, bind, SeqUi.getsUi. apply Hk. Qed.

Lemma hidden_modifyUi f : hidden (SeqUi.modifyUi f).
Proof. intros s. split; reflexivity. Qed.

Lemma hidden_ret : hidden (ret tt).
Proof. intros s. split; reflexivity. Qed.

Section Display.
Context (env : Env) (index_euc_kr : N -> option N) (formatBytes : nat -> string).
Context (chunkGrid phaseTextDisplay bytesTotalDisplay : bool).

Local Abbreviation setPhase := (SeqUi.setPhase phaseTextDisplay).
Local Abbreviation traverseNode := (SeqUi.traverseNode env phaseTextDisplay).
Local Abbreviation loadChunksSequentially :=
  (SeqUi.loadChunksSequentially env phaseTextDisplay).
Local Abbreviation retry_round := (SeqUi.retry_round env).
Local Abbreviation retry_rounds := (SeqUi.retry_rounds env phaseTextDisplay).
Local Abbreviation retryFailedChunks := (SeqUi.retryFailedChunks env phaseTextDisplay).
Local Abbreviation fetchTreeSequential_load :=
  (SeqUi.fetchTreeSequential_load env chunkGrid phaseTextDisplay).
Local Abbreviation fetchTreeSequential :=
  (SeqUi.fetchTreeSequential env formatBytes chunkGrid phaseTextDisplay bytesTotalDisplay).

Lemma hidden_setPhase phase : hidden (setPhase phase).
Proof. unfold SeqUi.setPhase. destruct phaseTextDisplay; [apply hidden_modifyUi|apply hidden_ret]. Qed.

Lemma hidden_setBytesTotal n : hidden (SeqUi.setBytesTotal formatBytes bytesTotalDisplay n).
Proof.
  unfold SeqUi.setBytesTotal.
  destruct bytesTotalDisplay; [apply hidden_modifyUi|apply hidden_ret].
Qed.

Lemma hidden_initChunkGrid total :
  (chunkGrid = true -> grid_fits total) -> hidden (SeqUi.initChunkGrid chunkGrid total).
Proof.
  intros Hfit. unfold SeqUi.initChunkGrid, SeqUi.array_limit.
  destruct chunkGrid; [|apply hidden_ret].
  unfold grid_fits in Hfit. rewrite (Hfit eq_refl). apply hidden_modifyUi.
Qed.

Lemma erases_log msg : erases eq (SeqUi.logU msg) (log msg).
Proof. apply erases_liftW. Qed.

Lemma erases_fetch a retries :
  erases eq (SeqUi.fetchChunkData env a retries) (Seq.fetchChunkData env a retries).
Proof. apply erases_liftW. Qed.

Lemma traverseNode_erases : forall d st a,
  erases eq (traverseNode d st a) (Seq.traverseNode env d st a).
Proof.
  induction d as [|d IH]; intros [leaves n] a.
  - cbn [SeqUi.traverseNode Seq.traverseNode].
    apply erases_skip; [apply hidden_modifyUi|now apply erases_ret].
  - cbn [SeqUi.traverseNode Seq.traverseNode].
    apply erases_try_catch.
    + eapply erases_bind; [apply erases_fetch|]. intros data ? <-.
      eapply erases_bind with (Q := eq).
      { destruct data; [now apply erases_ret|apply erases_throw]. }
      intros data' ? <-.
      apply erases_skip; [apply hidden_setPhase|].
      apply erases_for_of. intros acc x. apply IH.
    + intros e. eapply erases_bind; [apply erases_log|]. intros _ _ _. apply erases_throw.
Qed.

Lemma collect_erases root depth :
  erases eq (SeqUi.collectLeafAddresses env phaseTextDisplay root depth)
            (Seq.collectLeafAddresses env root depth).
Proof.
  unfold SeqUi.collectLeafAddresses, Seq.collectLeafAddresses.
  eapply erases_bind; [apply traverseNode_erases|]. intros r ? <-. now apply erases_ret.
Qed.

Lemma fetch_tagged_erases a retries :
  erases eq
    (try_catch (let* data := SeqUi.fetchChunkData env a retries in ret (inl data))
               (fun err => ret (inr err)))
    (try_catch (let* data := Seq.fetchChunkData env a retries in ret (inl data))
               (fun err => ret (inr err))).
Proof.
  apply erases_try_catch.
  - eapply erases_bind; [apply erases_fetch|]. intros d ? <-. now apply erases_ret.
  - intros e. now apply erases_ret.
Qed.

Lemma loadChunksSequentially_erases leaves :
  erases eq (loadChunksSequentially leaves) (Seq.loadChunksSequentially env leaves).
Proof.
  unfold SeqUi.loadChunksSequentially, Seq.loadChunksSequentially.
  apply erases_for_of. intros [chunks failed] [i leaf].
  apply erases_skip; [apply hidden_setPhase|].
  apply erases_skip; [apply hidden_modifyUi|].
  eapply erases_bind; [apply fetch_tagged_erases|]. intros r ? <-.
  destruct r as [[d|]|err].
  - intros s. split; reflexivity.
  - intros s. split; reflexivity.
  - intros s. split; reflexivity.
Qed.

Lemma retry_round_erases toRetry chunks :
  erases eq (retry_round toRetry chunks) (Seq.retry_round env toRetry chunks).
Proof.
  unfold SeqUi.retry_round, Seq.retry_round.
  apply erases_for_of. intros [cs stillFailed] leaf.
  apply erases_skip; [apply hidden_modifyUi|].
  intros s. unfold erases_at, bind, try_catch, SeqUi.fetchChunkData, SeqUi.liftW.
  destruct (Seq.fetchChunkData env (l_address leaf) 3 (SeqUi.world s)) as [[[d|]|e] w'];
    split; reflexivity.
Qed.

Lemma retry_rounds_erases : forall left retryRound toRetry chunks,
  erases eq (retry_rounds left retryRound toRetry chunks)
            (Seq.retry_rounds env left retryRound toRetry chunks).
Proof.
  induction left as [|left IH]; intros retryRound toRetry chunks.
  - destruct toRetry; now apply erases_ret.
  - destruct toRetry as [|l toRetry]; [now apply erases_ret|].
    cbn [SeqUi.retry_rounds Seq.retry_rounds].
    apply erases_skip; [apply hidden_setPhase|].
    eapply erases_bind; [apply erases_log|]. intros _ _ _.
    eapply erases_bind; [apply erases_liftW|]. intros _ _ _.
    eapply erases_bind; [apply retry_round_erases|]. intros r ? <-. apply IH.
Qed.

Lemma retryFailedChunks_erases failed chunks :
  erases eq (retryFailedChunks failed chunks) (Seq.retryFailedChunks env failed chunks).
Proof.
  unfold SeqUi.retryFailedChunks, Seq.retryFailedChunks.
  destruct failed as [|l failed]; [now apply erases_ret|].
  apply erases_skip; [apply hidden_modifyUi|].
  eapply erases_bind; [apply retry_rounds_erases|]. intros r ? <-.
  apply erases_skip; [apply hidden_modifyUi|].
  destruct (snd r); [now apply erases_ret|].
  eapply erases_bind; [apply erases_log|]. intros _ _ _. now apply erases_ret.
Qed.

Lemma erases_at_skip {A B} (Q : A -> B -> Prop) u (m : M SeqUi.St A) (m0 : M World B) s :
  hidden u -> erases_at Q m m0 (u s).2 -> erases_at Q (u ;; m) m0 s.
Proof.
  intros Hu Hm. unfold erases_at, bind in *. destruct (Hu s) as [Hr Hw].
  destruct (u s) as [[[]|e] s']; cbn [fst snd] in *; [|discriminate].
  rewrite <- Hw. exact Hm.
Qed.

Lemma erases_at_bind {A1 A2 B1 B2} (Q : A1 -> A2 -> Prop) (R : B1 -> B2 -> Prop)
    (m : M SeqUi.St A1) (m0 : M World A2) k k0 s :
  erases_at Q m m0 s ->
  (forall a b, Q a b -> (m s).1 = Return a -> erases_at R (k a) (k0 b) (m s).2) ->
  erases_at R (bind m k) (bind m0 k0) s.
Proof.
  intros Hm Hk. unfold erases_at, bind in *.
  destruct (m s) as [[a|e] s'], (m0 (SeqUi.world s)) as [[b|e0] w'];
    destruct Hm as [Ha Hw]; cbn [fst snd agree] in *; try contradiction.
  - subst w'. now apply Hk.
  - split; [exact Ha|exact Hw].
Qed.

Lemma erases_at_try_catch {A B} (Q : A -> B -> Prop) (m : M SeqUi.St A) (m0 : M World B)
    h h0 s :
  erases_at Q m m0 s -> (forall e, erases Q (h e) (h0 e)) ->
  erases_at Q (try_catch m h) (try_catch m0 h0) s.
Proof.
  intros Hm Hh. unfold erases_at, try_catch in *.
  destruct (m s) as [[a|e] s'], (m0 (SeqUi.world s)) as [[b|e0] w'];
    destruct Hm as [Ha Hw]; cbn [fst snd agree] in *; try contradiction.
  - split; [exact Ha|exact Hw].
  - subst w' e0. apply Hh.
Qed.

Lemma erases_at_gets {A B C} (Q : A -> B -> Prop) (f : SeqUi.Ui -> C) k (m0 : M World B) s :
  erases_at Q (k (f (SeqUi.ui s))) m0 s -> erases_at Q (bind (SeqUi.getsUi f) k) m0 s.
Proof. intros H. exact H. Qed.

(** The load phases erase wherever the grid they build fits an array. *)
Lemma load_erases_at root depth s :
  (chunkGrid = true -> grid_fits (SeqUi.expectedTotal (SeqUi.ui s))) ->
  erases_at eq (fetchTreeSequential_load root depth)
    (Seq.fetchTreeSequential_load env root depth) s.
Proof.
  intros Hfit. unfold SeqUi.fetchTreeSequential_load, Seq.fetchTreeSequential_load.
  apply erases_at_gets.
  apply erases_at_skip; [now apply hidden_initChunkGrid|].
  match goal with |- erases_at ?Q ?m ?m0 ?s1 => generalize s1; change (erases Q m m0) end.
  eapply erases_bind; [apply erases_log|]. intros _ _ _.
  apply erases_skip; [apply hidden_setPhase|].
  eapply erases_bind; [apply erases_log|]. intros _ _ _.
  eapply erases_bind; [apply collect_erases|]. intros leaves ? <-.
  eapply erases_bind; [apply erases_log|]. intros _ _ _.
  apply erases_skip; [apply hidden_setPhase|].
  eapply erases_bind; [apply erases_log|]. intros _ _ _.
  eapply erases_bind; [apply loadChunksSequentially_erases|]. intros r ? <-.
  eapply erases_bind; [apply erases_log|]. intros _ _ _.
  destruct (snd r); [now apply erases_ret|].
  apply erases_skip; [apply hidden_setPhase|].
  eapply erases_bind; [apply erases_log|]. intros _ _ _.
  apply retryFailedChunks_erases.
Qed.

Lemma defined_erases {A} (v : option A) : erases eq (defined v) (defined v).
Proof. destruct v; [now apply erases_ret|apply erases_throw]. Qed.

Lemma assemble_erases chunks : erases eq (assemble_sorted chunks) (assemble_sorted chunks).
Proof.
  unfold assemble_sorted.
  eapply erases_bind with (Q := eq).
  { apply erases_for_of. intros acc c.
    eapply erases_bind; [apply defined_erases|]. intros d ? <-. now apply erases_ret. }
  intros total ? <-.
  eapply erases_bind with (Q := eq); [|intros r ? <-; now apply erases_ret].
  apply erases_for_of. intros [finalData offset] c.
  eapply erases_bind; [apply defined_erases|]. intros d ? <-.
  eapply erases_bind with (Q := eq); [|intros f ? <-; now apply erases_ret].
  unfold array_set. destruct (_ <=? _); [now apply erases_ret|apply erases_throw].
Qed.

Lemma fetchTreeSequential_erases_at root depth totalSize s :
  (chunkGrid = true -> grid_fits (SeqUi.expectedTotal (SeqUi.ui s))) ->
  erases_at eq (fetchTreeSequential root depth totalSize)
    (Seq.fetchTreeSequential env formatBytes root depth totalSize) s.
Proof.
  intros Hfit. unfold SeqUi.fetchTreeSequential, Seq.fetchTreeSequential.
  eapply erases_at_bind; [now apply load_erases_at|]. intros r ? <- _.
  match goal with |- erases_at ?Q ?m ?m0 ?s1 => generalize s1; change (erases Q m m0) end.
  apply erases_skip; [apply hidden_setPhase|].
  eapply erases_bind; [apply assemble_erases|]. intros data ? <-.
  apply erases_skip; [apply hidden_setBytesTotal|].
  eapply erases_bind; [apply erases_log|]. intros _ _ _. now apply erases_ret.
Qed.

Lemma init_erases_at master s :
  master <> EmptyString ->
  (chunkGrid = true ->
   forall info, siteInfo env (tick (SeqUi.world s)) master = Some info ->
                grid_fits ((totalSize info + 2999) / 3000)) ->
  erases_at (fun screen page => screen = SeqUi.Shows page)
    (SeqUi.init env index_euc_kr formatBytes chunkGrid phaseTextDisplay bytesTotalDisplay
       (Some master))
    (Seq.init env index_euc_kr formatBytes master) s.
Proof.
  intros Hm Hfit. unfold SeqUi.init, Seq.init.
  destruct master as [|c master]; [contradiction|].
  apply erases_at_try_catch.
  - apply erases_at_skip; [apply hidden_setPhase|].
    apply erases_at_skip; [apply hidden_setPhase|].
    set (s2 := (setPhase "READING CONTRACT" (setPhase "CONNECTING" s).2).2).
    assert (W2 : SeqUi.world s2 = SeqUi.world s).
    { unfold s2.
      destruct (hidden_setPhase "READING CONTRACT" (setPhase "CONNECTING" s).2) as [_ ->].
      now destruct (hidden_setPhase "CONNECTING" s) as [_ ->]. }
    eapply erases_at_bind; [apply erases_liftW|]. intros info ? <- Hinfo.
    assert (Hsite : siteInfo env (tick (SeqUi.world s)) (String c master) = Some info).
    { rewrite <- W2. unfold SeqUi.liftW, getCurrentSiteInfo in Hinfo.
      destruct (siteInfo env (tick (SeqUi.world s2)) (String c master)) as [i|];
        cbn in Hinfo; [now injection Hinfo as ->|discriminate]. }
    eapply erases_at_bind; [apply erases_log|]. intros _ _ _ _.
    apply erases_at_skip; [apply hidden_modifyUi|].
    apply erases_at_skip; [apply hidden_setBytesTotal|].
    eapply erases_at_bind.
    { apply fetchTreeSequential_erases_at. intros Hg.
      unfold SeqUi.setBytesTotal. destruct bytesTotalDisplay; cbn; exact (Hfit Hg info Hsite). }
    intros data ? <- _.
    match goal with |- erases_at ?Q ?m ?m0 ?s1 => generalize s1; change (erases Q m m0) end.
    apply erases_skip; [apply hidden_setPhase|].
    destruct (charset_match _).
    + eapply erases_bind; [apply erases_log|]. intros _ _ _. now apply erases_ret.
    + now apply erases_ret.
  - intros e. eapply erases_bind; [apply erases_log|]. intros _ _ _.
    apply erases_skip; [apply hidden_setPhase|]. now apply erases_ret.
Qed.

End Display.

(** The display never steers the load.  Take [init()] of the sequential
    page with or without the elements it paints, whatever they showed before;
    when the page has the grid, let the grid that the site information asks
    for fit an array.  Then [init()] shows the page the bare engine computes,
    after the same reads, waits and log lines.  Without an address in the URL
    it reads and logs nothing. *)
Theorem display_never_steers_the_load (env : Env) (index_euc_kr : N -> option N)
    (formatBytes : nat -> string) (chunkGrid phaseTextDisplay bytesTotalDisplay : bool)
    (masterAddress : option Address) (s : SeqUi.St) :
  (chunkGrid = true ->
   forall master info,
     masterAddress = Some master ->
     siteInfo env (tick (SeqUi.world s)) master = Some info ->
     grid_fits ((totalSize info + 2999) / 3000)) ->
  let run := SeqUi.init env index_euc_kr formatBytes chunkGrid phaseTextDisplay
               bytesTotalDisplay masterAddress s in
  match masterAddress with
  | None | Some EmptyString =>
      run.1 = Return SeqUi.NoAddress /\ SeqUi.world run.2 = SeqUi.world s
  | Some master =>
      exists page,
        Seq.init env index_euc_kr formatBytes master (SeqUi.world s)
          = (Return page, SeqUi.world run.2) /\
        run.1 = Return (SeqUi.Shows page)
  end.
Proof.
  intros Hfit run. subst run.
  destruct masterAddress as [master|].
  - destruct master as [|c master].
    + unfold SeqUi.init.
      destruct (hidden_setPhase phaseTextDisplay "ERROR: NO ADDRESS" s) as [Hr Hw].
      unfold bind. destruct (SeqUi.setPhase _ _ s) as [[[]|e] s']; cbn in Hr, Hw; [|discriminate].
      split; [reflexivity|exact Hw].
    + assert (Hret : exists page w',
                Seq.init env index_euc_kr formatBytes (String c master) (SeqUi.world s)
                  = (Return page, w')).
      { unfold Seq.init. apply catch_returns. intros e s1. eexists _, _. reflexivity. }
      destruct Hret as (page & w' & Hrun).
      assert (Hm : String c master <> EmptyString) by discriminate.
      destruct (init_erases_at env index_euc_kr formatBytes chunkGrid phaseTextDisplay
                  bytesTotalDisplay (String c master) s Hm) as [Ha Hw].
      { intros Hg info Hsite. exact (Hfit Hg (String c master) info eq_refl Hsite). }
      rewrite Hrun in Ha, Hw. cbn [fst snd] in Ha, Hw.
      destruct (SeqUi.init _ _ _ _ _ _ _ s) as [[screen|e] s'];
        cbn [fst snd agree] in Ha, Hw |- *; [|contradiction].
      exists page. rewrite Hw. split; [exact Hrun|now rewrite Ha].
  - unfold SeqUi.init.
    destruct (hidden_setPhase phaseTextDisplay "ERROR: NO ADDRESS" s) as [Hr Hw].
    unfold bind. destruct (SeqUi.setPhase _ _ s) as [[[]|e] s']; cbn in Hr, Hw; [|discriminate].
    split; [reflexivity|exact Hw].
Qed.

Lemma display_never_steers_the_load_witness :
  let start := {| SeqUi.world := world0; SeqUi.ui := SeqUi.ui0 |} in
  (true = true ->
   forall master info,
     Some "0xM" = Some master ->
     siteInfo SampleTree.env (tick (SeqUi.world start)) master = Some info ->
     grid_fits ((totalSize info + 2999) / 3000)) /\
  let run := SeqUi.init SampleTree.env (fun _ => None) (fun n => dec n +:+ " B")
               true true true (Some "0xM") start in
  exists page,
    Seq.init SampleTree.env (fun _ => None) (fun n => dec n +:+ " B") "0xM" world0
      = (Return page, SeqUi.world run.2) /\
    run.1 = Return (SeqUi.Shows page).
Proof.
  intros start.
  assert (Hfit : true = true ->
                 forall master info,
                   Some "0xM" = Some master ->
                   siteInfo SampleTree.env (tick (SeqUi.world start)) master = Some info ->
                   grid_fits ((totalSize info + 2999) / 3000)).
  { intros _ master info _ Hsite. injection Hsite as <-. reflexivity. }
  split; [exact Hfit|].
  exact (display_never_steers_the_load SampleTree.env (fun _ => None)
           (fun n => dec n +:+ " B") true true true (Some "0xM") start Hfit).
Defined.

Lemma set_class_length i c cells : length (SeqUi.set_class i c cells) = length cells.
Proof. unfold SeqUi.set_class. destruct (_ <? _); [apply length_insert|reflexivity]. Qed.

Lemma set_class_same i c cells :
  i < length cells -> SeqUi.set_class i c cells !! i = Some c.
Proof.
  intros Hi. unfold SeqUi.set_class.
  destruct (Nat.ltb_spec i (length cells)); [|lia]. now apply list_lookup_insert_eq.
Qed.

Lemma set_class_other i j c cells :
  i <> j -> SeqUi.set_class i c cells !! j = cells !! j.
Proof.
  intros Hij. unfold SeqUi.set_class.
  destruct (_ <? _); [now apply list_lookup_insert_ne|reflexivity].
Qed.

Lemma same_gauges_refl u : same_gauges u u.
Proof. repeat split. Qed.

Lemma scanning_ext u0 u u' st : same_gauges u u' -> scanning u0 u st -> scanning u0 u' st.
Proof.
  intros (Hc & Hs & Hl & Hb) [].
  split; rewrite ?Hc, ?Hs, ?Hl, ?Hb; assumption.
Qed.

Lemma loading_ext L u0 u u' chunks failed rest :
  same_gauges u u' -> loading L u0 u chunks failed rest -> loading L u0 u' chunks failed rest.
Proof.
  intros (Hc & Hs & Hl & Hb) [].
  split; unfold painted in *; rewrite ?Hc, ?Hs, ?Hl, ?Hb; assumption.
Qed.

Lemma for_of_keeps {S A B} (I : B -> S -> Prop) (body : B -> A -> M S B) :
  (forall acc x s r s', body acc x s = (Return r, s') -> I acc s -> I r s') ->
  forall xs acc s r s', for_of body xs acc s = (Return r, s') -> I acc s -> I r s'.
Proof.
  intros Hbody. induction xs as [|x xs IH]; intros acc s r s' Hrun HI.
  - injection Hrun as <- <-. exact HI.
  - cbn [for_of] in Hrun. apply bind_inv in Hrun as (acc' & s1 & H1 & H2).
    eapply IH; [exact H2|]. eapply Hbody; [exact H1|exact HI].
Qed.

Lemma liftW_ui {A} (m : M World A) s r s' :
  SeqUi.liftW m s = (r, s') -> SeqUi.ui s' = SeqUi.ui s.
Proof.
  unfold SeqUi.liftW. destruct (m (SeqUi.world s)) as [o w']. now intros [= <- <-].
Qed.

Lemma liftW_run {A} (m : M World A) s r s' :
  SeqUi.liftW m s = (r, s') -> m (SeqUi.world s) = (r, SeqUi.world s').
Proof.
  unfold SeqUi.liftW. destruct (m (SeqUi.world s)) as [o w']. now intros [= <- <-].
Qed.

Section Gauges.
Context (env : Env) (formatBytes : nat -> string).
Context (chunkGrid phaseTextDisplay bytesTotalDisplay : bool).

Local Abbreviation setPhase := (SeqUi.setPhase phaseTextDisplay).
Local Abbreviation traverseNode := (SeqUi.traverseNode env phaseTextDisplay).

Lemma setPhase_gauges phase s :
  exists s', setPhase phase s = (Return tt, s') /\ same_gauges (SeqUi.ui s) (SeqUi.ui s').
Proof.
  unfold SeqUi.setPhase. destruct phaseTextDisplay; eexists; (split; [reflexivity|]).
  - repeat split.
  - apply same_gauges_refl.
Qed.

Lemma traverseNode_scanning u0 : forall d st a s r s',
  traverseNode d st a s = (Return r, s') ->
  scanning u0 (SeqUi.ui s) st -> scanning u0 (SeqUi.ui s') r.
Proof.
  induction d as [|d IH]; intros [leaves n] a s r s' Hrun Hs.
  - cbn in Hrun. injection Hrun as <- <-. destruct Hs as [Hl Hi Hsc Hlo Hb Hc Hbe].
    cbn [fst snd] in *.
    assert (Hn : length (leaves ++ [{| l_index := n; l_address := a |}]) - 1 = n).
    { rewrite length_app. cbn. lia. }
    split; cbn [fst snd SeqUi.ui SeqUi.set_scannedChunks SeqUi.set_chunkCells
                SeqUi.scannedChunks SeqUi.loadedChunks SeqUi.bytesLoaded SeqUi.chunkCells].
    + rewrite length_app. cbn. lia.
    + rewrite fmap_app, Hi, seq_S. reflexivity.
    + lia.
    + exact Hlo.
    + exact Hb.
    + now rewrite set_class_length.
    + intros i Hi'. rewrite Hn, set_class_other by lia. apply Hbe. lia.
  - cbn [SeqUi.traverseNode] in Hrun. unfold try_catch in Hrun.
    match type of Hrun with
    | match ?m s with _ => _ end = _ => destruct (m s) as [[r1|e] s1] eqn:Hbody
    end.
    + injection Hrun as <- <-.
      apply bind_inv in Hbody as (data & s2 & Hf & Hbody).
      apply liftW_ui in Hf.
      apply bind_inv in Hbody as (data' & s3 & Hd & Hbody).
      assert (s3 = s2) as ->.
      { destruct data; cbn in Hd; [now injection Hd as _ <-|discriminate]. }
      apply bind_inv in Hbody as ([] & s4 & Hp & Hbody).
      destruct (setPhase_gauges
                  ("SCAN DEPTH " +:+ dec (S d) +:+ ": "
                     +:+ dec (length (childAddrs data')) +:+ " nodes") s2)
        as (s4' & Hp' & Hg).
      rewrite Hp' in Hp. injection Hp as <-.
      eapply (for_of_keeps (fun acc t => scanning u0 (SeqUi.ui t) acc)); [|exact Hbody|].
      * intros acc x t r' t'. apply IH.
      * eapply scanning_ext; [exact Hg|]. now rewrite Hf.
    + unfold bind in Hrun. destruct (SeqUi.logU _ s1) as [[[]|e'] s2]; discriminate.
Qed.

End Gauges.

Lemma marks_head L chunks failed l rest :
  marks chunks failed (l :: rest) ≡ₚ seq 0 L ->
  l_index l < L /\
  (forall c, c ∈ chunks -> index c <> l_index l) /\
  (forall f, f ∈ failed -> l_index f <> l_index l).
Proof.
  intros HP.
  assert (Hin : l_index l ∈ marks chunks failed (l :: rest)).
  { unfold marks. rewrite fmap_cons. set_solver. }
  assert (Hnd : NoDup (marks chunks failed (l :: rest))).
  { rewrite HP. apply NoDup_seq. }
  rewrite HP in Hin. apply elem_of_seq in Hin.
  unfold marks in Hnd. rewrite fmap_cons in Hnd.
  apply NoDup_app in Hnd as (_ & Hc & Hnd).
  apply NoDup_app in Hnd as (_ & Hf & _).
  split; [lia|]. split.
  - intros c Hcin E. apply (Hc (index c)); [now apply list_elem_of_fmap_2|].
    rewrite E. set_solver.
  - intros f Hfin E. apply (Hf (l_index f)); [now apply list_elem_of_fmap_2|].
    rewrite E. set_solver.
Qed.

Lemma bytes_of_snoc chunks c :
  bytes_of (chunks ++ [c]) = bytes_of chunks + length (default [] (data c)).
Proof. unfold bytes_of. rewrite sum_list_with_app. cbn. lia. Qed.

Lemma loading_total L u0 u chunks failed :
  loading L u0 u chunks failed [] -> length chunks + length failed = L.
Proof.
  intros [_ _ _ _ _ _ _ _ HP]. apply Permutation_length in HP.
  unfold marks in HP. rewrite !length_app, !length_fmap, length_seq in HP. cbn in HP. lia.
Qed.

(** Painting the cell of the leaf that is tried next. *)
Lemma loading_mark L u0 u chunks failed l rest c :
  loading L u0 u chunks failed (l :: rest) ->
  loading L u0
    (SeqUi.set_chunkCells (SeqUi.set_class (l_index l) c (SeqUi.chunkCells u)) u)
    chunks failed (l :: rest).
Proof.
  intros [Hsc Hn Hb Hd Hc Hlo Hfa Hbe HP].
  destruct (marks_head _ _ _ _ _ HP) as (Hl & Hcs & Hfs).
  split; cbn; try assumption.
  - now rewrite set_class_length.
  - intros x Hx. unfold painted. cbn. rewrite set_class_length.
    rewrite set_class_other by (intros E; now apply (Hcs x)). now apply Hlo.
  - intros x Hx. unfold painted. cbn. rewrite set_class_length.
    rewrite set_class_other by (intros E; now apply (Hfs x)). now apply Hfa.
  - intros i Hi. rewrite set_class_other by lia. now apply Hbe.
Qed.

(** The leaf tried next has been loaded. *)
Lemma loading_loaded_step L u0 u chunks failed l rest d :
  loading L u0 u chunks failed (l :: rest) ->
  loading L u0
    (SeqUi.set_loadedChunks (S (SeqUi.loadedChunks u))
       (SeqUi.set_chunkCells
          (SeqUi.set_class (l_index l) "chunk chunk-loaded" (SeqUi.chunkCells u))
          (SeqUi.set_bytesLoaded (SeqUi.bytesLoaded u + length d) u)))
    (chunks ++ [{| index := l_index l; data := Some d |}]) failed rest.
Proof.
  intros [Hsc Hn Hb Hd Hc Hlo Hfa Hbe HP].
  destruct (marks_head _ _ _ _ _ HP) as (Hl & Hcs & Hfs).
  split; cbn.
  - exact Hsc.
  - rewrite length_app. cbn. lia.
  - rewrite bytes_of_snoc. cbn. lia.
  - apply Forall_app. split; [exact Hd|]. constructor; [now eexists|constructor].
  - now rewrite set_class_length.
  - intros x Hx. unfold painted. cbn. rewrite set_class_length.
    apply elem_of_app in Hx as [Hx|Hx].
    + rewrite set_class_other by (intros E; now apply (Hcs x)). now apply Hlo.
    + apply list_elem_of_singleton in Hx as ->. cbn. apply set_class_same.
  - intros x Hx. unfold painted. cbn. rewrite set_class_length.
    rewrite set_class_other by (intros E; now apply (Hfs x)). now apply Hfa.
  - intros i Hi. rewrite set_class_other by lia. now apply Hbe.
  - rewrite <- HP. unfold marks. rewrite fmap_app, fmap_cons, <- app_assoc. cbn.
    apply Permutation_app_head. apply Permutation_middle.
Qed.

(** The leaf tried next has failed. *)
Lemma loading_failed_step L u0 u chunks failed l rest :
  loading L u0 u chunks failed (l :: rest) ->
  loading L u0
    (SeqUi.set_chunkCells
       (SeqUi.set_class (l_index l) "chunk chunk-failed" (SeqUi.chunkCells u)) u)
    chunks (failed ++ [l]) rest.
Proof.
  intros [Hsc Hn Hb Hd Hc Hlo Hfa Hbe HP].
  destruct (marks_head _ _ _ _ _ HP) as (Hl & Hcs & Hfs).
  split; cbn; try assumption.
  - now rewrite set_class_length.
  - intros x Hx. unfold painted. cbn. rewrite set_class_length.
    rewrite set_class_other by (intros E; now apply (Hcs x)). now apply Hlo.
  - intros x Hx. unfold painted. cbn. rewrite set_class_length.
    apply elem_of_app in Hx as [Hx|Hx].
    + rewrite set_class_other by (intros E; now apply (Hfs x)). now apply Hfa.
    + apply list_elem_of_singleton in Hx as ->. apply set_class_same.
  - intros i Hi. rewrite set_class_other by lia. now apply Hbe.
  - rewrite <- HP. unfold marks. rewrite fmap_app, fmap_cons, <- !app_assoc. reflexivity.
Qed.

(** The leaves that failed a round are the ones the next round tries. *)
Lemma loading_requeue L u0 u chunks failed :
  loading L u0 u chunks failed [] -> loading L u0 u chunks [] failed.
Proof.
  intros [Hsc Hn Hb Hd Hc Hlo Hfa Hbe HP].
  split; try assumption.
  - intros l Hl. now apply elem_of_nil in Hl.
  - rewrite <- HP. unfold marks. cbn. now rewrite app_nil_r.
Qed.

Lemma imap_items {A} (xs : list A) : forall g : nat -> nat,
  (imap (fun i x => (g i, x)) xs).*2 = xs.
Proof.
  induction xs as [|x xs IH]; intros g; [reflexivity|].
  cbn. f_equal. apply (IH (g ∘ S)).
Qed.

Section Painting.
Context (env : Env) (formatBytes : nat -> string).
Context (chunkGrid phaseTextDisplay bytesTotalDisplay : bool).

Local Abbreviation setPhase := (SeqUi.setPhase phaseTextDisplay).
Local Abbreviation loadChunksSequentially :=
  (SeqUi.loadChunksSequentially env phaseTextDisplay).
Local Abbreviation retry_round := (SeqUi.retry_round env).
Local Abbreviation retry_rounds := (SeqUi.retry_rounds env phaseTextDisplay).
Local Abbreviation retryFailedChunks := (SeqUi.retryFailedChunks env phaseTextDisplay).
Local Abbreviation fetchTreeSequential_load :=
  (SeqUi.fetchTreeSequential_load env chunkGrid phaseTextDisplay).

(** A fetch with a budget returns bytes or raises; the display is not
    touched. *)
Lemma fetch_tagged_run a retries s :
  (0 < retries)%Z ->
  exists r w',
    try_catch (let* data := SeqUi.fetchChunkData env a retries in ret (inl data))
              (fun err => ret (inr err)) s
      = (Return r, {| SeqUi.world := w'; SeqUi.ui := SeqUi.ui s |}) /\
    forall od, r = inl od -> is_Some od.
Proof.
  intros Hr. unfold try_catch, bind, SeqUi.fetchChunkData, SeqUi.liftW.
  destruct (Seq.fetchChunkData env a retries (SeqUi.world s)) as [[od|e] w'] eqn:Hf.
  - exists (inl od), w'. split; [reflexivity|]. intros ? [= <-].
    rewrite fetchChunkData_same in Hf.
    destruct (fetchChunkData_served env a retries _ _ _ Hr Hf) as (d & t & -> & _).
    now eexists.
  - exists (inr e), w'. split; [reflexivity|]. discriminate.
Qed.

Lemma loadChunksSequentially_loading L u0 leaves s r s' :
  loadChunksSequentially leaves s = (r, s') ->
  loading L u0 (SeqUi.ui s) [] [] leaves ->
  exists chunks failed,
    r = Return (chunks, failed) /\ loading L u0 (SeqUi.ui s') chunks failed [].
Proof.
  unfold SeqUi.loadChunksSequentially. intros Hrun Hl. revert Hrun.
  match goal with |- for_of ?body _ _ _ = _ -> _ => set (b := body) end.
  assert (Hloop : forall ps chunks failed t,
            loading L u0 (SeqUi.ui t) chunks failed ps.*2 ->
            forall r s', for_of b ps (chunks, failed) t = (r, s') ->
            exists chunks' failed',
              r = Return (chunks', failed') /\ loading L u0 (SeqUi.ui s') chunks' failed' []).
  { induction ps as [|[i leaf] ps IH]; intros chunks failed t Ht r1 s1 Hrun.
    - injection Hrun as <- <-. eauto.
    - cbn [for_of] in Hrun. unfold bind at 1 in Hrun.
      destruct (b (chunks, failed) (i, leaf) t) as [o t1] eqn:Hb.
      unfold b in Hb. cbn beta iota in Hb.
      destruct (setPhase_gauges phaseTextDisplay
                  ("LOADING " +:+ dec (i + 1) +:+ " / " +:+ dec (length leaves)) t)
        as (t2 & Hp & Hg).
      unfold bind at 1 in Hb. rewrite Hp in Hb.
      unfold bind at 1, SeqUi.updateChunkLoading, SeqUi.modifyUi at 1 in Hb.
      match type of Hb with _ ?st = _ => set (t3 := st) in Hb end.
      assert (H3 : loading L u0 (SeqUi.ui t3) chunks failed (leaf :: ps.*2)).
      { apply loading_mark. eapply loading_ext; [exact Hg|exact Ht]. }
      destruct (fetch_tagged_run (l_address leaf) 2 t3) as (r0 & w' & Hf & Hsome); [lia|].
      unfold bind at 1 in Hb. rewrite Hf in Hb.
      destruct r0 as [od|e].
      + destruct (Hsome od eq_refl) as [d ->].
        injection Hb as <- <-.
        eapply IH; [|exact Hrun].
        exact (loading_loaded_step _ _ _ _ _ _ _ d H3).
      + injection Hb as <- <-.
        eapply IH; [|exact Hrun].
        exact (loading_failed_step _ _ _ _ _ _ _ H3). }
  intros Hrun.
  eapply Hloop; [|exact Hrun].
  pose proof (imap_items leaves id) as E. unfold id in E. now rewrite E.
Qed.

Lemma skip_gauge_free {A} (m : M SeqUi.St unit) (k : M SeqUi.St A) s r s' :
  gauge_free m -> (m ;; k) s = (r, s') ->
  exists s1, same_gauges (SeqUi.ui s) (SeqUi.ui s1) /\ k s1 = (r, s').
Proof.
  intros Hm Hrun. destruct (Hm s) as (s1 & H1 & Hg).
  unfold bind in Hrun. rewrite H1 in Hrun. eauto.
Qed.

Lemma gauge_free_setPhase phase : gauge_free (setPhase phase).
Proof. intros s. apply setPhase_gauges. Qed.

Lemma gauge_free_liftW (m : M World unit) :
  (forall w, exists w', m w = (Return tt, w')) -> gauge_free (SeqUi.liftW m).
Proof.
  intros Hm s. destruct (Hm (SeqUi.world s)) as (w' & Hw).
  unfold SeqUi.liftW. rewrite Hw. eexists. split; [reflexivity|apply same_gauges_refl].
Qed.

Lemma gauge_free_logU msg : gauge_free (SeqUi.logU msg).
Proof. apply gauge_free_liftW. intros w. eexists. reflexivity. Qed.

Lemma gauge_free_sleep ms : gauge_free (SeqUi.liftW (sleep ms)).
Proof. apply gauge_free_liftW. intros w. eexists. reflexivity. Qed.

Lemma gauge_free_isRetrying b : gauge_free (SeqUi.modifyUi (SeqUi.set_isRetrying b)).
Proof. intros s. eexists. split; [reflexivity|]. repeat split. Qed.

Lemma gauge_free_setBytesTotal n :
  gauge_free (SeqUi.setBytesTotal formatBytes bytesTotalDisplay n).
Proof.
  intros s. unfold SeqUi.setBytesTotal.
  destruct bytesTotalDisplay; eexists; (split; [reflexivity|]); repeat split.
Qed.

Lemma retry_round_loading L u0 toRetry chunks s r s' :
  retry_round toRetry chunks s = (r, s') ->
  loading L u0 (SeqUi.ui s) chunks [] toRetry ->
  exists chunks' failed',
    r = Return (chunks', failed') /\ loading L u0 (SeqUi.ui s') chunks' failed' [].
Proof.
  unfold SeqUi.retry_round. intros Hrun Hl. revert Hrun.
  match goal with |- for_of ?body _ _ _ = _ -> _ => set (b := body) end.
  assert (Hloop : forall rest cs stillFailed t,
            loading L u0 (SeqUi.ui t) cs stillFailed rest ->
            forall r s', for_of b rest (cs, stillFailed) t = (r, s') ->
            exists chunks' failed',
              r = Return (chunks', failed') /\ loading L u0 (SeqUi.ui s') chunks' failed' []).
  { induction rest as [|leaf rest IH]; intros cs stillFailed t Ht r1 s1 Hrun.
    - injection Hrun as <- <-. eauto.
    - cbn [for_of] in Hrun. unfold bind at 1 in Hrun.
      destruct (b (cs, stillFailed) leaf t) as [o t1] eqn:Hb.
      unfold b in Hb. cbn beta iota in Hb.
      unfold bind at 1, SeqUi.updateChunkRetrying, SeqUi.modifyUi at 1 in Hb.
      match type of Hb with _ ?st = _ => set (t3 := st) in Hb end.
      assert (H3 : loading L u0 (SeqUi.ui t3) cs stillFailed (leaf :: rest)).
      { now apply loading_mark. }
      destruct (fetch_tagged_run (l_address leaf) 3 t3) as (r0 & w' & Hf & Hsome); [lia|].
      unfold bind at 1 in Hb. rewrite Hf in Hb.
      destruct r0 as [od|e].
      + destruct (Hsome od eq_refl) as [d ->].
        injection Hb as <- <-.
        eapply IH; [|exact Hrun].
        exact (loading_loaded_step _ _ _ _ _ _ _ d H3).
      + injection Hb as <- <-.
        eapply IH; [|exact Hrun].
        exact (loading_failed_step _ _ _ _ _ _ _ H3). }
  intros Hrun. eapply Hloop; [exact Hl|exact Hrun].
Qed.

Lemma retry_rounds_loading L u0 : forall left retryRound toRetry chunks s r s',
  retry_rounds left retryRound toRetry chunks s = (r, s') ->
  loading L u0 (SeqUi.ui s) chunks toRetry [] ->
  exists chunks' failed',
    r = Return (chunks', failed') /\ loading L u0 (SeqUi.ui s') chunks' failed' [].
Proof.
  induction left as [|left IH]; intros retryRound toRetry chunks s r s' Hrun Hl.
  - destruct toRetry; injection Hrun as <- <-; eauto.
  - destruct toRetry as [|l toRetry]; [injection Hrun as <- <-; eauto|].
    cbn [SeqUi.retry_rounds] in Hrun.
    apply skip_gauge_free in Hrun as (s1 & G1 & Hrun); [|apply gauge_free_setPhase].
    apply skip_gauge_free in Hrun as (s2 & G2 & Hrun); [|apply gauge_free_logU].
    apply skip_gauge_free in Hrun as (s3 & G3 & Hrun); [|apply gauge_free_sleep].
    unfold bind at 1 in Hrun.
    destruct (retry_round (l :: toRetry) chunks s3) as [o s4] eqn:Hround.
    eapply retry_round_loading in Hround as (chunks' & failed' & -> & H4).
    + eapply IH; [exact Hrun|exact H4].
    + apply loading_requeue.
      eapply loading_ext; [exact G3|]. eapply loading_ext; [exact G2|].
      eapply loading_ext; [exact G1|exact Hl].
Qed.

Lemma retryFailedChunks_loading L u0 failed chunks s r s' :
  retryFailedChunks failed chunks s = (r, s') ->
  loading L u0 (SeqUi.ui s) chunks failed [] ->
  exists chunks' failed',
    r = Return (chunks', failed') /\ loading L u0 (SeqUi.ui s') chunks' failed' [].
Proof.
  unfold SeqUi.retryFailedChunks. intros Hrun Hl.
  destruct failed as [|l failed]; [injection Hrun as <- <-; eauto|].
  apply skip_gauge_free in Hrun as (s1 & G1 & Hrun); [|apply gauge_free_isRetrying].
  unfold bind at 1 in Hrun.
  destruct (retry_rounds 5 0 (l :: failed) chunks s1) as [o s2] eqn:Hrounds.
  eapply retry_rounds_loading in Hrounds as (chunks' & failed' & -> & H2);
    [|eapply loading_ext; [exact G1|exact Hl]].
  apply skip_gauge_free in Hrun as (s3 & G3 & Hrun); [|apply gauge_free_isRetrying].
  cbn [snd] in Hrun. destruct failed' as [|f failed'].
  - injection Hrun as <- <-. exists chunks', []. split; [reflexivity|].
    eapply loading_ext; [exact G3|exact H2].
  - apply skip_gauge_free in Hrun as (s4 & G4 & Hrun); [|apply gauge_free_logU].
    injection Hrun as <- <-. exists chunks', (f :: failed'). split; [reflexivity|].
    eapply loading_ext; [exact G4|]. eapply loading_ext; [exact G3|exact H2].
Qed.

(** The grid and the counters when [fetchTreeSequential] comes to the sort,
    against the display [initChunkGrid] left. *)
Lemma load_loading root depth s chunks failed s' :
  fetchTreeSequential_load root depth s = (Return (chunks, failed), s') ->
  loading (length chunks + length failed)
    (SeqUi.ui (SeqUi.initChunkGrid chunkGrid (SeqUi.expectedTotal (SeqUi.ui s)) s).2)
    (SeqUi.ui s') chunks failed [].
Proof.
  unfold SeqUi.fetchTreeSequential_load. intros Hrun.
  unfold bind at 1, SeqUi.getsUi at 1 in Hrun.
  unfold bind at 1 in Hrun.
  destruct (SeqUi.initChunkGrid chunkGrid (SeqUi.expectedTotal (SeqUi.ui s)) s)
    as [o s0] eqn:Hgrid.
  destruct o as [[]|e]; [|discriminate].
  cbn [snd].
  apply skip_gauge_free in Hrun as (s1 & G1 & Hrun); [|apply gauge_free_logU].
  apply skip_gauge_free in Hrun as (s2 & G2 & Hrun); [|apply gauge_free_setPhase].
  apply skip_gauge_free in Hrun as (s3 & G3 & Hrun); [|apply gauge_free_logU].
  apply bind_inv in Hrun as (leaves & s4 & Hscan & Hrun).
  unfold SeqUi.collectLeafAddresses in Hscan.
  apply bind_inv in Hscan as ([leaves' n] & s4' & Hscan & Hret).
  injection Hret as <- <-. cbn [fst] in *.
  eapply (traverseNode_scanning env phaseTextDisplay (SeqUi.ui s0)) in Hscan.
  2:{ eapply scanning_ext; [exact G3|]. eapply scanning_ext; [exact G2|].
      eapply scanning_ext; [exact G1|]. split; cbn; try reflexivity; lia. }
  assert (H4 : loading n (SeqUi.ui s0) (SeqUi.ui s4') [] [] leaves').
  { destruct Hscan as [Hl Hi Hsc Hlo Hb Hc Hbe]. cbn [fst snd] in *.
    split; try assumption.
    - cbn. lia.
    - cbn. lia.
    - constructor.
    - intros c Hc'. now apply elem_of_nil in Hc'.
    - intros l Hl'. now apply elem_of_nil in Hl'.
    - unfold marks. cbn. now rewrite Hi. }
  apply skip_gauge_free in Hrun as (s5 & G5 & Hrun); [|apply gauge_free_logU].
  apply skip_gauge_free in Hrun as (s6 & G6 & Hrun); [|apply gauge_free_setPhase].
  apply skip_gauge_free in Hrun as (s7 & G7 & Hrun); [|apply gauge_free_logU].
  apply bind_inv in Hrun as ([chunks1 failed1] & s8 & Hpass & Hrun).
  eapply loadChunksSequentially_loading in Hpass as (chunks1' & failed1' & E & H8).
  2:{ eapply loading_ext; [exact G7|]. eapply loading_ext; [exact G6|].
      eapply loading_ext; [exact G5|exact H4]. }
  injection E as <- <-.
  apply skip_gauge_free in Hrun as (s9 & G9 & Hrun); [|apply gauge_free_logU].
  cbn [fst snd] in Hrun.
  assert (H9 : loading n (SeqUi.ui s0) (SeqUi.ui s9) chunks1 failed1 [])
    by (eapply loading_ext; [exact G9|exact H8]).
  assert (Hend : loading n (SeqUi.ui s0) (SeqUi.ui s') chunks failed []).
  { destruct failed1 as [|f failed1].
    - injection Hrun as <- <- <-. exact H9.
    - apply skip_gauge_free in Hrun as (s10 & G10 & Hrun); [|apply gauge_free_setPhase].
      apply skip_gauge_free in Hrun as (s11 & G11 & Hrun); [|apply gauge_free_logU].
      eapply retryFailedChunks_loading in Hrun as (chunks' & failed' & E & H12).
      + injection E as <- <-. exact H12.
      + eapply loading_ext; [exact G11|]. eapply loading_ext; [exact G10|exact H9]. }
  now rewrite (loading_total _ _ _ _ _ Hend).
Qed.

End Painting.

Lemma assemble_length {S} (chunks : list Chunk) (s : S) :
  Forall (fun c => is_Some (data c)) chunks ->
  exists data, assemble_sorted chunks s = (Return data, s) /\ length data = bytes_of chunks.
Proof.
  intros Hd. rewrite (defined_chunks chunks Hd).
  set (qs := (fun c => (index c, default [] (data c))) <$> chunks). clearbody qs.
  exists (concat qs.*2). split; [apply assemble_sorted_concat|].
  unfold bytes_of. induction qs as [|[i d] qs IH]; [reflexivity|].
  cbn. rewrite length_app, IH. reflexivity.
Qed.

Lemma initChunkGrid_counters chunkGrid total s :
  let u := SeqUi.ui (SeqUi.initChunkGrid chunkGrid total s).2 in
  SeqUi.scannedChunks u = SeqUi.scannedChunks (SeqUi.ui s) /\
  SeqUi.loadedChunks u = SeqUi.loadedChunks (SeqUi.ui s) /\
  SeqUi.bytesLoaded u = SeqUi.bytesLoaded (SeqUi.ui s) /\
  ((SeqUi.initChunkGrid chunkGrid total s).1 = Return tt ->
   SeqUi.chunkCells u
   = if chunkGrid then replicate total "chunk chunk-pending"
     else SeqUi.chunkCells (SeqUi.ui s)).
Proof.
  unfold SeqUi.initChunkGrid. destruct chunkGrid; [|repeat split].
  destruct (N.of_nat total <=? SeqUi.array_limit)%N; repeat split. discriminate.
Qed.

(** The load phases return only when the grid was built. *)
Lemma load_returns_grid env chunkGrid phaseTextDisplay root depth s r s' :
  SeqUi.fetchTreeSequential_load env chunkGrid phaseTextDisplay root depth s
    = (Return r, s') ->
  (SeqUi.initChunkGrid chunkGrid (SeqUi.expectedTotal (SeqUi.ui s)) s).1 = Return tt.
Proof.
  unfold SeqUi.fetchTreeSequential_load. intros Hrun.
  unfold bind at 1, SeqUi.getsUi at 1 in Hrun. unfold bind at 1 in Hrun.
  destruct (SeqUi.initChunkGrid chunkGrid (SeqUi.expectedTotal (SeqUi.ui s)) s)
    as [[[]|e] s0]; [reflexivity|discriminate].
Qed.

(** When the load phases of the sequential page end, the grid has
    [expectedTotal] cells and the first cells, one per leaf, tell what became
    of the leaf: loaded for a chunk held, failed for a leaf given up; the
    cells past the last leaf are still pending.  A leaf numbered past the grid
    has no cell. *)
Theorem grid_shows_the_outcome (env : Env) (phaseTextDisplay : bool)
    (rootChunk : Address) (depth : nat) (s s' : SeqUi.St)
    (chunks : list Chunk) (failed : list Leaf) :
  SeqUi.fetchTreeSequential_load env true phaseTextDisplay rootChunk depth s
    = (Return (chunks, failed), s') ->
  let u := SeqUi.ui s' in
  length (SeqUi.chunkCells u) = SeqUi.expectedTotal (SeqUi.ui s) /\
  (index <$> chunks) ++ (l_index <$> failed) ≡ₚ seq 0 (length chunks + length failed) /\
  (forall c, c ∈ chunks -> painted "chunk chunk-loaded" u (index c)) /\
  (forall l, l ∈ failed -> painted "chunk chunk-failed" u (l_index l)) /\
  (forall i, length chunks + length failed <= i -> painted "chunk chunk-pending" u i).
Proof.
  intros Hrun u. subst u.
  pose proof (load_returns_grid _ _ _ _ _ _ _ _ Hrun) as Hgrid.
  apply load_loading in Hrun as [_ _ _ _ Hc Hlo Hfa Hbe HP].
  destruct (initChunkGrid_counters true (SeqUi.expectedTotal (SeqUi.ui s)) s)
    as (_ & _ & _ & Hcells).
  cbn zeta in Hcells. specialize (Hcells Hgrid).
  rewrite Hcells in Hc, Hbe. rewrite length_replicate in Hc.
  split; [exact Hc|]. split.
  { rewrite <- HP. unfold marks. cbn. now rewrite app_nil_r. }
  split; [exact Hlo|]. split; [exact Hfa|].
  intros i Hi Hlt. rewrite Hbe by exact Hi.
  apply lookup_replicate_2. now rewrite <- Hc.
Qed.

Lemma grid_shows_the_outcome_witness :
  let run := SeqUi.fetchTreeSequential_load DeadLeaf.env true true "0xRoot" 2
               (page_expecting 5) in
  exists chunks failed,
    run.1 = Return (chunks, failed) /\
    length (SeqUi.chunkCells (SeqUi.ui run.2)) = 5 /\
    (index <$> chunks) ++ (l_index <$> failed) ≡ₚ seq 0 (length chunks + length failed) /\
    (forall c, c ∈ chunks -> painted "chunk chunk-loaded" (SeqUi.ui run.2) (index c)) /\
    (forall l, l ∈ failed -> painted "chunk chunk-failed" (SeqUi.ui run.2) (l_index l)) /\
    (forall i, length chunks + length failed <= i ->
               painted "chunk chunk-pending" (SeqUi.ui run.2) i).
Proof.
  intros run. eexists _, _. split; [vm_compute; reflexivity|].
  apply (grid_shows_the_outcome DeadLeaf.env true "0xRoot" 2 (page_expecting 5)).
  vm_compute. reflexivity.
Defined.

(** When [fetchTreeSequential] returns the file, the counters have advanced
    by what the load phases produced: the byte counter by the length of the
    file, the loaded counter by the number of chunks, the scanned counter by
    the number of leaves; the total shown and the closing log line give the
    same figures. *)
Theorem counters_match_the_file (env : Env) (formatBytes : nat -> string)
    (chunkGrid phaseTextDisplay bytesTotalDisplay : bool)
    (rootChunk : Address) (depth totalSize : nat) (s s' : SeqUi.St) (finalData : bytes) :
  SeqUi.fetchTreeSequential env formatBytes chunkGrid phaseTextDisplay bytesTotalDisplay
    rootChunk depth totalSize s = (Return finalData, s') ->
  exists chunks failed s1,
    SeqUi.fetchTreeSequential_load env chunkGrid phaseTextDisplay rootChunk depth s
      = (Return (chunks, failed), s1) /\
    SeqUi.bytesLoaded (SeqUi.ui s') = SeqUi.bytesLoaded (SeqUi.ui s) + length finalData /\
    SeqUi.loadedChunks (SeqUi.ui s') = SeqUi.loadedChunks (SeqUi.ui s) + length chunks /\
    SeqUi.scannedChunks (SeqUi.ui s')
      = SeqUi.scannedChunks (SeqUi.ui s) + length chunks + length failed /\
    (bytesTotalDisplay = true ->
     SeqUi.bytesTotalText (SeqUi.ui s') = formatBytes (length finalData)) /\
    head (trace (SeqUi.world s'))
      = Some (EvLog ("Complete! " +:+ dec (length chunks) +:+ " chunks, "
                       +:+ formatBytes (length finalData))).
Proof.
  unfold SeqUi.fetchTreeSequential. intros Hrun.
  apply bind_inv in Hrun as ([chunks failed] & s1 & Hload & Hrun).
  exists chunks, failed, s1. split; [exact Hload|].
  apply (load_loading env chunkGrid phaseTextDisplay) in Hload
    as [Hsc Hn Hb Hd _ _ _ _ _].
  destruct (initChunkGrid_counters chunkGrid (SeqUi.expectedTotal (SeqUi.ui s)) s)
    as (Es & El & Eb & _).
  cbn zeta in Es, El, Eb. rewrite Es in Hsc. rewrite El in Hn. rewrite Eb in Hb.
  cbn [fst] in Hrun.
  apply skip_gauge_free in Hrun as (s2 & (_ & Gs & Gl & Gb) & Hrun);
    [|apply gauge_free_setPhase].
  assert (Hd' : Forall (fun c => is_Some (data c)) (sort_by_index chunks)).
  { now rewrite sort_by_index_perm. }
  destruct (assemble_length (sort_by_index chunks) s2 Hd') as (assembled & Ha & Hlen).
  unfold bind at 1 in Hrun. rewrite Ha in Hrun.
  assert (Hbytes : bytes_of (sort_by_index chunks) = bytes_of chunks).
  { unfold bytes_of. now rewrite sort_by_index_perm. }
  assert (Hcount : length (sort_by_index chunks) = length chunks).
  { now rewrite sort_by_index_perm. }
  rewrite Hcount in Hrun.
  unfold SeqUi.setBytesTotal in Hrun.
  destruct bytesTotalDisplay;
    cbn in Hrun; injection Hrun as <- <-; cbn;
    (split; [lia|]); (split; [lia|]); (split; [lia|]);
    (split; [|reflexivity]); [reflexivity|discriminate].
Qed.

Lemma counters_match_the_file_witness :
  let run := SeqUi.fetchTreeSequential SampleTree.env (fun n => dec n +:+ " B")
               true true true "0xRoot" 2 6 (page_expecting 2) in
  exists data chunks failed s1,
    run.1 = Return data /\
    SeqUi.fetchTreeSequential_load SampleTree.env true true "0xRoot" 2 (page_expecting 2)
      = (Return (chunks, failed), s1) /\
    SeqUi.bytesLoaded (SeqUi.ui run.2) = 0 + length data /\
    SeqUi.loadedChunks (SeqUi.ui run.2) = 0 + length chunks /\
    SeqUi.scannedChunks (SeqUi.ui run.2) = 0 + length chunks + length failed /\
    (true = true -> SeqUi.bytesTotalText (SeqUi.ui run.2) = dec (length data) +:+ " B") /\
    head (trace (SeqUi.world run.2))
      = Some (EvLog ("Complete! " +:+ dec (length chunks) +:+ " chunks, "
                       +:+ dec (length data) +:+ " B")).
Proof.
  intros run. eexists _.
  assert (Hrun : SeqUi.fetchTreeSequential SampleTree.env (fun n => dec n +:+ " B")
                   true true true "0xRoot" 2 6 (page_expecting 2)
                 = (Return [x41; x42; x43; x44; x45; x46], run.2))
    by (vm_compute; reflexivity).
  destruct (counters_match_the_file _ _ _ _ _ _ _ _ _ _ _ Hrun)
    as (chunks & failed & s1 & H).
  exists chunks, failed, s1. split; [vm_compute; reflexivity|exact H].
Defined.
